(** * keyway CLI: the secret-set reconciliation engine of [push] and [pull]

    A shallow embedding of [internal/cmd/push.go] (which also holds the
    [pull] command): the dotenv parser [parseEnvContent], the environment
    name derivation [deriveEnvFromFile], the two diffs
    [calculatePushDiff] and [calculateDiff], the merge [mergeSecrets], and
    the two command flows [runPush] and [runPull].

    Go strings are byte sequences: they are modelled by [string], whose
    characters are the bytes.  A Go [map[string]string] is a
    [gmap string string]; the order in which a [range] statement visits a
    map is not fixed by the language, so every function that ranges over a
    map takes the visiting order as an argument (see [rangeOrder]). *)

From Stdlib Require Import Ascii.
From stdpp Require Import gmap strings list fin_maps pretty.

Definition newline : ascii := "010"%char.
Definition dquote : ascii := "034"%char.
Definition squote : ascii := "039"%char.

(** ** The parts of Go's [strings] package the commands use *)

Module Strings.

(** [len(s)] *)
Definition len (s : string) : nat := String.length s.

(** [s[n:]]; the commands only slice within bounds. *)
Fixpoint sliceFrom (s : string) (n : nat) {struct n} : string :=
  match n, s with
  | 0, _ => s
  | S n, String _ r => sliceFrom r n
  | S _, EmptyString => EmptyString
  end.

(** [s[:n]] *)
Fixpoint sliceTo (s : string) (n : nat) {struct n} : string :=
  match n, s with
  | 0, _ => EmptyString
  | S n, String c r => String c (sliceTo r n)
  | S _, EmptyString => EmptyString
  end.

(** [s[i:j]] *)
Definition slice (s : string) (i j : nat) : string :=
  sliceTo (sliceFrom s i) (j - i).

(** [s[i]], [None] out of range (where Go panics). *)
Definition byteAt (s : string) (i : nat) : option ascii := String.get i s.

(** [strings.HasPrefix(s, prefix)] *)
Fixpoint HasPrefix (s prefix : string) {struct prefix} : bool :=
  match prefix, s with
  | EmptyString, _ => true
  | String p ps, String c cs => if Ascii.eqb p c then HasPrefix cs ps else false
  | String _ _, EmptyString => false
  end.

(** [strings.HasSuffix(s, suffix)] *)
Definition HasSuffix (s suffix : string) : bool :=
  HasPrefix (String.rev s) (String.rev suffix).

(** [strings.TrimPrefix(s, prefix)] *)
Definition TrimPrefix (s prefix : string) : string :=
  if HasPrefix s prefix then sliceFrom s (len prefix) else s.

(** [strings.Index(s, sep)] for a one-byte [sep]: the index of its first
    occurrence, [None] where Go returns [-1]. *)
Fixpoint Index (s : string) (sep : ascii) : option nat :=
  match s with
  | EmptyString => None
  | String c r => if Ascii.eqb c sep then Some 0 else S <$> Index r sep
  end.

(** [strings.Split(s, sep)] for a one-byte [sep]: the pieces between the
    occurrences of [sep], one more than there are occurrences. *)
Fixpoint Split (s : string) (sep : ascii) : list string :=
  match s with
  | EmptyString => [EmptyString]
  | String c r =>
      if Ascii.eqb c sep then EmptyString :: Split r sep
      else match Split r sep with
           | piece :: pieces => String c piece :: pieces
           | [] => [String c EmptyString]
           end
  end.

(** [strings.TrimRight(s, cutset)] for a one-byte [cutset]: all trailing
    bytes equal to it are removed. *)
Fixpoint TrimRight (s : string) (cut : ascii) : string :=
  match s with
  | EmptyString => EmptyString
  | String c r =>
      match TrimRight r cut with
      | EmptyString => if Ascii.eqb c cut then EmptyString else String c EmptyString
      | r' => String c r'
      end
  end.

(** The string whose bytes have the given codes. *)
Definition bytes (codes : list nat) : string :=
  String.string_of_list_ascii (ascii_of_nat <$> codes).

(** The UTF-8 encodings of the runes for which [unicode.IsSpace] holds:
    tab, LF, VT, FF, CR, space, U+0085, U+00A0, U+1680, U+2000..U+200A,
    U+2028, U+2029, U+202F, U+205F and U+3000. *)
Definition spaceRunes : list string :=
  bytes <$> ([[9]; [10]; [11]; [12]; [13]; [32];
              [194; 133]; [194; 160]; [225; 154; 128]]
             ++ ((λ b, [226; 128; b]) <$> seq 128 11)
             ++ [[226; 128; 168]; [226; 128; 169]; [226; 128; 175];
                 [226; 129; 159]; [227; 128; 128]]).

(** One leading white-space rune removed, [None] when [s] does not start
    with one (the next rune, valid or not, is not a space). *)
Definition stripLeadingSpace (s : string) : option string :=
  (λ r, sliceFrom s (len r.2)) <$> list_find (λ r, HasPrefix s r = true) spaceRunes.

(** One trailing white-space rune removed. *)
Definition stripTrailingSpace (s : string) : option string :=
  (λ r, sliceTo s (len s - len r.2)) <$> list_find (λ r, HasSuffix s r = true) spaceRunes.

Fixpoint trimLeftSpace (fuel : nat) (s : string) : string :=
  match fuel with
  | 0 => s
  | S fuel =>
      match stripLeadingSpace s with
      | Some r => trimLeftSpace fuel r
      | None => s
      end
  end.

Fixpoint trimRightSpace (fuel : nat) (s : string) : string :=
  match fuel with
  | 0 => s
  | S fuel =>
      match stripTrailingSpace s with
      | Some r => trimRightSpace fuel r
      | None => s
      end
  end.

(** [strings.TrimSpace(s)]: leading, then trailing white-space runes are
    removed.  Every removal takes at least one byte, so [len s] rounds
    are enough on either side. *)
Definition TrimSpace (s : string) : string :=
  let s := trimLeftSpace (len s) s in
  trimRightSpace (len s) s.

End Strings.

(** ** [path/filepath] *)

Module Filepath.

(** The part of [s] after its last slash, all of [s] when it has none. *)
Fixpoint lastElement (s : string) : string :=
  match s with
  | EmptyString => EmptyString
  | String c r =>
      match Strings.Index r "/"%char with
      | Some _ => lastElement r
      | None => if Ascii.eqb c "/"%char then r else s
      end
  end.

(** [filepath.Base(path)] with [/] as the separator and no volume names
    (every platform but Windows). *)
Definition Base (path : string) : string :=
  if decide (path = "") then "."
  else
    let path := Strings.TrimRight path "/"%char in
    let path := lastElement path in
    if decide (path = "") then "/" else path.

End Filepath.

(** ** Environment name and dotenv parsing (push.go, lines 288-326) *)

Definition deriveEnvFromFile (file : string) : string :=
  let base := Filepath.Base file in
  if decide (base = ".env") then "development"
  else if Strings.HasPrefix base ".env." then Strings.TrimPrefix base ".env."
  else "development".

(** Lines 313-319: one pair of surrounding quotes is removed. *)
Definition unquote (value : string) : string :=
  if decide (2 ≤ Strings.len value) then
    if (bool_decide (Strings.byteAt value 0 = Some dquote)
        && bool_decide (Strings.byteAt value (Strings.len value - 1) = Some dquote))
       || (bool_decide (Strings.byteAt value 0 = Some squote)
           && bool_decide (Strings.byteAt value (Strings.len value - 1) = Some squote))
    then Strings.slice value 1 (Strings.len value - 1)
    else value
  else value.

(** The body of the loop of [parseEnvContent] up to the assignment: the
    key and value a line contributes, [None] where the loop moves on to
    the next line ([continue], or an empty key). *)
Definition parseLine (line : string) : option (string * string) :=
  let line := Strings.TrimSpace line in
  if bool_decide (line = "") || Strings.HasPrefix line "#" then None
  else
    match Strings.Index line "="%char with
    | None => None
    | Some idx =>
        let key := Strings.TrimSpace (Strings.sliceTo line idx) in
        let value := Strings.sliceFrom line (idx + 1) in
        let value := unquote value in
        if bool_decide (key ≠ "") then Some (key, value) else None
    end.

(** One round of that loop: [result[key] = value] when the line has a key. *)
Definition parseStep (result : gmap string string) (line : string) : gmap string string :=
  match parseLine line with
  | Some (key, value) => <[key := value]> result
  | None => result
  end.

Definition parseEnvContent (content : string) : gmap string string :=
  foldl parseStep ∅ (Strings.Split content newline).

(** [inner] between two quote characters [q]. *)
Definition quoted (q : ascii) (inner : string) : string :=
  String q (inner +:+ String q "").

(** ** Ranging over a map *)

(** [o] is an order in which [for key, value := range m] may visit [m]:
    every entry once, in any order. *)
Definition rangeOrder (m : gmap string string) (o : list (string * string)) : Prop :=
  o ≡ₚ map_to_list m.

(** The keys of the entries a visit [o] meets that satisfy [P], in the
    order of the visit. *)
Definition keysWhere (P : string → string → bool) (o : list (string * string)) : list string :=
  (filter (λ kv, P kv.1 kv.2 = true) o).*1.

(** ** The collaborators of the two commands *)

(** A Go [error]: an [*api.APIError] with its status code, the text its
    [Error()] method gives and its upgrade URL, or any other error with its
    text. *)
Inductive error :=
| APIError (StatusCode : Z) (Text : string) (UpgradeURL : string)
| OtherError (Text : string).

Definition Error (e : error) : string :=
  match e with
  | APIError _ text _ => text
  | OtherError text => text
  end.

(** [fmt.Errorf(text)] *)
Definition Errorf (text : string) : error := OtherError text.

Inductive result (A : Type) :=
| Ok (a : A)
| Err (e : error).
Arguments Ok {A} a.
Arguments Err {A} e.

(** What is handed to [ui.Value] and to the analytics properties. *)
Inductive value :=
| VStr (s : string)
| VInt (n : nat).

Inductive uiKind :=
| Intro | Outro | Warn | ErrorMsg | Success | Message | Step | Info | Spin
| DiffAdded | DiffChanged | DiffRemoved | DiffKept.

Inductive analyticsEvent := EventPush | EventPull | EventError | EventUpgradePrompt.

Record PushStats := { Created : Z; Updated : Z; Deleted : Z }.
Record PushSecretsResponse := { RespMessage : string; Stats : option PushStats }.

(** The calls the commands make on the outside world, in the order they
    are made. *)
Inductive event :=
| Ui (kind : uiKind) (text : string)
| UiConfirm (prompt : string)
| UiSelect (prompt : string) (options : list string)
| GitCheckEnvGitignore
| GitAddEnvToGitignore
| GitDetectRepo
| OsReadDir (dir : string)
| OsReadFile (path : string)
| OsWriteFile (path : string) (content : string) (perm : N)
| CallEnsureLogin
| ApiPullSecrets (token repo env : string)
| ApiPushSecrets (token repo env : string) (secrets : gmap string string)
| AnalyticsTrack (ev : analyticsEvent) (props : list (string * value)).

(** What kind of call an event is. *)
Inductive eventClass :=
| Display | Prompt | Git | DirRead | FileRead | FileWrite | Login | Fetch | Upload | Analytics.

Global Instance eventClass_eq_dec : EqDecision eventClass.
Proof. solve_decision. Defined.

Definition classOf (e : event) : eventClass :=
  match e with
  | Ui _ _ => Display
  | UiConfirm _ | UiSelect _ _ => Prompt
  | GitCheckEnvGitignore | GitAddEnvToGitignore | GitDetectRepo => Git
  | OsReadDir _ => DirRead
  | OsReadFile _ => FileRead
  | OsWriteFile _ _ _ => FileWrite
  | CallEnsureLogin => Login
  | ApiPullSecrets _ _ _ => Fetch
  | ApiPushSecrets _ _ _ _ => Upload
  | AnalyticsTrack _ _ => Analytics
  end.

(** The calls that may go over the network: the login, the two vault
    calls and the analytics. *)
Definition networkClasses : list eventClass := [Login; Fetch; Upload; Analytics].

(** The [range] statements over a map. *)
Inductive rangeSite :=
| PushDiffLocal | PushDiffVault | PullDiffVault | PullDiffLocal | MergeLocal.

(** What the outside world answers during one invocation. *)
Record World := {
  (* the command line, after flag parsing *)
  flagEnv : string;
  flagFile : string;
  flagYes : bool;
  flagForce : bool;
  (* package ui *)
  IsInteractive : bool;
  Confirm : string → bool;
  Select : string → list string → result string;
  uiDim : string → string;
  uiFile : string → string;
  uiLink : string → string;
  uiValue : value → string;
  (* package git *)
  CheckEnvGitignore : bool;
  AddEnvToGitignore : option error;
  DetectRepo : result string;
  (* package os and path/filepath *)
  ReadDir : string → result (list (string * bool));
  ReadFile : string → result string;
  WriteFile : string → string → N → option error;
  Join : string → string → string;
  (* login and the vault client *)
  EnsureLogin : result string;
  PullSecrets : string → string → string → result string;
  PushSecrets : string → string → string → gmap string string → result PushSecretsResponse;
  (* the order of each visit of a map *)
  rangeOver : rangeSite → gmap string string → list (string * string)
}.


(** ** Command flows: a trace of calls, and either a value to go on with
    or the error (or [nil]) the command returned with *)

Inductive outcome (A : Type) :=
| Next (a : A)
| Return (err : option error).
Arguments Next {A} a.
Arguments Return {A} err.

Definition Flow (A : Type) : Type := list event * outcome A.

Global Instance Flow_ret : MRet Flow := λ A a, ([], Next a).
Global Instance Flow_bind : MBind Flow := λ A B f m,
  match m with
  | (t, Next a) => let '(t', o) := f a in (t ++ t', o)
  | (t, Return err) => (t, Return err)
  end.

Definition emit (e : event) : Flow unit := ([e], Next tt).
Definition emitAll (es : list event) : Flow unit := (es, Next tt).
Definition returns {A} (err : option error) : Flow A := ([], Return err).

(** Falling off the end of the function body is [return nil]. *)
Definition finish (m : Flow unit) : list event * option error :=
  match m with
  | (t, Next _) => (t, None)
  | (t, Return err) => (t, err)
  end.

Definition confirm (w : World) (prompt : string) : Flow bool :=
  emit (UiConfirm prompt) ;; mret (Confirm w prompt).

(** Lines 33-44 and 395-406: the gitignore check both commands start with. *)
Definition checkGitignore (w : World) : Flow unit :=
  emit GitCheckEnvGitignore ;;
  if negb (CheckEnvGitignore w) then
    emit (Ui Warn ".env files are not in .gitignore - secrets may be committed") ;;
    if IsInteractive w then
      add ← confirm w "Add .env* to .gitignore?";
      if add : bool then
        emit GitAddEnvToGitignore ;;
        match AddEnvToGitignore w with
        | None => emit (Ui Success "Added .env* to .gitignore")
        | Some _ => mret tt
        end
      else mret tt
    else mret tt
  else mret tt.

(** Lines 127-138 and 415-426: the repository and the login. *)
Definition connect (w : World) : Flow (string * string) :=
  emit GitDetectRepo ;;
  match DetectRepo w with
  | Err err =>
      emit (Ui ErrorMsg "Not in a git repository with GitHub remote") ;;
      returns (Some err)
  | Ok repo =>
      emit (Ui Step ("Repository: " +:+ uiValue w (VStr repo))) ;;
      emit CallEnsureLogin ;;
      match EnsureLogin w with
      | Err err => emit (Ui ErrorMsg (Error err)) ;; returns (Some err)
      | Ok token => mret (repo, token)
      end
  end.

(** [strings.Join(parts, sep)] *)
Fixpoint joinWith (parts : list string) (sep : string) : string :=
  match parts with
  | [] => ""
  | [part] => part
  | part :: parts => part +:+ sep +:+ joinWith parts sep
  end.

(** ** The push-direction diff (push.go, lines 328-360) *)

Module Push.

Record pushDiff := {
  added : list string;   (* in local, not in vault (will be created) *)
  changed : list string; (* in both, different values (will be updated) *)
  removed : list string  (* in vault, not in local (will be deleted) *)
}.

Definition hasChanges (d : pushDiff) : bool :=
  bool_decide (0 < length (added d)) || bool_decide (0 < length (changed d))
  || bool_decide (0 < length (removed d)).

(** [ol] and [ov] are the orders in which the two loops visit [local]
    and [vault]. *)
Definition calculatePushDiff (local vault : gmap string string)
    (ol ov : list (string * string)) : pushDiff :=
  let diff := {| added := []; changed := []; removed := [] |} in
  let diff :=
    foldl (λ diff '(key, localVal),
             match vault !! key with
             | Some vaultVal =>
                 if bool_decide (localVal ≠ vaultVal)
                 then {| added := added diff; changed := changed diff ++ [key];
                         removed := removed diff |}
                 else diff
             | None =>
                 {| added := added diff ++ [key]; changed := changed diff;
                    removed := removed diff |}
             end)
          diff ol in
  let diff :=
    foldl (λ diff '(key, _),
             match local !! key with
             | Some _ => diff
             | None =>
                 {| added := added diff; changed := changed diff;
                    removed := removed diff ++ [key] |}
             end)
          diff ov in
  diff.


(** *** The push command (push.go, lines 30-286) *)

Record envCandidate := { file : string; env : string }.

(** Template files to exclude (not real secrets). *)
Definition excludeFiles : gset string :=
  {[ ".env.local"; ".env.example"; ".env.sample"; ".env.template" ]}.

Definition discoverEnvFiles (w : World) : Flow (list envCandidate) :=
  emit (OsReadDir ".") ;;
  match ReadDir w "." with
  | Err _ => mret []
  | Ok entries =>
      mret (foldl (λ candidates '(name, isDir),
                     if Strings.HasPrefix name ".env"
                        && negb (bool_decide (name ∈ excludeFiles)) && negb isDir
                     then candidates ++ [{| file := name; env := deriveEnvFromFile name |}]
                     else candidates)
                  [] entries)
  end.

Definition envTemplate : string :=
  "# Add your environment variables here" +:+ String newline ""
  +:+ "# Example: API_KEY=your-api-key" +:+ String newline "".

(** Lines 46-103: the file to push and its environment name. *)
Definition selectFile (w : World) : Flow (string * string) :=
  let env0 := flagEnv w in
  let file0 := flagFile w in
  candidates ← discoverEnvFiles w;
  (if bool_decide (length candidates = 0) && bool_decide (file0 = "") then
     if negb (IsInteractive w) then
       emit (Ui ErrorMsg "No .env file found") ;;
       returns (Some (Errorf "no .env file found"))
     else
       create ← confirm w "No .env file found. Create one?";
       (if create : bool then
          emit (OsWriteFile ".env" envTemplate 384) ;;
          match WriteFile w ".env" envTemplate 384 with
          | Some err => returns (Some err)
          | None =>
              emit (Ui Success "Created .env file") ;;
              emit (Ui Message (uiDim w "Add your variables and run keyway push again"))
          end
        else mret tt) ;;
       returns None
   else mret tt) ;;
  '(file1, env1) ←
    (if bool_decide (file0 = "") && IsInteractive w && bool_decide (1 < length candidates)
     then
       let options := (λ c, file c +:+ " (env: " +:+ env c +:+ ")") <$> candidates in
       emit (UiSelect "Select an env file to push:" options) ;;
       match Select w "Select an env file to push:" options with
       | Err err => returns (Some err)
       | Ok selected =>
           match find (λ c, Strings.HasPrefix selected (file c)) candidates with
           | Some c => mret (file c, if bool_decide (env0 = "") then env c else env0)
           | None => mret (file0, env0)
           end
       end
     else mret (file0, env0));
  let '(file2, env2) :=
    if bool_decide (file1 = "") then
      match candidates with
      | c :: _ => (file c, if bool_decide (env1 = "") then env c else env1)
      | [] => (".env", env1)
      end
    else (file1, env1) in
  let env3 := if bool_decide (env2 = "") then deriveEnvFromFile file2 else env2 in
  mret (file2, env3).

(** Lines 105-125: the local file is read and parsed. *)
Definition loadLocal (w : World) (file env : string) : Flow (gmap string string) :=
  emit (OsReadFile file) ;;
  match ReadFile w file with
  | Err err => emit (Ui ErrorMsg ("File not found: " +:+ file)) ;; returns (Some err)
  | Ok content =>
      if bool_decide (Strings.len (Strings.TrimSpace content) = 0) then
        emit (Ui ErrorMsg ("File is empty: " +:+ file)) ;;
        returns (Some (Errorf "file is empty"))
      else
        let secrets := parseEnvContent content in
        if bool_decide (size secrets = 0) then
          emit (Ui ErrorMsg "No valid environment variables found in file") ;;
          returns (Some (Errorf "no variables found"))
        else
          emit (Ui Step ("File: " +:+ uiFile w file)) ;;
          emit (Ui Step ("Environment: " +:+ uiValue w (VStr env))) ;;
          emit (Ui Step ("Variables: " +:+ uiValue w (VInt (size secrets)))) ;;
          mret secrets
  end.

(** Line 149: [err] is an [*api.APIError] whose status code is 404. *)
Definition isNotFound (err : error) : bool :=
  match err with
  | APIError StatusCode _ _ => bool_decide (StatusCode = 404%Z)
  | OtherError _ => false
  end.

(** Lines 143-166: the current vault state, fetched for the preview; a
    vault that does not exist yet counts as an empty one. *)
Definition fetchVault (w : World) (token repo env : string) : Flow (gmap string string) :=
  emit (Ui Spin "Fetching current vault state...") ;;
  emit (ApiPullSecrets token repo env) ;;
  match PullSecrets w token repo env with
  | Ok content => mret (parseEnvContent content)
  | Err err =>
      if isNotFound err then mret ∅
      else emit (Ui ErrorMsg (Error err)) ;; returns (Some err)
  end.

(** Lines 168-186 *)
Definition showDiff (diff : pushDiff) : Flow unit :=
  if hasChanges diff then
    emit (Ui Message "") ;;
    emit (Ui Message "Changes:") ;;
    emitAll (Ui DiffAdded <$> added diff) ;;
    emitAll (Ui DiffChanged <$> changed diff) ;;
    emitAll (Ui DiffRemoved <$> removed diff) ;;
    emit (Ui Message "")
  else emit (Ui Info "No changes detected").

(** What the command knows when it gets to the confirmation. *)
Record pushPlan := {
  planFile : string;
  planEnv : string;
  planSecrets : gmap string string;
  planRepo : string;
  planToken : string;
  planDiff : pushDiff
}.

(** Lines 31-103: up to the choice of the file. *)
Definition chooseFile (w : World) : Flow (string * string) :=
  emit (Ui Intro "push") ;;
  checkGitignore w ;;
  selectFile w.

(** Lines 31-141: everything before the vault is asked. *)
Definition beforeFetch (w : World)
    : Flow (string * string * gmap string string * string * string) :=
  '(file, env) ← chooseFile w;
  secrets ← loadLocal w file env;
  '(repo, token) ← connect w;
  mret (file, env, secrets, repo, token).

(** Lines 31-186: everything before the confirmation. *)
Definition preparePush (w : World) : Flow pushPlan :=
  '(file, env, secrets, repo, token) ← beforeFetch w;
  vaultSecrets ← fetchVault w token repo env;
  let diff := calculatePushDiff secrets vaultSecrets
                (rangeOver w PushDiffLocal secrets) (rangeOver w PushDiffVault vaultSecrets) in
  showDiff diff ;;
  mret {| planFile := file; planEnv := env; planSecrets := secrets;
          planRepo := repo; planToken := token; planDiff := diff |}.

(** Lines 188-197: the confirmation. *)
Definition confirmPush (w : World) (p : pushPlan) : Flow unit :=
  if negb (flagYes w) && IsInteractive w then
    ok ← confirm w ("Push " +:+ pretty (size (planSecrets p)) +:+ " secrets from "
                    +:+ planFile p +:+ " to " +:+ planRepo p +:+ "?");
    if ok : bool then mret tt
    else emit (Ui Warn "Push aborted.") ;; returns None
  else if negb (flagYes w) then
    returns (Some (Errorf "confirmation required - use --yes in non-interactive mode"))
  else mret tt.

Definition statsParts (st : PushStats) : list string :=
  let parts := [] in
  let parts := if bool_decide (0 < Created st)%Z
               then parts ++ ["+" +:+ pretty (Created st) +:+ " created"] else parts in
  let parts := if bool_decide (0 < Updated st)%Z
               then parts ++ ["~" +:+ pretty (Updated st) +:+ " updated"] else parts in
  let parts := if bool_decide (0 < Deleted st)%Z
               then parts ++ ["-" +:+ pretty (Deleted st) +:+ " deleted"] else parts in
  parts.

(** Lines 199-254: the upload and its report. *)
Definition upload (w : World) (p : pushPlan) : Flow unit :=
  emit (AnalyticsTrack EventPush
          [("repoFullName", VStr (planRepo p)); ("environment", VStr (planEnv p));
           ("variableCount", VInt (size (planSecrets p)))]) ;;
  emit (Ui Spin "Uploading secrets...") ;;
  emit (ApiPushSecrets (planToken p) (planRepo p) (planEnv p) (planSecrets p)) ;;
  match PushSecrets w (planToken p) (planRepo p) (planEnv p) (planSecrets p) with
  | Err err =>
      emit (AnalyticsTrack EventError [("command", VStr "push"); ("error", VStr (Error err))]) ;;
      match err with
      | APIError _ _ url =>
          emit (Ui ErrorMsg (Error err)) ;;
          if bool_decide (url ≠ "") then
            emit (AnalyticsTrack EventUpgradePrompt
                    [("reason", VStr "push_error"); ("command", VStr "push")]) ;;
            emit (Ui Message ("Upgrade: " +:+ uiLink w url))
          else mret tt
      | OtherError _ => emit (Ui ErrorMsg (Error err))
      end ;;
      returns (Some err)
  | Ok resp =>
      emit (Ui Success (RespMessage resp)) ;;
      match Stats resp with
      | Some st =>
          let parts := statsParts st in
          if bool_decide (0 < length parts)
          then emit (Ui Message ("Stats: " +:+ joinWith parts ", "))
          else mret tt
      | None => mret tt
      end ;;
      emit (Ui Outro ("Dashboard: "
                      +:+ uiLink w ("https://www.keyway.sh/dashboard/vaults/" +:+ planRepo p)))
  end.

Definition runPush (w : World) : list event * option error :=
  finish (p ← preparePush w; confirmPush w p ;; upload w p).

End Push.


(** ** The pull-direction diff and the merge (push.go, lines 559-631) *)

Module Pull.

Record secretsDiff := {
  added : list string;     (* in vault, not in local *)
  changed : list string;   (* in both, different values *)
  localOnly : list string; (* in local, not in vault *)
  unchanged : list string  (* in both, same values *)
}.

Definition hasChanges (d : secretsDiff) : bool :=
  bool_decide (0 < length (added d)) || bool_decide (0 < length (changed d))
  || bool_decide (0 < length (localOnly d)).

Definition calculateDiff (local vault : gmap string string)
    (ov ol : list (string * string)) : secretsDiff :=
  let diff := {| added := []; changed := []; localOnly := []; unchanged := [] |} in
  let diff :=
    foldl (λ diff '(key, vaultVal),
             match local !! key with
             | Some localVal =>
                 if bool_decide (localVal ≠ vaultVal)
                 then {| added := added diff; changed := changed diff ++ [key];
                         localOnly := localOnly diff; unchanged := unchanged diff |}
                 else {| added := added diff; changed := changed diff;
                         localOnly := localOnly diff;
                         unchanged := unchanged diff ++ [key] |}
             | None =>
                 {| added := added diff ++ [key]; changed := changed diff;
                    localOnly := localOnly diff; unchanged := unchanged diff |}
             end)
          diff ov in
  let diff :=
    foldl (λ diff '(key, _),
             match vault !! key with
             | Some _ => diff
             | None =>
                 {| added := added diff; changed := changed diff;
                    localOnly := localOnly diff ++ [key];
                    unchanged := unchanged diff |}
             end)
          diff ol in
  diff.

(** The first loop of [mergeSecrets]: one [key=value] line per entry of
    [local] whose key [vault] lacks, in the order [ol] of the visit. *)
Definition localOnlyLines (vault : gmap string string)
    (ol : list (string * string)) : list string :=
  foldl (λ lines '(key, value),
           match vault !! key with
           | Some _ => lines
           | None => lines ++ [key +:+ "=" +:+ value]
           end)
        [] ol.

Definition localHeader : string :=
  String newline (String newline "# Local variables (not in vault)") +:+ String newline "".

Definition mergeSecrets (vaultContent : string) (local vault : gmap string string)
    (ol : list (string * string)) : string :=
  let result := Strings.TrimRight vaultContent newline in
  let localOnlyLines := localOnlyLines vault ol in
  if bool_decide (0 < length localOnlyLines) then
    let result := result +:+ localHeader in
    foldl (λ result line, result +:+ (line +:+ String newline "")) result localOnlyLines
  else result +:+ String newline "".

(** [countEnvLines]: the lines that are neither blank nor comments. *)
Definition countEnvLines (content : string) : nat :=
  foldl (λ count line,
           let line := Strings.TrimSpace line in
           if bool_decide (line ≠ "") && negb (Strings.HasPrefix line "#")
           then S count else count)
        0 (Strings.Split content newline).

(** *** The pull command (push.go, lines 392-557) *)

(** Lines 437-461: the download; any error ends the command. *)
Definition download (w : World) (token repo env : string) : Flow string :=
  emit (Ui Spin "Downloading secrets...") ;;
  emit (ApiPullSecrets token repo env) ;;
  match PullSecrets w token repo env with
  | Ok content => mret content
  | Err err =>
      emit (AnalyticsTrack EventError [("command", VStr "pull"); ("error", VStr (Error err))]) ;;
      match err with
      | APIError _ _ url =>
          emit (Ui ErrorMsg (Error err)) ;;
          if bool_decide (url ≠ "")
          then emit (Ui Message ("Upgrade: " +:+ uiLink w url))
          else mret tt
      | OtherError _ => emit (Ui ErrorMsg (Error err))
      end ;;
      returns (Some err)
  end.

(** Lines 479-509 *)
Definition showDiff (force localExists : bool) (diff : secretsDiff) : Flow unit :=
  if localExists && hasChanges diff then
    (if bool_decide (0 < length (added diff)) || bool_decide (0 < length (changed diff)) then
       emit (Ui Message "") ;;
       emit (Ui Message "Changes from vault:") ;;
       emitAll (Ui DiffAdded <$> added diff) ;;
       emitAll (Ui DiffChanged <$> changed diff)
     else mret tt) ;;
    (if bool_decide (0 < length (localOnly diff)) then
       emit (Ui Message "") ;;
       if negb force then
         emit (Ui Message "Not in vault (will be preserved):") ;;
         emitAll (Ui DiffKept <$> localOnly diff)
       else
         emit (Ui Message "Not in vault (will be removed):") ;;
         emitAll (Ui DiffRemoved <$> localOnly diff)
     else mret tt) ;;
    emit (Ui Message "")
  else mret tt.

(** What the command knows when it gets to the confirmation. *)
Record pullPlan := {
  planFile : string;
  planVaultContent : string;
  planVaultSecrets : gmap string string;
  planEnvFilePath : string;
  planLocalExists : bool;
  planLocalSecrets : gmap string string;
  planDiff : secretsDiff
}.

(** Lines 393-435: everything before the vault is asked. *)
Definition beforeDownload (w : World) : Flow (string * string) :=
  emit (Ui Intro "pull") ;;
  checkGitignore w ;;
  emit (Ui Step ("Environment: " +:+ uiValue w (VStr (flagEnv w)))) ;;
  '(repo, token) ← connect w;
  emit (AnalyticsTrack EventPull
          [("repoFullName", VStr repo); ("environment", VStr (flagEnv w))]) ;;
  mret (repo, token).

(** Lines 393-509: everything before the confirmation. *)
Definition preparePull (w : World) : Flow pullPlan :=
  '(repo, token) ← beforeDownload w;
  let env := flagEnv w in
  let file := flagFile w in
  vaultContent ← download w token repo env;
  let vaultSecrets := parseEnvContent vaultContent in
  let envFilePath := Join w "." file in
  emit (OsReadFile envFilePath) ;;
  let '(localExists, localSecrets) :=
    match ReadFile w envFilePath with
    | Ok data => (true, parseEnvContent data)
    | Err _ => (false, ∅)
    end in
  let diff := calculateDiff localSecrets vaultSecrets
                (rangeOver w PullDiffVault vaultSecrets) (rangeOver w PullDiffLocal localSecrets) in
  showDiff (flagForce w) localExists diff ;;
  mret {| planFile := file; planVaultContent := vaultContent;
          planVaultSecrets := vaultSecrets; planEnvFilePath := envFilePath;
          planLocalExists := localExists; planLocalSecrets := localSecrets;
          planDiff := diff |}.

(** Lines 511-528: the confirmation, asked for only when the file exists. *)
Definition confirmPull (w : World) (p : pullPlan) : Flow unit :=
  if planLocalExists p then
    if negb (flagYes w) && IsInteractive w then
      let promptMsg :=
        if flagForce w then "Replace " +:+ planFile p +:+ " with secrets from vault?"
        else "Merge secrets from vault into " +:+ planFile p +:+ "?" in
      ok ← confirm w promptMsg;
      if ok : bool then mret tt
      else emit (Ui Warn "Pull aborted.") ;; returns None
    else if negb (flagYes w) then
      returns (Some (Errorf ("file " +:+ planFile p +:+ " exists - use --yes to confirm")))
    else mret tt
  else mret tt.

(** Lines 530-538: the text to write. *)
Definition finalContent (w : World) (p : pullPlan) : string :=
  if flagForce w || negb (planLocalExists p) then planVaultContent p
  else mergeSecrets (planVaultContent p) (planLocalSecrets p) (planVaultSecrets p)
         (rangeOver w MergeLocal (planLocalSecrets p)).

(** Lines 540-556: the file is written and the result reported. *)
Definition writeResult (w : World) (p : pullPlan) : Flow unit :=
  let finalContent := finalContent w p in
  emit (OsWriteFile (planEnvFilePath p) finalContent 384) ;;
  match WriteFile w (planEnvFilePath p) finalContent 384 with
  | Some err =>
      emit (Ui ErrorMsg ("Failed to write file: " +:+ Error err)) ;;
      returns (Some err)
  | None =>
      let lines := countEnvLines finalContent in
      emit (Ui Success ("Secrets downloaded to " +:+ uiFile w (planFile p))) ;;
      emit (Ui Message ("Variables: " +:+ uiValue w (VInt lines))) ;;
      (if negb (flagForce w) && bool_decide (0 < length (localOnly (planDiff p))) then
         emit (Ui Message ("Kept " +:+ uiValue w (VInt (length (localOnly (planDiff p))))
                           +:+ " local-only variables"))
       else mret tt) ;;
      emit (Ui Outro "Secrets synced!")
  end.

Definition runPull (w : World) : list event * option error :=
  finish (p ← preparePull w; confirmPull w p ;; writeResult w p).

End Pull.

(** ** The text a pull writes, in the words of the specification *)

(** One [KEY=VALUE] line per key, each ended by a newline, with the values
    of [local] as they are. *)
Definition keyValueLines (local : gmap string string) (keys : list string) : string :=
  foldr (λ key rest, key +:+ "=" +:+ default "" (local !! key) +:+ String newline "" +:+ rest)
        "" keys.

(** Replace mode: the remote text as it is.  Merge mode: the remote text
    without its trailing newlines, then a single newline when no key is
    local-only, and otherwise a blank line, the comment line and the lines
    of the local-only keys. *)
Definition specFinalText (force localExists : bool) (remoteText : string)
    (local : gmap string string) (localOnlyKeys : list string) : string :=
  if force || negb localExists then remoteText
  else
    Strings.TrimRight remoteText newline
    +:+ match localOnlyKeys with
        | [] => String newline ""
        | _ :: _ =>
            String newline "" +:+ String newline ""
            +:+ "# Local variables (not in vault)" +:+ String newline ""
            +:+ keyValueLines local localOnlyKeys
        end.

(** A text made of white-space runes only. *)
Inductive whitespaceOnly : string → Prop :=
| ws_empty : whitespaceOnly ""
| ws_rune (r s : string) :
    r ∈ Strings.spaceRunes → whitespaceOnly s → whitespaceOnly (r +:+ s).

(** The printable ASCII bytes other than the space. *)
Definition visibleByte (c : ascii) : bool :=
  (33 <=? nat_of_ascii c) && (nat_of_ascii c <=? 126).

Fixpoint visible (s : string) : bool :=
  match s with
  | EmptyString => true
  | String c r => visibleByte c && visible r
  end.

(** [n] bytes [c]. *)
Fixpoint repeatByte (n : nat) (c : ascii) : string :=
  match n with
  | 0 => ""
  | S n => String c (repeatByte n c)
  end.

(** An entry that can be written back as a line: [KEY=VALUE] holds no
    newline and parses to the entry again. *)
Definition survivesRewrite (key value : string) : Prop :=
  Strings.Split (key +:+ "=" +:+ value) newline = [key +:+ "=" +:+ value]
  ∧ parseLine (key +:+ "=" +:+ value) = Some (key, value).

(** ** Sample inputs *)

(** A session without a terminal, in a repository whose vault holds
    [FOO=1], with no [.env] on disk unless [localFile] gives one. *)
Definition batchWorld (yes force : bool) (localFile : option string)
    (vault : result string) : World := {|
  flagEnv := "development"; flagFile := ".env"; flagYes := yes; flagForce := force;
  IsInteractive := false;
  Confirm := λ _, true;
  Select := λ _ _, Err (OtherError "no terminal");
  uiDim := id; uiFile := id; uiLink := id;
  uiValue := λ v, match v with VStr s => s | VInt n => pretty n end;
  CheckEnvGitignore := true;
  AddEnvToGitignore := None;
  DetectRepo := Ok "acme/app";
  ReadDir := λ _, Ok (match localFile with Some _ => [(".env", false)] | None => [] end);
  ReadFile := λ _, match localFile with
                   | Some text => Ok text
                   | None => Err (OtherError "no such file")
                   end;
  WriteFile := λ _ _ _, None;
  Join := λ _ file, file;
  EnsureLogin := Ok "token";
  PullSecrets := λ _ _ _, vault;
  PushSecrets := λ _ _ _ _, Ok {| RespMessage := "Secrets pushed"; Stats := None |};
  rangeOver := λ _ m, map_to_list m
|}.

Module Sample.
Definition line (s : string) : string := s +:+ String newline "".

(** [pull --yes] onto a file that holds one local-only variable. *)
Definition mergeWorld : World :=
  batchWorld true false (Some (line "LOCAL_ONLY=x")) (Ok (line "FOO=1")).

(** [pull] without [--yes] and without a local file. *)
Definition freshPullWorld : World := batchWorld false false None (Ok (line "FOO=1")).

(** [pull] without [--yes] onto an existing file. *)
Definition plainPullWorld : World :=
  batchWorld false false (Some (line "FOO=0")) (Ok (line "FOO=1")).

(** [push] without [--yes]; the vault has no entry for the repository. *)
Definition firstPushWorld : World :=
  batchWorld false false (Some (line "FOO=1"))
    (Err (APIError 404 "vault not found" "")).

(** [pull] from a vault that refuses with an upgrade URL. *)
Definition refusedPullWorld : World :=
  batchWorld true false None
    (Err (APIError 403 "plan limit reached" "https://keyway.sh/upgrade")).

(** The example of the specification: [FOO] is the same on both sides,
    [BAZ] is local only, [BAR] is remote only; [QUX] differs. *)
Definition local : gmap string string := {[ "FOO" := "1"; "BAZ" := "3"; "QUX" := "4" ]}.
Definition remote : gmap string string := {[ "FOO" := "1"; "BAR" := "2"; "QUX" := "5" ]}.
Definition localOrder : list (string * string) := [("QUX", "4"); ("FOO", "1"); ("BAZ", "3")].
Definition remoteOrder : list (string * string) := [("BAR", "2"); ("QUX", "5"); ("FOO", "1")].

Definition blank : string := " " +:+ String "009" (String newline "").

Definition two : gmap string string := {[ "A" := "1"; "B" := "2" ]}.
Definition twoAB : list (string * string) := [("A", "1"); ("B", "2")].
Definition twoBA : list (string * string) := [("B", "2"); ("A", "1")].

(** A directory with an env file, a template, a directory and a second
    env file. *)
Definition dirWorld : World :=
  let b := batchWorld true false (Some (line "FOO=1")) (Ok (line "FOO=1")) in
  {| flagEnv := ""; flagFile := ""; flagYes := true; flagForce := false;
     IsInteractive := false;
     Confirm := Confirm b;
     Select := Select b;
     uiDim := uiDim b; uiFile := uiFile b; uiLink := uiLink b; uiValue := uiValue b;
     CheckEnvGitignore := CheckEnvGitignore b;
     AddEnvToGitignore := AddEnvToGitignore b;
     DetectRepo := DetectRepo b;
     ReadDir := λ _, Ok [(".env.example", false); (".env.production", false);
                         (".envs", true); (".env", false); ("README.md", false)];
     ReadFile := ReadFile b;
     WriteFile := WriteFile b;
     Join := Join b;
     EnsureLogin := EnsureLogin b;
     PullSecrets := PullSecrets b;
     PushSecrets := PushSecrets b;
     rangeOver := rangeOver b |}.

(** [push --yes] of a file with one secret. *)
Definition yesPushWorld : World :=
  batchWorld true false (Some (line "FOO=1")) (Ok (line "FOO=0")).

(** A session at a terminal, where [answers] gives the operator's answer
    to each question and [ignored] is what the gitignore check finds. *)
Definition terminalWorld (ignored : bool) (answers : string → bool) (fileFlag : string)
    (localFile : option string) (vault : result string) : World :=
  let b := batchWorld false false localFile vault in
  {| flagEnv := flagEnv b; flagFile := fileFlag; flagYes := false; flagForce := false;
     IsInteractive := true;
     Confirm := answers;
     Select := Select b;
     uiDim := uiDim b; uiFile := uiFile b; uiLink := uiLink b; uiValue := uiValue b;
     CheckEnvGitignore := ignored;
     AddEnvToGitignore := AddEnvToGitignore b;
     DetectRepo := DetectRepo b;
     ReadDir := ReadDir b;
     ReadFile := ReadFile b;
     WriteFile := WriteFile b;
     Join := Join b;
     EnsureLogin := EnsureLogin b;
     PullSecrets := PullSecrets b;
     PushSecrets := PushSecrets b;
     rangeOver := rangeOver b |}.

(** The operator agrees to the [.gitignore] question and to no other. *)
Definition onlyGitignore (question : string) : bool :=
  bool_decide (question = "Add .env* to .gitignore?").

(** [pull] without [--yes] and without a terminal onto a file that is
    there but cannot be read. *)
Definition unreadablePullWorld : World :=
  let b := batchWorld false false None (Ok (line "FOO=1")) in
  {| flagEnv := flagEnv b; flagFile := flagFile b; flagYes := false; flagForce := false;
     IsInteractive := false;
     Confirm := Confirm b;
     Select := Select b;
     uiDim := uiDim b; uiFile := uiFile b; uiLink := uiLink b; uiValue := uiValue b;
     CheckEnvGitignore := CheckEnvGitignore b;
     AddEnvToGitignore := AddEnvToGitignore b;
     DetectRepo := DetectRepo b;
     ReadDir := λ _, Ok [(".env", false)];
     ReadFile := λ _, Err (OtherError "permission denied");
     WriteFile := WriteFile b;
     Join := Join b;
     EnsureLogin := EnsureLogin b;
     PullSecrets := PullSecrets b;
     PushSecrets := PushSecrets b;
     rangeOver := rangeOver b |}.

End Sample.

(** * Properties *)

(** ** Strings *)

Section string_facts.
Import Strings.

Lemma app_nil_s (s : string) : "" +:+ s = s.
Proof. reflexivity. Qed.

Lemma app_cons_s (c : ascii) (p r : string) : String c p +:+ r = String c (p +:+ r).
Proof. reflexivity. Qed.

Lemma HasPrefix_app (p r : string) : HasPrefix (p +:+ r) p = true.
Proof.
  induction p as [|c p IH]; [done|].
  rewrite app_cons_s. simpl. by rewrite Ascii.eqb_refl.
Qed.

Lemma sliceFrom_app (p r : string) : sliceFrom (p +:+ r) (len p) = r.
Proof. induction p as [|c p IH]; [by destruct r|]. rewrite app_cons_s. apply IH. Qed.

Lemma HasPrefix_inv (s p : string) :
  HasPrefix s p = true → s = p +:+ sliceFrom s (len p).
Proof.
  revert s. induction p as [|c p IH]; intros s H.
  - by destruct s.
  - destruct s as [|d s]; [done|]. simpl in H.
    destruct (Ascii.eqb_spec c d) as [->|]; [|done].
    rewrite app_cons_s. f_equal. by apply IH.
Qed.

Lemma TrimPrefix_app (p r : string) : TrimPrefix (p +:+ r) p = r.
Proof. unfold TrimPrefix. by rewrite HasPrefix_app, sliceFrom_app. Qed.

Lemma app_empty_r (s : string) : s +:+ "" = s.
Proof. induction s; [done|]. rewrite app_cons_s. by f_equal. Qed.

Lemma app_assoc_s (a b c : string) : (a +:+ b) +:+ c = a +:+ b +:+ c.
Proof. induction a; [done|]. rewrite !app_cons_s. by f_equal. Qed.

Lemma len_app (a b : string) : len (a +:+ b) = len a + len b.
Proof. induction a; [done|]. rewrite app_cons_s. unfold len in *. simpl. by f_equal. Qed.

Lemma sliceTo_app (p r : string) : sliceTo (p +:+ r) (len p) = p.
Proof. induction p as [|c p IH]; [done|]. rewrite app_cons_s. simpl. by f_equal. Qed.

Lemma byteAt_last (p : string) (b : ascii) :
  byteAt (p +:+ String b "") (len p) = Some b.
Proof. induction p as [|c p IH]; [done|]. rewrite app_cons_s. apply IH. Qed.

End string_facts.

(** C10. The environment name is defined for every file name: a base name
    [.env] gives [development], a base name [.env.<rest>] gives [<rest>],
    and every other base name gives [development] too. *)
Theorem deriveEnvFromFile_total (file : string) :
  (Filepath.Base file = ".env" → deriveEnvFromFile file = "development")
  ∧ (∀ rest, Filepath.Base file = ".env." +:+ rest → deriveEnvFromFile file = rest)
  ∧ ((∀ rest, Filepath.Base file ≠ ".env." +:+ rest) →
     deriveEnvFromFile file = "development").
Proof.
  unfold deriveEnvFromFile. cbv zeta. split; [|split].
  - intros ->. by rewrite decide_True.
  - intros rest ->. rewrite decide_False by done.
    by rewrite HasPrefix_app, TrimPrefix_app.
  - intros Hno. case_decide; [done|].
    destruct (Strings.HasPrefix _ _) eqn:Hp; [|done].
    apply HasPrefix_inv in Hp. by destruct (Hno _ Hp).
Qed.

Lemma deriveEnvFromFile_total_witness :
  deriveEnvFromFile ".env" = "development"
  ∧ deriveEnvFromFile "config/.env.production" = "production"
  ∧ deriveEnvFromFile "secrets.txt" = "development".
Proof.
  split; [|split].
  - apply (proj1 (deriveEnvFromFile_total ".env")). reflexivity.
  - apply (proj1 (proj2 (deriveEnvFromFile_total "config/.env.production"))). reflexivity.
  - apply (proj2 (proj2 (deriveEnvFromFile_total "secrets.txt"))). intros rest H. vm_compute in H. discriminate H.
Defined.

(** ** Parsing *)

Lemma unquote_quoted (q : ascii) (inner : string) :
  q = dquote ∨ q = squote →
  unquote (String q (inner +:+ String q "")) = inner.
Proof.
  intros Hq. unfold unquote.
  assert (Strings.len (String q (inner +:+ String q "")) = S (S (Strings.len inner))) as ->.
  { change (Strings.len (String q ?s)) with (S (Strings.len s)).
    rewrite len_app. simpl. lia. }
  rewrite decide_True by lia.
  replace (S (S (Strings.len inner)) - 1) with (S (Strings.len inner)) by lia.
  change (Strings.byteAt (String q ?s) (S ?n)) with (Strings.byteAt s n).
  rewrite byteAt_last. change (Strings.byteAt (String q ?s) 0) with (Some q).
  assert (bool_decide (Some q = Some dquote) && bool_decide (Some q = Some dquote)
          || bool_decide (Some q = Some squote) && bool_decide (Some q = Some squote) = true) as ->.
  { destruct Hq as [-> | ->]; done. }
  unfold Strings.slice. simpl. replace (Strings.len inner - 0) with (Strings.len inner) by lia.
  apply sliceTo_app.
Qed.

Lemma unquote_mismatched (a b : ascii) (inner : string) :
  ¬ (a = b ∧ (a = dquote ∨ a = squote)) →
  unquote (String a (inner +:+ String b "")) = String a (inner +:+ String b "").
Proof.
  intros Hab. unfold unquote. case_decide; [|done].
  assert (Strings.len (String a (inner +:+ String b "")) - 1 = S (Strings.len inner)) as ->.
  { change (Strings.len (String a ?s)) with (S (Strings.len s)).
    rewrite len_app. simpl. lia. }
  change (Strings.byteAt (String a ?s) (S ?n)) with (Strings.byteAt s n).
  rewrite byteAt_last. change (Strings.byteAt (String a ?s) 0) with (Some a).
  repeat case_bool_decide; simplify_eq/=; try done; destruct Hab; auto.
Qed.

Lemma parseLine_value (line key value : string) :
  parseLine line = Some (key, value) →
  ∃ idx, Strings.Index (Strings.TrimSpace line) "="%char = Some idx
         ∧ key = Strings.TrimSpace (Strings.sliceTo (Strings.TrimSpace line) idx)
         ∧ value = unquote (Strings.sliceFrom (Strings.TrimSpace line) (idx + 1)).
Proof.
  unfold parseLine. cbv zeta. intros H.
  destruct (_ || _); [done|].
  destruct (Strings.Index _ _) as [idx|]; [|done].
  case_bool_decide; [|done]. simplify_eq. eauto.
Qed.

(** C8. The value a line contributes is its raw value (what follows the
    first [=] of the trimmed line) with one pair of surrounding quotes
    removed: a raw value between two double quotes or two single quotes
    loses exactly that pair, whatever is inside (further quotes and
    backslashes stay); a raw value whose two ends are not the same quote
    character is kept as it is, and so is one too short to hold a pair. *)
Theorem parse_strips_one_quote_layer :
  (∀ line key value, parseLine line = Some (key, value) →
     ∃ idx, Strings.Index (Strings.TrimSpace line) "="%char = Some idx
            ∧ value = unquote (Strings.sliceFrom (Strings.TrimSpace line) (idx + 1)))
  ∧ (∀ q inner, q = dquote ∨ q = squote → unquote (quoted q inner) = inner)
  ∧ (∀ a b inner, a ≠ b →
       unquote (String a (inner +:+ String b "")) = String a (inner +:+ String b ""))
  ∧ (∀ v, Strings.len v < 2 → unquote v = v)
  ∧ parseEnvContent ("KEY=" +:+ quoted dquote "hello world") = {[ "KEY" := "hello world" ]}
  ∧ parseEnvContent ("KEY=" +:+ quoted squote "x") = {[ "KEY" := "x" ]}
  ∧ parseEnvContent ("KEY=" +:+ quoted dquote (quoted dquote "x"))
    = {[ "KEY" := quoted dquote "x" ]}
  ∧ parseEnvContent ("KEY=" +:+ String dquote ("x" +:+ String squote ""))
    = {[ "KEY" := String dquote ("x" +:+ String squote "") ]}.
Proof.
  repeat apply conj.
  - intros line key value Hl.
    destruct (parseLine_value _ _ _ Hl) as (idx & ? & ? & ?). eauto.
  - intros q inner Hq. by apply unquote_quoted.
  - intros a b inner Hab. apply unquote_mismatched. by intros [? _].
  - intros v Hv. unfold unquote. by rewrite decide_False by lia.
  - by vm_compute.
  - by vm_compute.
  - by vm_compute.
  - by vm_compute.
Qed.

Lemma parse_strips_one_quote_layer_witness :
  (∃ idx, Strings.Index (Strings.TrimSpace " K = 'v' ") "="%char = Some idx
          ∧ " 'v'" = unquote (Strings.sliceFrom (Strings.TrimSpace " K = 'v' ") (idx + 1)))
  ∧ unquote (quoted squote "a b") = "a b"
  ∧ unquote (String dquote ("x" +:+ String squote "")) = String dquote ("x" +:+ String squote "").
Proof.
  destruct parse_strips_one_quote_layer as (Hline & Hq & Hmis & _).
  repeat apply conj.
  - apply (Hline " K = 'v' " "K" " 'v'"). vm_compute. reflexivity.
  - apply (Hq squote "a b"). right. reflexivity.
  - apply (Hmis dquote squote "x"). vm_compute. discriminate.
Defined.

(** Lines that do not define [k] leave its entry alone. *)
Lemma parseStep_other (k : string) (lines : list string) (m : gmap string string) :
  (∀ l v, l ∈ lines → parseLine l ≠ Some (k, v)) →
  foldl parseStep m lines !! k = m !! k.
Proof.
  revert m. induction lines as [|l lines IH]; intros m Hno; [done|]. simpl.
  rewrite IH by (intros ?? ?; apply Hno; by right).
  unfold parseStep. destruct (parseLine l) as [[key value]|] eqn:Hl; [|done].
  apply lookup_insert_ne. intros ->. eapply Hno; [left|done].
Qed.

(** C7. Of the lines that define a key, the last one gives its value:
    when a line defines [k] as [v] and no later line defines [k], the
    parsed map has [v] at [k].  So [A=1] followed by [A=2] gives
    [{A: 2}]. *)
Theorem parse_last_occurrence_wins :
  (∀ content pre line post k v,
     Strings.Split content newline = pre ++ line :: post →
     parseLine line = Some (k, v) →
     (∀ l v', l ∈ post → parseLine l ≠ Some (k, v')) →
     parseEnvContent content !! k = Some v)
  ∧ parseEnvContent ("A=1" +:+ String newline "A=2" +:+ String newline "")
    = {[ "A" := "2" ]}.
Proof.
  split; [|by vm_compute].
  intros content pre line post k v Hsplit Hline Hpost.
  unfold parseEnvContent. rewrite Hsplit, foldl_app. simpl.
  rewrite parseStep_other by done.
  unfold parseStep at 1. rewrite Hline. apply lookup_insert_eq.
Qed.

Lemma parse_last_occurrence_wins_witness :
  parseEnvContent ("A=1" +:+ String newline "B=x" +:+ String newline "A=2"
                   +:+ String newline "B=y") !! "A" = Some "2".
Proof.
  apply (proj1 parse_last_occurrence_wins _ ["A=1"; "B=x"] "A=2" ["B=y"] "A" "2").
  - vm_compute. reflexivity.
  - vm_compute. reflexivity.
  - intros l v' Hl. apply list_elem_of_singleton in Hl as ->. vm_compute. discriminate.
Defined.

(** ** Visits of a map *)

Lemma keysWhere_cons (P : string → string → bool) k v o :
  keysWhere P ((k, v) :: o) = if P k v then k :: keysWhere P o else keysWhere P o.
Proof.
  unfold keysWhere. rewrite filter_cons. simpl.
  destruct (P k v); by rewrite ?decide_True, ?decide_False by done.
Qed.

Lemma keysWhere_perm (P : string → string → bool) o o' :
  o ≡ₚ o' → keysWhere P o ≡ₚ keysWhere P o'.
Proof. intros H. unfold keysWhere. by rewrite H. Qed.

Lemma elem_of_keysWhere (P : string → string → bool) o k :
  k ∈ keysWhere P o ↔ ∃ v, (k, v) ∈ o ∧ P k v = true.
Proof.
  unfold keysWhere. rewrite list_elem_of_fmap. split.
  - intros ([k' v] & -> & [? ?]%list_elem_of_filter). eauto.
  - intros (v & ? & ?). exists (k, v). split; [done|]. by apply list_elem_of_filter.
Qed.

Lemma keysWhere_NoDup (P : string → string → bool) o :
  NoDup o.*1 → NoDup (keysWhere P o).
Proof.
  intros H. eapply sublist_NoDup; [done|]. unfold keysWhere.
  apply fmap_sublist, sublist_filter.
Qed.

Lemma keysWhere_sublist (P : string → string → bool) o :
  keysWhere P o `sublist_of` o.*1.
Proof. apply fmap_sublist, sublist_filter. Qed.

Section visits.
Context (m : gmap string string) (o : list (string * string)).
Hypothesis Ho : rangeOrder m o.

Lemma rangeOrder_elem k v : (k, v) ∈ o ↔ m !! k = Some v.
Proof. unfold rangeOrder in Ho. rewrite Ho. apply elem_of_map_to_list. Qed.

Lemma rangeOrder_NoDup : NoDup o.*1.
Proof. unfold rangeOrder in Ho. rewrite Ho. apply NoDup_fst_map_to_list. Qed.

Lemma rangeOrder_keys k : k ∈ o.*1 ↔ k ∈ dom m.
Proof.
  rewrite list_elem_of_fmap, elem_of_dom. split.
  - intros ([k' v] & -> & H%rangeOrder_elem). eauto.
  - intros [v H%rangeOrder_elem]. by exists (k, v).
Qed.
End visits.

(** ** The two diffs *)

(** What the loops of [calculatePushDiff] leave in each bucket. *)
Lemma calculatePushDiff_buckets (local vault : gmap string string) ol ov :
  Push.calculatePushDiff local vault ol ov =
  {| Push.added := keysWhere (λ k _, bool_decide (vault !! k = None)) ol;
     Push.changed :=
       keysWhere (λ k v, match vault !! k with
                         | Some vv => bool_decide (v ≠ vv)
                         | None => false
                         end) ol;
     Push.removed := keysWhere (λ k _, bool_decide (local !! k = None)) ov |}.
Proof.
  unfold Push.calculatePushDiff. cbv zeta.
  match goal with |- foldl ?g (foldl ?f _ _) _ = _ => set (step1 := f); set (step2 := g) end.
  assert (∀ o d, foldl step1 d o =
    {| Push.added := Push.added d ++ keysWhere (λ k _, bool_decide (vault !! k = None)) o;
       Push.changed := Push.changed d ++
         keysWhere (λ k v, match vault !! k with
                           | Some vv => bool_decide (v ≠ vv)
                           | None => false
                           end) o;
       Push.removed := Push.removed d |}) as H1.
  { induction o as [|[k v] o IH]; intros d.
    - destruct d. simpl. by rewrite !app_nil_r.
    - simpl. rewrite IH, !keysWhere_cons. unfold step1.
      destruct (vault !! k) as [vv|]; simpl.
      + case_bool_decide; simpl; [|done]. by rewrite <- app_assoc.
      + by rewrite <- app_assoc. }
  assert (∀ o d, foldl step2 d o =
    {| Push.added := Push.added d; Push.changed := Push.changed d;
       Push.removed := Push.removed d ++
         keysWhere (λ k _, bool_decide (local !! k = None)) o |}) as H2.
  { induction o as [|[k v] o IH]; intros d.
    - destruct d. simpl. by rewrite !app_nil_r.
    - simpl. rewrite IH, !keysWhere_cons. unfold step2.
      destruct (local !! k) as [lv|]; simpl; [done|]. by rewrite <- app_assoc. }
  rewrite H2, H1. done.
Qed.

(** What the loops of [calculateDiff] leave in each bucket. *)
Lemma calculateDiff_buckets (local vault : gmap string string) ov ol :
  Pull.calculateDiff local vault ov ol =
  {| Pull.added := keysWhere (λ k _, bool_decide (local !! k = None)) ov;
     Pull.changed :=
       keysWhere (λ k v, match local !! k with
                         | Some lv => bool_decide (lv ≠ v)
                         | None => false
                         end) ov;
     Pull.localOnly := keysWhere (λ k _, bool_decide (vault !! k = None)) ol;
     Pull.unchanged :=
       keysWhere (λ k v, match local !! k with
                         | Some lv => negb (bool_decide (lv ≠ v))
                         | None => false
                         end) ov |}.
Proof.
  unfold Pull.calculateDiff. cbv zeta.
  match goal with |- foldl ?g (foldl ?f _ _) _ = _ => set (step1 := f); set (step2 := g) end.
  assert (∀ o d, foldl step1 d o =
    {| Pull.added := Pull.added d ++ keysWhere (λ k _, bool_decide (local !! k = None)) o;
       Pull.changed := Pull.changed d ++
         keysWhere (λ k v, match local !! k with
                           | Some lv => bool_decide (lv ≠ v)
                           | None => false
                           end) o;
       Pull.localOnly := Pull.localOnly d;
       Pull.unchanged := Pull.unchanged d ++
         keysWhere (λ k v, match local !! k with
                           | Some lv => negb (bool_decide (lv ≠ v))
                           | None => false
                           end) o |}) as H1.
  { induction o as [|[k v] o IH]; intros d.
    - destruct d. simpl. by rewrite !app_nil_r.
    - simpl. rewrite IH, !keysWhere_cons. unfold step1.
      destruct (local !! k) as [lv|]; simpl.
      + case_bool_decide; simpl; by rewrite <- app_assoc.
      + by rewrite <- app_assoc. }
  assert (∀ o d, foldl step2 d o =
    {| Pull.added := Pull.added d; Pull.changed := Pull.changed d;
       Pull.localOnly := Pull.localOnly d ++
         keysWhere (λ k _, bool_decide (vault !! k = None)) o;
       Pull.unchanged := Pull.unchanged d |}) as H2.
  { induction o as [|[k v] o IH]; intros d.
    - destruct d. simpl. by rewrite !app_nil_r.
    - simpl. rewrite IH, !keysWhere_cons. unfold step2.
      destruct (vault !! k) as [lv|]; simpl; [done|]. by rewrite <- app_assoc. }
  rewrite H2, H1. done.
Qed.

Section push_diff.
Context (local vault : gmap string string) (ol ov : list (string * string)).
Hypothesis Hl : rangeOrder local ol.
Hypothesis Hv : rangeOrder vault ov.
Let d := Push.calculatePushDiff local vault ol ov.

Lemma push_added k : k ∈ Push.added d ↔ k ∈ dom local ∧ k ∉ dom vault.
Proof.
  subst d. rewrite calculatePushDiff_buckets. simpl.
  rewrite elem_of_keysWhere, elem_of_dom, not_elem_of_dom. split.
  - intros (v & Hin%(rangeOrder_elem local) & Hb%bool_decide_eq_true); eauto.
  - intros [[v Hk] Hn]. exists v. split; [by apply (rangeOrder_elem local)|].
    by apply bool_decide_eq_true.
Qed.

Lemma push_changed k :
  k ∈ Push.changed d ↔
  ∃ lv vv, local !! k = Some lv ∧ vault !! k = Some vv ∧ lv ≠ vv.
Proof.
  subst d. rewrite calculatePushDiff_buckets. simpl.
  rewrite elem_of_keysWhere. split.
  - intros (v & Hin%(rangeOrder_elem local) & Hb); [|done].
    destruct (vault !! k) as [vv|]; [|done]. apply bool_decide_eq_true in Hb. eauto.
  - intros (lv & vv & Hk & Hvk & Hne). exists lv.
    split; [by apply (rangeOrder_elem local)|]. rewrite Hvk. by apply bool_decide_eq_true.
Qed.

Lemma push_removed k : k ∈ Push.removed d ↔ k ∈ dom vault ∧ k ∉ dom local.
Proof.
  subst d. rewrite calculatePushDiff_buckets. simpl.
  rewrite elem_of_keysWhere, elem_of_dom, not_elem_of_dom. split.
  - intros (v & Hin%(rangeOrder_elem vault) & Hb%bool_decide_eq_true); eauto.
  - intros [[v Hk] Hn]. exists v. split; [by apply (rangeOrder_elem vault)|].
    by apply bool_decide_eq_true.
Qed.

Lemma push_NoDup : NoDup (Push.added d ++ Push.changed d ++ Push.removed d).
Proof.
  rewrite !NoDup_app. repeat apply conj.
  - subst d. rewrite calculatePushDiff_buckets. simpl.
    by apply keysWhere_NoDup, (rangeOrder_NoDup local).
  - intros k [_ Hn]%push_added [(lv & vv & _ & Hvk & _)%push_changed | [Hd _]%push_removed]%elem_of_app.
    + apply Hn, elem_of_dom. eauto.
    + done.
  - subst d. rewrite calculatePushDiff_buckets. simpl.
    by apply keysWhere_NoDup, (rangeOrder_NoDup local).
  - intros k (lv & vv & Hk & _)%push_changed [_ Hn]%push_removed.
    apply Hn, elem_of_dom. eauto.
  - subst d. rewrite calculatePushDiff_buckets. simpl.
    by apply keysWhere_NoDup, (rangeOrder_NoDup vault).
Qed.
End push_diff.

Section pull_diff.
Context (local vault : gmap string string) (ov ol : list (string * string)).
Hypothesis Hv : rangeOrder vault ov.
Hypothesis Hl : rangeOrder local ol.
Let d := Pull.calculateDiff local vault ov ol.

Lemma pull_added k : k ∈ Pull.added d ↔ k ∈ dom vault ∧ k ∉ dom local.
Proof.
  subst d. rewrite calculateDiff_buckets. simpl.
  rewrite elem_of_keysWhere, elem_of_dom, not_elem_of_dom. split.
  - intros (v & Hin%(rangeOrder_elem vault) & Hb%bool_decide_eq_true); eauto.
  - intros [[v Hk] Hn]. exists v. split; [by apply (rangeOrder_elem vault)|].
    by apply bool_decide_eq_true.
Qed.

Lemma pull_changed k :
  k ∈ Pull.changed d ↔
  ∃ lv vv, local !! k = Some lv ∧ vault !! k = Some vv ∧ lv ≠ vv.
Proof.
  subst d. rewrite calculateDiff_buckets. simpl.
  rewrite elem_of_keysWhere. split.
  - intros (v & Hin%(rangeOrder_elem vault) & Hb); [|done].
    destruct (local !! k) as [lv|]; [|done]. apply bool_decide_eq_true in Hb. eauto.
  - intros (lv & vv & Hk & Hvk & Hne). exists vv.
    split; [by apply (rangeOrder_elem vault)|]. rewrite Hk. by apply bool_decide_eq_true.
Qed.

Lemma pull_unchanged k :
  k ∈ Pull.unchanged d ↔ ∃ v, local !! k = Some v ∧ vault !! k = Some v.
Proof.
  subst d. rewrite calculateDiff_buckets. simpl.
  rewrite elem_of_keysWhere. split.
  - intros (v & Hin%(rangeOrder_elem vault) & Hb); [|done].
    destruct (local !! k) as [lv|]; [|done].
    apply negb_true_iff, bool_decide_eq_false in Hb.
    destruct (decide (lv = v)) as [->|]; [eauto|done].
  - intros (v & Hk & Hvk). exists v.
    split; [by apply (rangeOrder_elem vault)|]. rewrite Hk.
    apply negb_true_iff, bool_decide_eq_false. by intros ?.
Qed.

Lemma pull_localOnly k : k ∈ Pull.localOnly d ↔ k ∈ dom local ∧ k ∉ dom vault.
Proof.
  subst d. rewrite calculateDiff_buckets. simpl.
  rewrite elem_of_keysWhere, elem_of_dom, not_elem_of_dom. split.
  - intros (v & Hin%(rangeOrder_elem local) & Hb%bool_decide_eq_true); eauto.
  - intros [[v Hk] Hn]. exists v. split; [by apply (rangeOrder_elem local)|].
    by apply bool_decide_eq_true.
Qed.

Lemma pull_NoDup :
  NoDup (Pull.added d ++ Pull.changed d ++ Pull.unchanged d ++ Pull.localOnly d).
Proof.
  rewrite !NoDup_app. repeat apply conj.
  - subst d. rewrite calculateDiff_buckets. simpl.
    by apply keysWhere_NoDup, (rangeOrder_NoDup vault).
  - intros k [_ Hn]%pull_added Hin. apply Hn, elem_of_dom.
    apply elem_of_app in Hin as [(lv & vv & ? & _)%pull_changed | Hin]; [eauto|].
    apply elem_of_app in Hin as [(v & ? & _)%pull_unchanged | [Hin _]%pull_localOnly]; [eauto|].
    by apply elem_of_dom.
  - subst d. rewrite calculateDiff_buckets. simpl.
    by apply keysWhere_NoDup, (rangeOrder_NoDup vault).
  - intros k (lv & vv & Hk & Hvk & Hne)%pull_changed Hin.
    apply elem_of_app in Hin as [(v & ? & ?)%pull_unchanged | [_ Hn]%pull_localOnly].
    + congruence.
    + apply Hn, elem_of_dom. eauto.
  - subst d. rewrite calculateDiff_buckets. simpl.
    by apply keysWhere_NoDup, (rangeOrder_NoDup vault).
  - intros k (v & Hk & Hvk)%pull_unchanged [_ Hn]%pull_localOnly.
    apply Hn, elem_of_dom. eauto.
  - subst d. rewrite calculateDiff_buckets. simpl.
    by apply keysWhere_NoDup, (rangeOrder_NoDup local).
Qed.
End pull_diff.

(** ** The merge *)

Lemma localOnlyLines_filter (vault : gmap string string) ol :
  Pull.localOnlyLines vault ol
  = (λ kv, kv.1 +:+ "=" +:+ kv.2)
      <$> filter (λ kv, bool_decide (vault !! kv.1 = None) = true) ol.
Proof.
  unfold Pull.localOnlyLines.
  match goal with |- foldl ?f _ _ = _ => set (step := f) end.
  enough (∀ o lines, foldl step lines o
            = lines ++ ((λ kv, kv.1 +:+ "=" +:+ kv.2)
                          <$> filter (λ kv, bool_decide (vault !! kv.1 = None) = true) o))
    as H by apply (H ol []).
  induction o as [|[k v] o IH]; intros lines; simpl.
  - by rewrite app_nil_r.
  - rewrite IH, filter_cons. unfold step. simpl.
    case_decide as Hd.
    + apply bool_decide_eq_true in Hd. rewrite Hd. simpl. by rewrite <- app_assoc.
    + destruct (vault !! k) as [vv|]; [done|]. destruct Hd. by apply bool_decide_eq_true.
Qed.

Lemma append_lines (result : string) (lines : list string) :
  foldl (λ result line, result +:+ (line +:+ String newline "")) result lines
  = result +:+ foldr (λ line rest, line +:+ String newline "" +:+ rest) "" lines.
Proof.
  revert result. induction lines as [|line lines IH]; intros result; simpl.
  - by rewrite app_empty_r.
  - by rewrite IH, !app_assoc_s.
Qed.

Lemma keyValueLines_visit (local vault : gmap string string) ol :
  (∀ k v, (k, v) ∈ ol → local !! k = Some v) →
  foldr (λ line rest, line +:+ String newline "" +:+ rest) ""
        ((λ kv, kv.1 +:+ "=" +:+ kv.2)
           <$> filter (λ kv, bool_decide (vault !! kv.1 = None) = true) ol)
  = keyValueLines local (keysWhere (λ k _, bool_decide (vault !! k = None)) ol).
Proof.
  unfold keysWhere, keyValueLines.
  induction ol as [|[k v] ol IH]; intros Hol; [done|].
  rewrite filter_cons.
  assert (∀ k v, (k, v) ∈ ol → local !! k = Some v) as Hol'
    by (intros ???; apply Hol; by right).
  case_decide; [|by apply IH].
  rewrite !fmap_cons. cbn [foldr fst snd].
  rewrite IH by done. rewrite (Hol k v) by left. simpl. by rewrite !app_assoc_s.
Qed.

(** [mergeSecrets] writes what the specification describes, for the
    local-only keys in the order of its own visit of [local]. *)
Lemma mergeSecrets_spec (text : string) (local vault : gmap string string) ol :
  rangeOrder local ol →
  Pull.mergeSecrets text local vault ol
  = specFinalText false true text local
      (keysWhere (λ k _, bool_decide (vault !! k = None)) ol).
Proof.
  intros Hol. unfold Pull.mergeSecrets, specFinalText. cbv zeta. simpl.
  rewrite append_lines, localOnlyLines_filter.
  rewrite (keyValueLines_visit local) by (intros k v; by apply rangeOrder_elem).
  unfold keysWhere.
  destruct (filter _ ol) as [|kv kvs] eqn:Hf.
  - rewrite bool_decide_false by (simpl; lia). done.
  - rewrite bool_decide_true by (simpl; lia). unfold Pull.localHeader.
    rewrite !fmap_cons. by rewrite !app_assoc_s.
Qed.

(** ** Claims about the diffs *)

(** C2. In the push-direction diff, [added] holds exactly the keys of
    [local] that [remote] lacks, [changed] exactly the keys both have with
    different values, [removed] exactly the keys of [remote] that [local]
    lacks; no key is in two buckets, and a key both have with the same
    value is in none. *)
Theorem push_diff_partition (local remote : gmap string string)
    (ol ov : list (string * string)) :
  rangeOrder local ol → rangeOrder remote ov →
  let d := Push.calculatePushDiff local remote ol ov in
  (∀ k, k ∈ Push.added d ↔ k ∈ dom local ∧ k ∉ dom remote)
  ∧ (∀ k, k ∈ Push.changed d ↔
          ∃ lv rv, local !! k = Some lv ∧ remote !! k = Some rv ∧ lv ≠ rv)
  ∧ (∀ k, k ∈ Push.removed d ↔ k ∈ dom remote ∧ k ∉ dom local)
  ∧ (∀ k, (k ∈ Push.added d → (k ∉ Push.changed d) ∧ (k ∉ Push.removed d))
          ∧ (k ∈ Push.changed d → k ∉ Push.removed d))
  ∧ (∀ k v, local !! k = Some v → remote !! k = Some v →
            (k ∉ Push.added d) ∧ (k ∉ Push.changed d) ∧ (k ∉ Push.removed d)).
Proof.
  intros Hl Hv d. subst d. split; [|split; [|split; [|split]]].
  - intros k. by apply push_added.
  - intros k. by apply push_changed.
  - intros k. by apply push_removed.
  - intros k. rewrite push_added, push_changed, push_removed by done.
    rewrite !not_elem_of_dom, !elem_of_dom. split.
    + intros [_ Hn]. split; [intros (lv & rv & _ & Hr & _)|intros [[rv Hr] _]]; congruence.
    + intros (lv & rv & Hk & _) [_ Hn]. congruence.
  - intros k v Hk Hr. rewrite push_added, push_changed, push_removed by done.
    rewrite !not_elem_of_dom, !elem_of_dom. repeat apply conj.
    + intros [_ Hn]. congruence.
    + intros (lv & rv & ? & ? & ?). congruence.
    + intros [_ Hn]. congruence.
Qed.


Lemma push_diff_partition_witness :
  let d := Push.calculatePushDiff Sample.local Sample.remote
             Sample.localOrder Sample.remoteOrder in
  (rangeOrder Sample.local Sample.localOrder ∧ rangeOrder Sample.remote Sample.remoteOrder)
  ∧ (∀ k, k ∈ Push.added d ↔ k ∈ dom Sample.local ∧ k ∉ dom Sample.remote)
  ∧ Push.added d = ["BAZ"] ∧ Push.changed d = ["QUX"] ∧ Push.removed d = ["BAR"].
Proof.
  assert (rangeOrder Sample.local Sample.localOrder) as Hl
    by (unfold rangeOrder; apply (bool_decide_unpack _); vm_compute; exact I).
  assert (rangeOrder Sample.remote Sample.remoteOrder) as Hr
    by (unfold rangeOrder; apply (bool_decide_unpack _); vm_compute; exact I).
  intros d. split; [done|]. split; [|by vm_compute].
  exact (proj1 (push_diff_partition Sample.local Sample.remote
                  Sample.localOrder Sample.remoteOrder Hl Hr)).
Defined.

(** C3 fails as stated for the push direction: [FOO] has the same value on
    both sides, is in the union of the key sets, and is in no bucket. *)
Lemma push_diff_omits_equal_key :
  let d := Push.calculatePushDiff Sample.local Sample.remote
             Sample.localOrder Sample.remoteOrder in
  rangeOrder Sample.local Sample.localOrder
  ∧ rangeOrder Sample.remote Sample.remoteOrder
  ∧ "FOO" ∈ dom Sample.local ∪ dom Sample.remote
  ∧ "FOO" ∉ Push.added d ++ Push.changed d ++ Push.removed d.
Proof.
  intros d. repeat apply conj.
  - unfold rangeOrder. apply (bool_decide_unpack _). vm_compute. exact I.
  - unfold rangeOrder. apply (bool_decide_unpack _). vm_compute. exact I.
  - apply (bool_decide_unpack _). vm_compute. exact I.
  - apply (bool_decide_unpack _). vm_compute. exact I.
Qed.

(** C3, amended. The pull-direction diff puts every key of the union of
    the two key sets in exactly one of its four buckets.  The
    push-direction diff, which has no bucket for unchanged keys, puts in
    exactly one of its three buckets every key of the union whose entries
    differ (present on one side only, or with different values), and no
    other key.  In both diffs no key is listed twice. *)
Theorem diff_buckets_partition (local remote : gmap string string)
    (ol ov : list (string * string)) :
  rangeOrder local ol → rangeOrder remote ov →
  (let d := Pull.calculateDiff local remote ov ol in
   NoDup (Pull.added d ++ Pull.changed d ++ Pull.unchanged d ++ Pull.localOnly d)
   ∧ ∀ k, k ∈ dom local ∪ dom remote
          ↔ k ∈ Pull.added d ++ Pull.changed d ++ Pull.unchanged d ++ Pull.localOnly d)
  ∧ (let d := Push.calculatePushDiff local remote ol ov in
     NoDup (Push.added d ++ Push.changed d ++ Push.removed d)
     ∧ ∀ k, (k ∈ dom local ∪ dom remote ∧ local !! k ≠ remote !! k)
            ↔ k ∈ Push.added d ++ Push.changed d ++ Push.removed d).
Proof.
  intros Hl Hv. split; cbv zeta; (split; [by (apply pull_NoDup || apply push_NoDup)|]).
  - intros k. rewrite !elem_of_app, elem_of_union.
    rewrite pull_added, pull_changed, pull_unchanged, pull_localOnly by done.
    rewrite !not_elem_of_dom, !elem_of_dom. split.
    + destruct (local !! k) as [lv|] eqn:Hk, (remote !! k) as [rv|] eqn:Hr.
      * intros _. destruct (decide (lv = rv)) as [->|]; eauto 10.
      * intros _. do 3 right. eauto.
      * intros _. left. eauto.
      * intros [[? ?]|[? ?]]; done.
    + intros [[? _]|[(?&?&?&?&_)|[(?&?&?)|[? _]]]]; eauto.
  - intros k. rewrite !elem_of_app, elem_of_union.
    rewrite push_added, push_changed, push_removed by done.
    rewrite !not_elem_of_dom, !elem_of_dom. split.
    + destruct (local !! k) as [lv|] eqn:Hk, (remote !! k) as [rv|] eqn:Hr.
      * intros [_ Hne]. right; left. exists lv, rv. repeat split. congruence.
      * intros _. left. eauto.
      * intros _. do 2 right. eauto.
      * intros [_ ?]. done.
    + intros [[[lv Hk] Hr]|[(lv&rv&Hk&Hr&Hne)|[[rv Hr] Hk]]];
        (split; [eauto|congruence]).
Qed.

Lemma diff_buckets_partition_witness :
  (rangeOrder Sample.local Sample.localOrder ∧ rangeOrder Sample.remote Sample.remoteOrder)
  ∧ (let d := Pull.calculateDiff Sample.local Sample.remote
                 Sample.remoteOrder Sample.localOrder in
     NoDup (Pull.added d ++ Pull.changed d ++ Pull.unchanged d ++ Pull.localOnly d))
  ∧ Pull.calculateDiff Sample.local Sample.remote Sample.remoteOrder Sample.localOrder
    = {| Pull.added := ["BAR"]; Pull.changed := ["QUX"]; Pull.localOnly := ["BAZ"];
         Pull.unchanged := ["FOO"] |}.
Proof.
  assert (rangeOrder Sample.local Sample.localOrder) as Hl
    by (unfold rangeOrder; apply (bool_decide_unpack _); vm_compute; exact I).
  assert (rangeOrder Sample.remote Sample.remoteOrder) as Hr
    by (unfold rangeOrder; apply (bool_decide_unpack _); vm_compute; exact I).
  split; [done|]. split; [|by vm_compute].
  exact (proj1 (proj1 (diff_buckets_partition Sample.local Sample.remote
                         Sample.localOrder Sample.remoteOrder Hl Hr))).
Defined.

(** C4 fails as stated: the two visits [A, B] and [B, A] of the same map
    are both possible; the [added] bucket follows the visit, so it comes
    out as [A, B] or as [B, A] (not sorted), and the merged text differs
    in the same way. *)
Lemma diff_order_follows_the_visit :
  rangeOrder Sample.two Sample.twoAB
  ∧ rangeOrder Sample.two Sample.twoBA
  ∧ rangeOrder ∅ []
  ∧ Push.added (Push.calculatePushDiff Sample.two ∅ Sample.twoAB []) = ["A"; "B"]
  ∧ Push.added (Push.calculatePushDiff Sample.two ∅ Sample.twoBA []) = ["B"; "A"]
  ∧ Pull.localOnly (Pull.calculateDiff Sample.two ∅ [] Sample.twoBA) = ["B"; "A"]
  ∧ Pull.mergeSecrets "" Sample.two ∅ Sample.twoAB
    = Sample.line "" +:+ Sample.line "" +:+ Sample.line "# Local variables (not in vault)"
      +:+ Sample.line "A=1" +:+ Sample.line "B=2"
  ∧ Pull.mergeSecrets "" Sample.two ∅ Sample.twoBA
    = Sample.line "" +:+ Sample.line "" +:+ Sample.line "# Local variables (not in vault)"
      +:+ Sample.line "B=2" +:+ Sample.line "A=1"
  ∧ Pull.mergeSecrets "" Sample.two ∅ Sample.twoAB
    ≠ Pull.mergeSecrets "" Sample.two ∅ Sample.twoBA.
Proof.
  repeat apply conj.
  - unfold rangeOrder. apply (bool_decide_unpack _). vm_compute. exact I.
  - unfold rangeOrder. apply (bool_decide_unpack _). vm_compute. exact I.
  - unfold rangeOrder. by rewrite map_to_list_empty.
  - by vm_compute.
  - by vm_compute.
  - by vm_compute.
  - by vm_compute.
  - by vm_compute.
  - vm_compute. discriminate.
Qed.

(** C4, amended. Each bucket of either diff lists its keys in the order in
    which the loop over the map meets them, which is not sorted and may
    change from one run to the next: for the same two maps, two runs give
    buckets that are permutations of one another, each a subsequence of
    its own visit.  The text of the merge is the same up to the order of
    the local-only lines, which follows the visit of the local map. *)
Theorem diff_order_up_to_permutation (local remote : gmap string string)
    (ol ol' ov ov' : list (string * string)) :
  rangeOrder local ol → rangeOrder local ol' →
  rangeOrder remote ov → rangeOrder remote ov' →
  (let d := Push.calculatePushDiff local remote ol ov in
   let d' := Push.calculatePushDiff local remote ol' ov' in
   Push.added d ≡ₚ Push.added d' ∧ Push.changed d ≡ₚ Push.changed d'
   ∧ Push.removed d ≡ₚ Push.removed d'
   ∧ Push.added d `sublist_of` ol.*1 ∧ Push.changed d `sublist_of` ol.*1
   ∧ Push.removed d `sublist_of` ov.*1)
  ∧ (let d := Pull.calculateDiff local remote ov ol in
     let d' := Pull.calculateDiff local remote ov' ol' in
     Pull.added d ≡ₚ Pull.added d' ∧ Pull.changed d ≡ₚ Pull.changed d'
     ∧ Pull.unchanged d ≡ₚ Pull.unchanged d' ∧ Pull.localOnly d ≡ₚ Pull.localOnly d'
     ∧ Pull.added d `sublist_of` ov.*1 ∧ Pull.changed d `sublist_of` ov.*1
     ∧ Pull.unchanged d `sublist_of` ov.*1 ∧ Pull.localOnly d `sublist_of` ol.*1)
  ∧ (∀ text, ∃ keys keys',
       keys ≡ₚ keys' ∧ keys `sublist_of` ol.*1 ∧ keys' `sublist_of` ol'.*1
       ∧ Pull.mergeSecrets text local remote ol = specFinalText false true text local keys
       ∧ Pull.mergeSecrets text local remote ol' = specFinalText false true text local keys').
Proof.
  intros Hl Hl' Hv Hv'.
  assert (ol ≡ₚ ol') as Hpl by (unfold rangeOrder in *; by rewrite Hl, Hl').
  assert (ov ≡ₚ ov') as Hpv by (unfold rangeOrder in *; by rewrite Hv, Hv').
  split; [|split].
  - cbv zeta. rewrite !calculatePushDiff_buckets. simpl.
    repeat apply conj; auto using keysWhere_perm, keysWhere_sublist.
  - cbv zeta. rewrite !calculateDiff_buckets. simpl.
    repeat apply conj; auto using keysWhere_perm, keysWhere_sublist.
  - intros text.
    exists (keysWhere (λ k _, bool_decide (remote !! k = None)) ol),
           (keysWhere (λ k _, bool_decide (remote !! k = None)) ol').
    repeat apply conj; auto using keysWhere_perm, keysWhere_sublist, mergeSecrets_spec.
Qed.

Lemma diff_order_up_to_permutation_witness :
  (rangeOrder Sample.two Sample.twoAB ∧ rangeOrder Sample.two Sample.twoBA
   ∧ rangeOrder Sample.remote Sample.remoteOrder)
  ∧ Push.added (Push.calculatePushDiff Sample.two Sample.remote Sample.twoAB Sample.remoteOrder)
    ≡ₚ Push.added (Push.calculatePushDiff Sample.two Sample.remote Sample.twoBA
                     Sample.remoteOrder).
Proof.
  assert (rangeOrder Sample.two Sample.twoAB) as H1
    by (unfold rangeOrder; apply (bool_decide_unpack _); vm_compute; exact I).
  assert (rangeOrder Sample.two Sample.twoBA) as H2
    by (unfold rangeOrder; apply (bool_decide_unpack _); vm_compute; exact I).
  assert (rangeOrder Sample.remote Sample.remoteOrder) as H3
    by (unfold rangeOrder; apply (bool_decide_unpack _); vm_compute; exact I).
  split; [done|].
  exact (proj1 (proj1 (diff_order_up_to_permutation Sample.two Sample.remote
                         Sample.twoAB Sample.twoBA Sample.remoteOrder Sample.remoteOrder
                         H1 H2 H3 H3))).
Defined.

(** ** Command flows *)

Section flow_facts.
Context {A B : Type}.

Lemma bind_Next (t : list event) (a : A) (f : A → Flow B) :
  ((t, Next a) : Flow A) ≫= f = (t ++ (f a).1, (f a).2).
Proof. unfold mbind, Flow_bind. by destruct (f a). Qed.

Lemma bind_Return (t : list event) (err : option error) (f : A → Flow B) :
  ((t, Return err) : Flow A) ≫= f = (t, Return err).
Proof. done. Qed.

Lemma bind_events (P : event → Prop) (m : Flow A) (f : A → Flow B) :
  Forall P m.1 → (∀ a, Forall P (f a).1) → Forall P (m ≫= f).1.
Proof.
  destruct m as [t [a|err]]; intros Hm Hf.
  - rewrite bind_Next. apply Forall_app. split; [done|apply Hf].
  - by rewrite bind_Return.
Qed.
End flow_facts.

Lemma finish_Next (t : list event) : finish (t, Next tt) = (t, None).
Proof. done. Qed.

Lemma finish_trace (m : Flow unit) : (finish m).1 = m.1.
Proof. by destruct m as [t [[]|err]]. Qed.

(** The stage [m] only makes calls of the classes [cs]. *)
Definition onlyCalls {A} (cs : list eventClass) (m : Flow A) : Prop :=
  Forall (λ e, classOf e ∈ cs) m.1.

Lemma onlyCalls_bind {A B} cs (m : Flow A) (f : A → Flow B) :
  onlyCalls cs m → (∀ a, onlyCalls cs (f a)) → onlyCalls cs (m ≫= f).
Proof. apply bind_events. Qed.

Lemma onlyCalls_emit cs e : classOf e ∈ cs → onlyCalls cs (emit e).
Proof. intros H. by apply Forall_singleton. Qed.

Lemma onlyCalls_display cs kind (keys : list string) :
  Display ∈ cs → onlyCalls cs (emitAll (Ui kind <$> keys)).
Proof. intros H. apply Forall_fmap, Forall_true. by intros k. Qed.

Lemma onlyCalls_mret {A} cs (a : A) : onlyCalls cs (mret a).
Proof. apply Forall_nil_2. Qed.

Lemma onlyCalls_returns {A} cs err : onlyCalls cs (@returns A err).
Proof. apply Forall_nil_2. Qed.

Lemma onlyCalls_mono {A} cs cs' (m : Flow A) :
  cs ⊆ cs' → onlyCalls cs m → onlyCalls cs' m.
Proof. intros Hsub Hm. eapply Forall_impl; [exact Hm|]. intros e. apply Hsub. Qed.

Ltac class_in := apply (bool_decide_unpack _); vm_compute; exact I.

Ltac classes_in :=
  let c := fresh "c" in
  let Hc := fresh "Hc" in
  intros c Hc;
  repeat (apply elem_of_cons in Hc as [-> | Hc]; [class_in|]);
  by apply elem_of_nil in Hc.

Ltac only_calls :=
  repeat first
    [ apply onlyCalls_mret
    | apply onlyCalls_returns
    | apply onlyCalls_emit; class_in
    | apply onlyCalls_display; class_in
    | apply onlyCalls_bind; [|intros ?]
    | progress cbv beta zeta
    | match goal with
      | |- onlyCalls _ (match ?x with _ => _ end) => destruct x eqn:?
      end ].

Lemma checkGitignore_calls w : onlyCalls [Display; Prompt; Git] (checkGitignore w).
Proof. unfold checkGitignore, confirm. only_calls. Qed.

Lemma connect_calls w : onlyCalls [Display; Git; Login] (connect w).
Proof. unfold connect. only_calls. Qed.

Lemma selectFile_calls w :
  onlyCalls [Display; Prompt; DirRead; FileWrite] (Push.selectFile w).
Proof. unfold Push.selectFile, Push.discoverEnvFiles, confirm. only_calls. Qed.

Lemma chooseFile_calls w :
  onlyCalls [Display; Prompt; Git; DirRead; FileWrite] (Push.chooseFile w).
Proof.
  unfold Push.chooseFile. only_calls.
Qed.

Lemma loadLocal_calls w file env : onlyCalls [Display; FileRead] (Push.loadLocal w file env).
Proof. unfold Push.loadLocal. only_calls. Qed.

Lemma fetchVault_calls w token repo env :
  onlyCalls [Display; Fetch] (Push.fetchVault w token repo env).
Proof. unfold Push.fetchVault. only_calls. Qed.

Lemma push_showDiff_calls diff : onlyCalls [Display] (Push.showDiff diff).
Proof. unfold Push.showDiff. only_calls. Qed.

Lemma confirmPush_calls w p : onlyCalls [Display; Prompt] (Push.confirmPush w p).
Proof. unfold Push.confirmPush, confirm. only_calls. Qed.

Lemma upload_calls w p : onlyCalls [Display; Upload; Analytics] (Push.upload w p).
Proof. unfold Push.upload. only_calls. Qed.

Lemma download_calls w token repo env :
  onlyCalls [Display; Fetch; Analytics] (Pull.download w token repo env).
Proof. unfold Pull.download. only_calls. Qed.

Lemma beforeDownload_calls w :
  onlyCalls [Display; Prompt; Git; Login; Analytics] (Pull.beforeDownload w).
Proof. unfold Pull.beforeDownload. only_calls. Qed.

Lemma pull_showDiff_calls force localExists diff :
  onlyCalls [Display] (Pull.showDiff force localExists diff).
Proof. unfold Pull.showDiff. only_calls. Qed.

Lemma preparePull_calls w :
  onlyCalls [Display; Prompt; Git; Login; Analytics; Fetch; FileRead] (Pull.preparePull w).
Proof.
  unfold Pull.preparePull. only_calls.
  eapply onlyCalls_mono, pull_showDiff_calls. classes_in.
Qed.

Lemma confirmPull_calls w p : onlyCalls [Display; Prompt] (Pull.confirmPull w p).
Proof. unfold Pull.confirmPull, confirm. only_calls. Qed.

Lemma beforeFetch_calls w :
  onlyCalls [Display; Prompt; Git; DirRead; FileWrite; FileRead; Login] (Push.beforeFetch w).
Proof. unfold Push.beforeFetch. only_calls. Qed.

Lemma preparePush_calls w :
  onlyCalls [Display; Prompt; Git; DirRead; FileWrite; FileRead; Login; Fetch]
    (Push.preparePush w).
Proof.
  unfold Push.preparePush. only_calls.
  eapply onlyCalls_mono, push_showDiff_calls. classes_in.
Qed.

Lemma elem_of_bind {A B} (e : event) (m : Flow A) (f : A → Flow B) :
  e ∈ (m ≫= f).1 → e ∈ m.1 ∨ ∃ a, m.2 = Next a ∧ e ∈ (f a).1.
Proof.
  destruct m as [t [a|err]].
  - rewrite bind_Next. simpl. intros [?|?]%elem_of_app; eauto.
  - rewrite bind_Return. auto.
Qed.

Lemma elem_of_bind_l {A B} (e : event) (m : Flow A) (f : A → Flow B) :
  e ∈ m.1 → e ∈ (m ≫= f).1.
Proof.
  destruct m as [t [a|err]]; [|done]. rewrite bind_Next. simpl.
  intros H. apply elem_of_app. by left.
Qed.

Lemma elem_of_bind_r {A B} (e : event) (m : Flow A) (f : A → Flow B) t a :
  m = (t, Next a) → e ∈ (f a).1 → e ∈ (m ≫= f).1.
Proof. intros -> H. rewrite bind_Next. simpl. apply elem_of_app. by right. Qed.

Lemma onlyCalls_elem {A} cs (m : Flow A) (e : event) :
  onlyCalls cs m → e ∈ m.1 → classOf e ∈ cs.
Proof. unfold onlyCalls. rewrite Forall_forall. auto. Qed.

Ltac class_out H :=
  exfalso; revert H; apply (bool_decide_unpack _); vm_compute; exact I.

(** ** White space *)

Lemma spaceRune_inv (r : string) :
  r ∈ Strings.spaceRunes → ∃ c r', r = String c r'.
Proof.
  intros H.
  let l := eval vm_compute in Strings.spaceRunes in change Strings.spaceRunes with l in H.
  repeat (apply elem_of_cons in H as [-> | H]; [eauto|]).
  by apply elem_of_nil in H.
Qed.

Lemma stripLeadingSpace_rune (r s : string) :
  r ∈ Strings.spaceRunes → Strings.stripLeadingSpace (r +:+ s) = Some s.
Proof.
  intros H.
  let l := eval vm_compute in Strings.spaceRunes in change Strings.spaceRunes with l in H.
  repeat (apply elem_of_cons in H as [-> | H]; [by vm_compute|]).
  by apply elem_of_nil in H.
Qed.

Lemma trimLeftSpace_whitespaceOnly (s : string) :
  whitespaceOnly s → ∀ n, Strings.len s ≤ n → Strings.trimLeftSpace n s = "".
Proof.
  induction 1 as [|r s Hr Hs IH]; intros n Hn.
  - by destruct n.
  - destruct (spaceRune_inv r Hr) as (c & r' & ->).
    rewrite len_app in Hn. destruct n as [|n]; [simpl in Hn; lia|].
    simpl. rewrite stripLeadingSpace_rune by done.
    apply IH. change (Strings.len (String c r')) with (S (Strings.len r')) in Hn. lia.
Qed.

Lemma TrimSpace_whitespaceOnly (s : string) :
  whitespaceOnly s → Strings.TrimSpace s = "".
Proof.
  intros H. unfold Strings.TrimSpace. cbv zeta.
  by rewrite trimLeftSpace_whitespaceOnly.
Qed.

(** ** Claims about the push flow *)

Lemma loadLocal_blank w file env content :
  ReadFile w file = Ok content → whitespaceOnly content →
  Push.loadLocal w file env
  = ([OsReadFile file; Ui ErrorMsg ("File is empty: " +:+ file)],
     Return (Some (Errorf "file is empty"))).
Proof.
  intros Hr Hb. unfold Push.loadLocal. rewrite Hr, TrimSpace_whitespaceOnly by done. done.
Qed.

Lemma loadLocal_reads w file env f :
  OsReadFile f ∈ (Push.loadLocal w file env).1 → f = file.
Proof.
  unfold Push.loadLocal. intros [Hin | (_ & _ & Hin)]%elem_of_bind.
  - simpl in Hin. apply list_elem_of_singleton in Hin. congruence.
  - assert (onlyCalls [Display]
      match ReadFile w file with
      | Ok content =>
          if bool_decide (Strings.len (Strings.TrimSpace content) = 0) then
            emit (Ui ErrorMsg ("File is empty: " +:+ file)) ;;
            returns (Some (Errorf "file is empty"))
          else
            let secrets := parseEnvContent content in
            if bool_decide (size secrets = 0) then
              emit (Ui ErrorMsg "No valid environment variables found in file") ;;
              returns (Some (Errorf "no variables found"))
            else
              emit (Ui Step ("File: " +:+ uiFile w file)) ;;
              emit (Ui Step ("Environment: " +:+ uiValue w (VStr env))) ;;
              emit (Ui Step ("Variables: " +:+ uiValue w (VInt (size secrets)))) ;;
              mret secrets
      | Err err => emit (Ui ErrorMsg ("File not found: " +:+ file)) ;; returns (Some err)
      end) as Hc by only_calls.
    apply (onlyCalls_elem _ _ _ Hc) in Hin. class_out Hin.
Qed.

(** C9. A push whose local file holds white space only ends with the
    [file is empty] error, and up to then has made no call that goes over
    the network: no login, no fetch, no upload, no analytics. *)
Theorem push_rejects_blank_file (w : World) (f content : string) :
  OsReadFile f ∈ (Push.runPush w).1 →
  ReadFile w f = Ok content →
  whitespaceOnly content →
  (Push.runPush w).2 = Some (Errorf "file is empty")
  ∧ Forall (λ e, classOf e ∉ networkClasses) (Push.runPush w).1.
Proof.
  intros Hin Hfile Hblank.
  assert (∃ t0 env, Push.chooseFile w = (t0, Next (f, env))) as (t0 & env & Hchoose).
  { unfold Push.runPush in Hin. rewrite finish_trace in Hin.
    apply elem_of_bind in Hin as [Hin | (p & _ & Hin)].
    2:{ assert (onlyCalls [Display; Prompt; Upload; Analytics]
                  (Push.confirmPush w p ;; Push.upload w p)) as Hc
          by (unfold Push.confirmPush, confirm; only_calls).
        apply (onlyCalls_elem _ _ _ Hc) in Hin. class_out Hin. }
    unfold Push.preparePush in Hin.
    apply elem_of_bind in Hin as [Hin | ([[[[file env] secrets] repo] token] & _ & Hin)].
    2:{ assert (onlyCalls [Display; Fetch]
                  (vaultSecrets ← Push.fetchVault w token repo env;
                   Push.showDiff
                     (Push.calculatePushDiff secrets vaultSecrets
                        (rangeOver w PushDiffLocal secrets)
                        (rangeOver w PushDiffVault vaultSecrets)) ;;
                   mret {| Push.planFile := file; Push.planEnv := env;
                           Push.planSecrets := secrets; Push.planRepo := repo;
                           Push.planToken := token;
                           Push.planDiff :=
                             Push.calculatePushDiff secrets vaultSecrets
                               (rangeOver w PushDiffLocal secrets)
                               (rangeOver w PushDiffVault vaultSecrets) |})) as Hc.
        { only_calls. eapply onlyCalls_mono, push_showDiff_calls. classes_in. }
        apply (onlyCalls_elem _ _ _ Hc) in Hin. class_out Hin. }
    unfold Push.beforeFetch in Hin.
    apply elem_of_bind in Hin as [Hin | ([file env] & Hnext & Hin)].
    { apply (onlyCalls_elem _ _ _ (chooseFile_calls w)) in Hin. class_out Hin. }
    apply elem_of_bind in Hin as [Hin | (secrets & _ & Hin)].
    2:{ assert (onlyCalls [Display; Git; Login]
                  ('(repo, token) ← connect w; mret (file, env, secrets, repo, token))) as Hc
          by only_calls.
        apply (onlyCalls_elem _ _ _ Hc) in Hin. class_out Hin. }
    apply loadLocal_reads in Hin as ->.
    destruct (Push.chooseFile w) as [t0 o0]. simpl in Hnext. subst o0. eauto. }
  pose proof (chooseFile_calls w) as Hcalls.
  unfold Push.runPush, Push.preparePush, Push.beforeFetch.
  rewrite Hchoose in Hcalls |- *. rewrite bind_Next.
  rewrite (loadLocal_blank w f env content) by done. simpl. split; [done|].
  apply Forall_app. split.
  - eapply Forall_impl; [exact Hcalls|]. intros e He Hnet.
    apply elem_of_cons in He as [He | He]; [rewrite He in Hnet; class_out Hnet|].
    repeat (apply elem_of_cons in He as [He | He]; [rewrite He in Hnet; class_out Hnet|]).
    by apply elem_of_nil in He.
  - repeat constructor; intros Hnet; class_out Hnet.
Qed.

Lemma push_rejects_blank_file_witness :
  let w := batchWorld false false (Some Sample.blank) (Ok (Sample.line "FOO=1")) in
  (Push.runPush w).2 = Some (Errorf "file is empty")
  ∧ Forall (λ e, classOf e ∉ networkClasses) (Push.runPush w).1.
Proof.
  intros w. apply (push_rejects_blank_file w ".env" Sample.blank).
  - vm_compute. do 3 right. left.
  - reflexivity.
  - change Sample.blank with (" " +:+ Strings.bytes [9] +:+ Strings.bytes [10] +:+ "").
    repeat (apply ws_rune; [vm_compute; repeat constructor|]). apply ws_empty.
Defined.

(** ** What the plan of a pull holds *)

Lemma connect_Next w t repo token :
  connect w = (t, Next (repo, token)) → DetectRepo w = Ok repo ∧ EnsureLogin w = Ok token.
Proof.
  unfold connect. destruct (DetectRepo w) as [r|e]; simpl; [|done].
  destruct (EnsureLogin w) as [tk|e]; simpl; [|done]. intros. by simplify_eq.
Qed.

Lemma download_Next w token repo env t content :
  Pull.download w token repo env = (t, Next content) →
  PullSecrets w token repo env = Ok content.
Proof.
  unfold Pull.download. destruct (PullSecrets w token repo env) as [c|e]; simpl.
  - intros. by simplify_eq.
  - destruct e as [st text url|text]; simpl; [case_bool_decide|]; done.
Qed.

Lemma bind_Next_inv {A B} (m : Flow A) (f : A → Flow B) t b :
  m ≫= f = (t, Next b) →
  ∃ t1 a t2, m = (t1, Next a) ∧ f a = (t2, Next b) ∧ t = t1 ++ t2.
Proof.
  destruct m as [t1 [a|err]]; [|done]. rewrite bind_Next.
  destruct (f a) as [t2 o] eqn:Hf. simpl. intros [= <- ->]. eauto 10.
Qed.

Ltac flow_inv H :=
  let t1 := fresh "t" in
  let t2 := fresh "t" in
  let a := fresh "a" in
  let H1 := fresh "Hstage" in
  apply bind_Next_inv in H as (t1 & a & t2 & H1 & H & ->).

Lemma beforeDownload_Next w t repo token :
  Pull.beforeDownload w = (t, Next (repo, token)) →
  DetectRepo w = Ok repo ∧ EnsureLogin w = Ok token.
Proof.
  unfold Pull.beforeDownload. intros H. do 3 flow_inv H.
  flow_inv H. destruct a2 as [r tk]. flow_inv H. injection H as _ -> ->.
  by apply connect_Next in Hstage2.
Qed.

Lemma preparePull_plan w t p :
  Pull.preparePull w = (t, Next p) →
  ∃ repo token,
    DetectRepo w = Ok repo ∧ EnsureLogin w = Ok token
    ∧ PullSecrets w token repo (flagEnv w) = Ok (Pull.planVaultContent p)
    ∧ Pull.planFile p = flagFile w
    ∧ Pull.planVaultSecrets p = parseEnvContent (Pull.planVaultContent p)
    ∧ Pull.planEnvFilePath p = Join w "." (flagFile w)
    ∧ (Pull.planLocalExists p, Pull.planLocalSecrets p)
      = match ReadFile w (Join w "." (flagFile w)) with
        | Ok data => (true, parseEnvContent data)
        | Err _ => (false, ∅)
        end
    ∧ Pull.planDiff p
      = Pull.calculateDiff (Pull.planLocalSecrets p) (Pull.planVaultSecrets p)
          (rangeOver w PullDiffVault (Pull.planVaultSecrets p))
          (rangeOver w PullDiffLocal (Pull.planLocalSecrets p)).
Proof.
  unfold Pull.preparePull. intros H. flow_inv H. destruct a as [repo token].
  apply beforeDownload_Next in Hstage as [Hrepo Htoken].
  cbv zeta in H. flow_inv H. apply download_Next in Hstage. flow_inv H.
  destruct (match ReadFile w (Join w "." (flagFile w)) with
            | Ok data => (true, parseEnvContent data)
            | Err _ => (false, ∅)
            end) as [localExists localSecrets] eqn:Hlocal.
  flow_inv H. injection H as _ <-. simpl. eauto 10.
Qed.

(** ** Claims about the pull flow *)

Lemma writeResult_writes w p path content perm :
  OsWriteFile path content perm ∈ (Pull.writeResult w p).1 →
  path = Pull.planEnvFilePath p ∧ content = Pull.finalContent w p.
Proof.
  unfold Pull.writeResult. cbv zeta. intros [Hin | (_ & _ & Hin)]%elem_of_bind.
  - simpl in Hin. apply list_elem_of_singleton in Hin. by simplify_eq.
  - match type of Hin with _ ∈ (?m).1 => assert (onlyCalls [Display] m) as Hc by only_calls end.
    apply (onlyCalls_elem _ _ _ Hc) in Hin. class_out Hin.
Qed.

Lemma writeResult_first w p :
  OsWriteFile (Pull.planEnvFilePath p) (Pull.finalContent w p) 384 ∈ (Pull.writeResult w p).1.
Proof.
  unfold Pull.writeResult. cbv zeta.
  match goal with |- _ ∈ (emit ?e ;; ?m).1 => destruct m as [t o] eqn:Hm end.
  unfold emit. rewrite bind_Next. simpl. left.
Qed.






(** ** The append to [.gitignore] *)

(** [git.AddEnvToGitignore] is called by the check both commands start
    with, and nowhere else: when the check fails at a terminal and the
    operator agrees. *)

Ltac in_trace := repeat first [apply list_elem_of_here | apply list_elem_of_further].

Ltac not_in_trace H :=
  repeat (apply elem_of_cons in H as [H | H]; [discriminate H|]);
  by apply elem_of_nil in H.

Lemma checkGitignore_adds w :
  GitAddEnvToGitignore ∈ (checkGitignore w).1
  ↔ CheckEnvGitignore w = false ∧ IsInteractive w = true
    ∧ Confirm w "Add .env* to .gitignore?" = true.
Proof.
  unfold checkGitignore, confirm, emit.
  destruct (CheckEnvGitignore w), (IsInteractive w),
    (Confirm w "Add .env* to .gitignore?"), (AddEnvToGitignore w);
    simpl; (split; [intros H; try not_in_trace H; done | intros (? & ? & ?); try done; in_trace]).
Qed.

Lemma connect_no_add w : GitAddEnvToGitignore ∉ (connect w).1.
Proof.
  unfold connect, emit. intros H.
  destruct (DetectRepo w) as [repo|err]; [destruct (EnsureLogin w) as [token|err]|];
    simpl in H; not_in_trace H.
Qed.

Lemma preparePush_adds w :
  GitAddEnvToGitignore ∈ (Push.preparePush w).1
  ↔ GitAddEnvToGitignore ∈ (checkGitignore w).1.
Proof.
  split.
  - intros Hin. unfold Push.preparePush in Hin.
    apply elem_of_bind in Hin as [Hin | (x & _ & Hin)].
    2:{ destruct x as [[[[file env] secrets] repo] token].
        match type of Hin with _ ∈ (?m).1 =>
          assert (onlyCalls [Display; Fetch] m) as Hc
            by (only_calls; eapply onlyCalls_mono, push_showDiff_calls; classes_in) end.
        apply (onlyCalls_elem _ _ _ Hc) in Hin. class_out Hin. }
    unfold Push.beforeFetch in Hin.
    apply elem_of_bind in Hin as [Hin | ([file env] & _ & Hin)].
    2:{ apply elem_of_bind in Hin as [Hin | (secrets & _ & Hin)].
        { apply (onlyCalls_elem _ _ _ (loadLocal_calls w file env)) in Hin. class_out Hin. }
        apply elem_of_bind in Hin as [Hin | ([repo token] & _ & Hin)].
        - by apply connect_no_add in Hin.
        - simpl in Hin. by apply elem_of_nil in Hin. }
    unfold Push.chooseFile in Hin.
    apply elem_of_bind in Hin as [Hin | (? & _ & Hin)].
    { apply list_elem_of_singleton in Hin. discriminate Hin. }
    apply elem_of_bind in Hin as [Hin | (? & _ & Hin)]; [done|].
    apply (onlyCalls_elem _ _ _ (selectFile_calls w)) in Hin. class_out Hin.
  - intros Hin. unfold Push.preparePush, Push.beforeFetch, Push.chooseFile.
    do 2 apply elem_of_bind_l. eapply elem_of_bind_r; [reflexivity|].
    by apply elem_of_bind_l.
Qed.

Lemma runPush_adds w :
  GitAddEnvToGitignore ∈ (Push.runPush w).1
  ↔ CheckEnvGitignore w = false ∧ IsInteractive w = true
    ∧ Confirm w "Add .env* to .gitignore?" = true.
Proof.
  rewrite <- checkGitignore_adds, <- preparePush_adds.
  unfold Push.runPush. rewrite finish_trace. split.
  - intros [Hin | (p & _ & Hin)]%elem_of_bind; [done|].
    assert (onlyCalls [Display; Prompt; Upload; Analytics]
              (Push.confirmPush w p ;; Push.upload w p)) as Hc
      by (unfold Push.confirmPush, confirm; only_calls).
    apply (onlyCalls_elem _ _ _ Hc) in Hin. class_out Hin.
  - apply elem_of_bind_l.
Qed.

Lemma preparePull_adds w :
  GitAddEnvToGitignore ∈ (Pull.preparePull w).1
  ↔ GitAddEnvToGitignore ∈ (checkGitignore w).1.
Proof.
  split.
  - intros Hin. unfold Pull.preparePull in Hin.
    apply elem_of_bind in Hin as [Hin | ([repo token] & _ & Hin)].
    2:{ cbv zeta in Hin.
        match type of Hin with _ ∈ (?m).1 =>
          assert (onlyCalls [Display; Fetch; Analytics; FileRead] m) as Hc end.
        { apply onlyCalls_bind;
            [eapply onlyCalls_mono, download_calls; classes_in|].
          intros content. only_calls.
          eapply onlyCalls_mono, pull_showDiff_calls. classes_in. }
        apply (onlyCalls_elem _ _ _ Hc) in Hin. class_out Hin. }
    unfold Pull.beforeDownload in Hin.
    apply elem_of_bind in Hin as [Hin | (? & _ & Hin)].
    { apply list_elem_of_singleton in Hin. discriminate Hin. }
    apply elem_of_bind in Hin as [Hin | (? & _ & Hin)]; [done|].
    apply elem_of_bind in Hin as [Hin | (? & _ & Hin)].
    { apply list_elem_of_singleton in Hin. discriminate Hin. }
    apply elem_of_bind in Hin as [Hin | ([repo token] & _ & Hin)].
    { by apply connect_no_add in Hin. }
    simpl in Hin. not_in_trace Hin.
  - intros Hin. unfold Pull.preparePull, Pull.beforeDownload.
    apply elem_of_bind_l. eapply elem_of_bind_r; [reflexivity|].
    by apply elem_of_bind_l.
Qed.

Lemma runPull_adds w :
  GitAddEnvToGitignore ∈ (Pull.runPull w).1
  ↔ CheckEnvGitignore w = false ∧ IsInteractive w = true
    ∧ Confirm w "Add .env* to .gitignore?" = true.
Proof.
  rewrite <- checkGitignore_adds, <- preparePull_adds.
  unfold Pull.runPull. rewrite finish_trace. split.
  - intros [Hin | (p & _ & Hin)]%elem_of_bind; [done|].
    assert (onlyCalls [Display; Prompt; FileWrite]
              (Pull.confirmPull w p ;; Pull.writeResult w p)) as Hc.
    { apply onlyCalls_bind; [eapply onlyCalls_mono, confirmPull_calls; classes_in|].
      intros _. unfold Pull.writeResult. only_calls. }
    apply (onlyCalls_elem _ _ _ Hc) in Hin. class_out Hin.
  - apply elem_of_bind_l.
Qed.

Lemma selectFile_batch_calls w :
  IsInteractive w = false → onlyCalls [Display; DirRead] (Push.selectFile w).
Proof.
  intros Hint. unfold Push.selectFile, Push.discoverEnvFiles. cbv zeta.
  rewrite Hint, andb_false_r. cbn [negb andb]. only_calls.
Qed.

Lemma checkGitignore_batch_calls w :
  IsInteractive w = false → onlyCalls [Display; Git] (checkGitignore w).
Proof. intros Hint. unfold checkGitignore. rewrite Hint. only_calls. Qed.

Lemma preparePush_batch_calls w :
  IsInteractive w = false →
  onlyCalls [Display; Git; DirRead; FileRead; Login; Fetch] (Push.preparePush w).
Proof.
  intros Hint. unfold Push.preparePush, Push.beforeFetch, Push.chooseFile.
  repeat first
    [ eapply onlyCalls_mono, (selectFile_batch_calls w Hint); classes_in
    | eapply onlyCalls_mono, (checkGitignore_batch_calls w Hint); classes_in
    | eapply onlyCalls_mono, loadLocal_calls; classes_in
    | eapply onlyCalls_mono, connect_calls; classes_in
    | eapply onlyCalls_mono, fetchVault_calls; classes_in
    | eapply onlyCalls_mono, push_showDiff_calls; classes_in
    | apply onlyCalls_mret
    | apply onlyCalls_emit; class_in
    | apply onlyCalls_bind; [|intros ?]
    | progress cbv beta zeta
    | match goal with
      | |- onlyCalls _ (match ?x with _ => _ end) => destruct x eqn:?
      end ].
Qed.

Lemma preparePull_batch_calls w :
  IsInteractive w = false →
  onlyCalls [Display; Git; Login; Analytics; Fetch; FileRead] (Pull.preparePull w).
Proof.
  intros Hint. unfold Pull.preparePull, Pull.beforeDownload.
  repeat first
    [ eapply onlyCalls_mono, (checkGitignore_batch_calls w Hint); classes_in
    | eapply onlyCalls_mono, connect_calls; classes_in
    | eapply onlyCalls_mono, download_calls; classes_in
    | eapply onlyCalls_mono, pull_showDiff_calls; classes_in
    | apply onlyCalls_mret
    | apply onlyCalls_emit; class_in
    | apply onlyCalls_bind; [|intros ?]
    | progress cbv beta zeta
    | match goal with
      | |- onlyCalls _ (match ?x with _ => _ end) => destruct x eqn:?
      end ].
Qed.

Lemma writeResult_run w p :
  ∃ t',
    Pull.writeResult w p
    = (OsWriteFile (Pull.planEnvFilePath p) (Pull.finalContent w p) 384 :: t',
       match WriteFile w (Pull.planEnvFilePath p) (Pull.finalContent w p) 384 with
       | None => Next tt
       | Some err => Return (Some err)
       end)
    ∧ Forall (λ e, classOf e = Display) t'.
Proof.
  unfold Pull.writeResult, emit. cbv zeta. rewrite bind_Next.
  destruct (WriteFile w _ _ _) as [err|].
  - rewrite bind_Next. simpl. eexists. split; [reflexivity|].
    by apply Forall_singleton.
  - rewrite !bind_Next. destruct (_ && _); rewrite ?bind_Next; simpl;
      (eexists; split; [reflexivity|]); repeat constructor.
Qed.

(** ** Claims about the confirmation *)

(** C5 fails as stated for a pull whose local file does not exist: without
    a terminal and without [--yes] it gets to the confirmation step, asks
    nothing, writes the file and returns [nil]. *)
Lemma pull_without_local_file_skips_confirmation :
  IsInteractive Sample.freshPullWorld = false
  ∧ flagYes Sample.freshPullWorld = false
  ∧ (∃ t p, Pull.preparePull Sample.freshPullWorld = (t, Next p)
            ∧ Pull.planLocalExists p = false)
  ∧ (Pull.runPull Sample.freshPullWorld).2 = None
  ∧ OsWriteFile ".env" (Sample.line "FOO=1") 384 ∈ (Pull.runPull Sample.freshPullWorld).1.
Proof.
  split; [reflexivity|]. split; [reflexivity|]. split; [|split].
  - eexists _, _. split; vm_compute; reflexivity.
  - vm_compute. reflexivity.
  - vm_compute. in_trace.
Qed.

(** C5, amended. Without a terminal and without [--yes], a push that gets
    to the confirmation step returns the [confirmation required] error, and
    a pull that gets there with a local file that [os.ReadFile] read
    without error returns the [file exists] error; up to then the command
    has made no upload, no [os.WriteFile] and no [git.AddEnvToGitignore]
    call.  A pull whose local file could not be read, because it is not
    there or because [os.ReadFile] fails on it for another reason, is in
    no session asked to confirm: right after the preparation it writes
    the text of the vault, as downloaded, to the path with mode 0600, and
    returns what the write returned; without a terminal it has asked no
    question at all. *)
Theorem confirmation_required_without_terminal :
  (∀ w t p,
     IsInteractive w = false → flagYes w = false →
     Push.preparePush w = (t, Next p) →
     Push.runPush w
     = (t, Some (Errorf "confirmation required - use --yes in non-interactive mode"))
     ∧ Forall (λ e, classOf e ≠ Upload ∧ classOf e ≠ FileWrite
                    ∧ e ≠ GitAddEnvToGitignore) t)
  ∧ (∀ w t p data,
       IsInteractive w = false → flagYes w = false →
       Pull.preparePull w = (t, Next p) →
       ReadFile w (Join w "." (flagFile w)) = Ok data →
       Pull.runPull w
       = (t, Some (Errorf ("file " +:+ flagFile w +:+ " exists - use --yes to confirm")))
       ∧ Forall (λ e, classOf e ≠ FileWrite ∧ e ≠ GitAddEnvToGitignore) t)
  ∧ (∀ w t p err,
       Pull.preparePull w = (t, Next p) →
       ReadFile w (Join w "." (flagFile w)) = Err err →
       (∃ repo token, PullSecrets w token repo (flagEnv w) = Ok (Pull.planVaultContent p))
       ∧ ∃ t',
           Pull.runPull w
           = (t ++ OsWriteFile (Join w "." (flagFile w)) (Pull.planVaultContent p) 384 :: t',
              WriteFile w (Join w "." (flagFile w)) (Pull.planVaultContent p) 384)
           ∧ Forall (λ e, classOf e = Display) t'
           ∧ (IsInteractive w = false → Forall (λ e, classOf e ≠ Prompt) t)).
Proof.
  split; [|split].
  - intros w t p Hint Hyes Hprep. split.
    + unfold Push.runPush. rewrite Hprep, bind_Next.
      unfold Push.confirmPush. rewrite Hint, Hyes. simpl. by rewrite app_nil_r.
    + pose proof (preparePush_batch_calls w Hint) as Hc.
      apply Forall_forall. intros e He.
      assert (e ∈ (Push.preparePush w).1) as He' by (by rewrite Hprep).
      apply (onlyCalls_elem _ _ _ Hc) in He'.
      repeat split.
      * intros Hcl. rewrite Hcl in He'. class_out He'.
      * intros Hcl. rewrite Hcl in He'. class_out He'.
      * intros ->. assert (GitAddEnvToGitignore ∈ (Push.preparePush w).1) as Ha
          by (by rewrite Hprep).
        apply preparePush_adds, checkGitignore_adds in Ha as (_ & Hi & _). congruence.
  - intros w t p data Hint Hyes Hprep Hfile.
    destruct (preparePull_plan w t p Hprep)
      as (repo & token & _ & _ & _ & Hname & _ & _ & Hlocal & _).
    rewrite Hfile in Hlocal. injection Hlocal as Hexists _. split.
    + unfold Pull.runPull. rewrite Hprep, bind_Next.
      unfold Pull.confirmPull. rewrite Hexists, Hint, Hyes, Hname. simpl.
      by rewrite app_nil_r.
    + pose proof (preparePull_calls w) as Hc.
      apply Forall_forall. intros e He.
      assert (e ∈ (Pull.preparePull w).1) as He' by (by rewrite Hprep).
      apply (onlyCalls_elem _ _ _ Hc) in He'. split.
      * intros Hcl. rewrite Hcl in He'. class_out He'.
      * intros ->. assert (GitAddEnvToGitignore ∈ (Pull.preparePull w).1) as Ha
          by (by rewrite Hprep).
        apply preparePull_adds, checkGitignore_adds in Ha as (_ & Hi & _). congruence.
  - intros w t p err Hprep Hfile.
    destruct (preparePull_plan w t p Hprep)
      as (repo & token & _ & _ & Hpull & _ & _ & Hpath & Hlocal & _).
    rewrite Hfile in Hlocal. injection Hlocal as Hexists _.
    split; [eauto|].
    destruct (writeResult_run w p) as (t' & Hrun & Hdisplay).
    assert (Pull.finalContent w p = Pull.planVaultContent p) as Hfinal.
    { unfold Pull.finalContent. by rewrite Hexists, orb_true_r. }
    rewrite Hfinal, Hpath in Hrun.
    exists t'. split; [|split; [done|]].
    + unfold Pull.runPull. rewrite Hprep, bind_Next.
      unfold Pull.confirmPull. rewrite Hexists.
      unfold mret, Flow_ret. rewrite bind_Next, Hrun.
      by destruct (WriteFile w _ _ _).
    + intros Hint. pose proof (preparePull_batch_calls w Hint) as Hc.
      rewrite Hprep in Hc. eapply Forall_impl; [exact Hc|].
      intros e He Hcl. cbv beta in He. rewrite Hcl in He. class_out He.
Qed.

Lemma confirmation_required_without_terminal_witness :
  (Push.runPush Sample.firstPushWorld).2
  = Some (Errorf "confirmation required - use --yes in non-interactive mode")
  ∧ (Pull.runPull Sample.plainPullWorld).2
    = Some (Errorf "file .env exists - use --yes to confirm")
  ∧ (Pull.runPull Sample.unreadablePullWorld).2 = None
  ∧ OsWriteFile ".env" (Sample.line "FOO=1") 384
    ∈ (Pull.runPull Sample.unreadablePullWorld).1.
Proof.
  destruct confirmation_required_without_terminal as (Hpush & Hpull & Hfresh).
  eassert (Push.preparePush Sample.firstPushWorld = (_, Next _)) as Hp1
    by (vm_compute; reflexivity).
  eassert (Pull.preparePull Sample.plainPullWorld = (_, Next _)) as Hp2
    by (vm_compute; reflexivity).
  eassert (Pull.preparePull Sample.unreadablePullWorld = (_, Next _)) as Hp3
    by (vm_compute; reflexivity).
  split; [|split].
  - destruct (Hpush Sample.firstPushWorld _ _ eq_refl eq_refl Hp1) as [Hrun _].
    rewrite Hrun. reflexivity.
  - destruct (Hpull Sample.plainPullWorld _ _ (Sample.line "FOO=0") eq_refl eq_refl Hp2 eq_refl)
      as [Hrun _].
    rewrite Hrun. reflexivity.
  - destruct (Hfresh Sample.unreadablePullWorld _ _ (OtherError "permission denied") Hp3 eq_refl)
      as (_ & t' & Hrun & _).
    rewrite Hrun. split; [reflexivity|].
    cbn [fst]. apply elem_of_app. right. left.
Defined.

(** ** Claims about the fetch *)

Lemma push_showDiff_Next (diff : Push.pushDiff) :
  (Push.showDiff diff).2 = Next tt
  ∧ Forall (λ e, ∀ text, e ≠ Ui ErrorMsg text) (Push.showDiff diff).1.
Proof.
  unfold Push.showDiff, emit, emitAll. destruct (Push.hasChanges diff).
  - rewrite !bind_Next. simpl. split; [done|].
    repeat first [ apply Forall_cons_2; [done|]
                 | apply Forall_app_2; [apply Forall_fmap, Forall_true; by intros ?|]
                 | apply Forall_nil_2 ].
  - split; [done|]. by apply Forall_singleton.
Qed.

Lemma download_Err w token repo env err :
  PullSecrets w token repo env = Err err →
  (Pull.download w token repo env).2 = Return (Some err)
  ∧ Ui ErrorMsg (Error err) ∈ (Pull.download w token repo env).1
  ∧ (∀ st text url, err = APIError st text url → url ≠ "" →
       Ui Message ("Upgrade: " +:+ uiLink w url) ∈ (Pull.download w token repo env).1).
Proof.
  intros Hpull. unfold Pull.download. rewrite Hpull.
  destruct err as [st text url|text]; [case_bool_decide|]; simpl.
  - repeat apply conj; [done|in_trace|]. intros ??? [= _ _ <-] _. in_trace.
  - repeat apply conj; [done|in_trace|]. intros ??? [= _ _ <-] ?. done.
  - repeat apply conj; [done|in_trace|]. intros ??? [=].
Qed.

(** C6. In a push, a 404 answer to the fetch of the vault state counts as
    an empty vault: nothing is reported, the diff is computed against the
    empty set and the command goes on to the confirmation; any other
    error of that fetch is reported and ends the push.  In a pull, every
    error of the download, 404 included, is reported, with the upgrade URL
    as the vault gave it when there is one, and ends the command with
    that error before the local file is read or written. *)
Theorem not_found_is_empty_only_for_push_preview :
  (∀ w t file env secrets repo token text url,
     Push.beforeFetch w = (t, Next (file, env, secrets, repo, token)) →
     PullSecrets w token repo env = Err (APIError 404 text url) →
     ∃ p shown,
       Push.preparePush w
       = (t ++ [Ui Spin "Fetching current vault state..."; ApiPullSecrets token repo env]
            ++ shown, Next p)
       ∧ Push.planSecrets p = secrets
       ∧ Push.planDiff p
         = Push.calculatePushDiff secrets ∅
             (rangeOver w PushDiffLocal secrets) (rangeOver w PushDiffVault ∅)
       ∧ Forall (λ e, ∀ msg, e ≠ Ui ErrorMsg msg) shown)
  ∧ (∀ w t file env secrets repo token err,
       Push.beforeFetch w = (t, Next (file, env, secrets, repo, token)) →
       PullSecrets w token repo env = Err err →
       Push.isNotFound err = false →
       Push.runPush w
       = (t ++ [Ui Spin "Fetching current vault state..."; ApiPullSecrets token repo env;
                Ui ErrorMsg (Error err)], Some err))
  ∧ (∀ w t repo token err,
       Pull.beforeDownload w = (t, Next (repo, token)) →
       PullSecrets w token repo (flagEnv w) = Err err →
       ∃ report,
         Pull.runPull w = (t ++ report, Some err)
         ∧ Ui ErrorMsg (Error err) ∈ report
         ∧ (∀ st text url, err = APIError st text url → url ≠ "" →
              Ui Message ("Upgrade: " +:+ uiLink w url) ∈ report)
         ∧ Forall (λ e, classOf e ≠ FileRead ∧ classOf e ≠ FileWrite) (t ++ report)).
Proof.
  split; [|split].
  - intros w t file env secrets repo token text url Hbefore Hpull.
    unfold Push.preparePush. rewrite Hbefore, bind_Next.
    unfold Push.fetchVault. rewrite Hpull. simpl.
    match goal with |- context [Push.showDiff ?d] =>
      destruct (push_showDiff_Next d) as [Hnext Hquiet];
      destruct (Push.showDiff d) as [shown o] eqn:Hshow end.
    simpl in Hnext, Hquiet. subst o. simpl. rewrite app_nil_r.
    eexists _, shown. split; [reflexivity|]. done.
  - intros w t file env secrets repo token err Hbefore Hpull Hnf.
    unfold Push.runPush, Push.preparePush. rewrite Hbefore, bind_Next.
    unfold Push.fetchVault. rewrite Hpull, Hnf. done.
  - intros w t repo token err Hbefore Hpull.
    destruct (download_Err w token repo (flagEnv w) err Hpull) as (Hret & Herr & Hup).
    pose proof (download_calls w token repo (flagEnv w)) as Hdc.
    pose proof (beforeDownload_calls w) as Hbc. rewrite Hbefore in Hbc.
    destruct (Pull.download w token repo (flagEnv w)) as [report o] eqn:Hd.
    simpl in Hret. subst o. exists report.
    split; [|split; [done|split; [done|]]].
    + unfold Pull.runPull, Pull.preparePull. rewrite Hbefore, bind_Next. cbv zeta.
      rewrite Hd. done.
    + apply Forall_app. split.
      * eapply Forall_impl; [exact Hbc|]. intros e He. cbv beta in He.
        split; intros Hcl; rewrite Hcl in He; class_out He.
      * eapply Forall_impl; [exact Hdc|]. intros e He. cbv beta in He.
        split; intros Hcl; rewrite Hcl in He; class_out He.
Qed.

Lemma not_found_is_empty_only_for_push_preview_witness :
  (∃ t p, Push.preparePush Sample.firstPushWorld = (t, Next p)
          ∧ Push.added (Push.planDiff p) = ["FOO"])
  ∧ (Pull.runPull Sample.refusedPullWorld).2
    = Some (APIError 403 "plan limit reached" "https://keyway.sh/upgrade")
  ∧ Ui Message "Upgrade: https://keyway.sh/upgrade" ∈ (Pull.runPull Sample.refusedPullWorld).1.
Proof.
  destruct not_found_is_empty_only_for_push_preview as (Hpush & _ & Hpull).
  split.
  - eassert (Push.beforeFetch Sample.firstPushWorld = (_, Next (_, _, _, _, _))) as Hb
      by (vm_compute; reflexivity).
    destruct (Hpush Sample.firstPushWorld _ _ _ _ _ _ "vault not found" "" Hb eq_refl)
      as (p & shown & Hprep & Hsecrets & Hdiff & _).
    eexists _, p. split; [exact Hprep|]. rewrite Hdiff. vm_compute. reflexivity.
  - eassert (Pull.beforeDownload Sample.refusedPullWorld = (_, Next (_, _))) as Hb
      by (vm_compute; reflexivity).
    destruct (Hpull Sample.refusedPullWorld _ _ _ _ Hb eq_refl)
      as (report & Hrun & _ & Hup & _).
    rewrite Hrun. split; [reflexivity|]. simpl.
    repeat apply list_elem_of_further.
    apply (Hup 403%Z "plan limit reached" "https://keyway.sh/upgrade" eq_refl). discriminate.
Defined.


(** * Further properties of the diffs *)

Lemma no_elements {A} (l : list A) : (∀ x, x ∉ l) → l = [].
Proof. destruct l as [|x l]; [done|]. intros H. destruct (H x). left. Qed.

Lemma keysWhere_all (P : string → string → bool) o :
  (∀ k v, (k, v) ∈ o → P k v = true) → keysWhere P o = o.*1.
Proof.
  induction o as [|[k v] o IH]; intros H; [done|].
  rewrite keysWhere_cons, (H k v) by left. rewrite fmap_cons. simpl. f_equal.
  apply IH. intros ???. apply H. by right.
Qed.

Lemma keysWhere_none (P : string → string → bool) o :
  (∀ k v, (k, v) ∈ o → P k v = false) → keysWhere P o = [].
Proof.
  induction o as [|[k v] o IH]; intros H; [done|].
  rewrite keysWhere_cons, (H k v) by left.
  apply IH. intros ???. apply H. by right.
Qed.

Lemma length_pos_false {A} (l : list A) : bool_decide (0 < length l) = false ↔ l = [].
Proof.
  rewrite bool_decide_eq_false. destruct l; simpl; split; try done; lia.
Qed.

(** X1. A push previews no changes exactly when the local and the vault
    secrets are the same map. *)
Theorem push_no_changes_iff_equal (local vault : gmap string string)
    (ol ov : list (string * string)) :
  rangeOrder local ol → rangeOrder vault ov →
  Push.hasChanges (Push.calculatePushDiff local vault ol ov) = false ↔ local = vault.
Proof.
  intros Hl Hv. unfold Push.hasChanges.
  rewrite !orb_false_iff, !length_pos_false. split.
  - intros [[Ha Hc] Hr]. apply map_eq. intros k.
    destruct (local !! k) as [lv|] eqn:Hk, (vault !! k) as [vv|] eqn:Hvk; [| | |done].
    + destruct (decide (lv = vv)) as [->|Hne]; [done|].
      assert (k ∈ Push.changed (Push.calculatePushDiff local vault ol ov)) as Hin
        by (apply push_changed; eauto 10).
      rewrite Hc in Hin. by apply elem_of_nil in Hin.
    + assert (k ∈ Push.added (Push.calculatePushDiff local vault ol ov)) as Hin.
      { apply push_added; [done|]. rewrite elem_of_dom, not_elem_of_dom. eauto. }
      rewrite Ha in Hin. by apply elem_of_nil in Hin.
    + assert (k ∈ Push.removed (Push.calculatePushDiff local vault ol ov)) as Hin.
      { apply push_removed; [done|]. rewrite elem_of_dom, not_elem_of_dom. eauto. }
      rewrite Hr in Hin. by apply elem_of_nil in Hin.
  - intros <-. repeat apply conj; apply no_elements; intros k.
    + rewrite push_added by done. intros [? ?]. done.
    + rewrite push_changed by done. intros (lv & vv & ? & ? & ?). congruence.
    + rewrite push_removed by done. intros [? ?]. done.
Qed.

Lemma push_no_changes_iff_equal_witness :
  Push.hasChanges (Push.calculatePushDiff Sample.two Sample.two Sample.twoAB Sample.twoBA)
  = false.
Proof.
  assert (rangeOrder Sample.two Sample.twoAB) as H1
    by (unfold rangeOrder; apply (bool_decide_unpack _); vm_compute; exact I).
  assert (rangeOrder Sample.two Sample.twoBA) as H2
    by (unfold rangeOrder; apply (bool_decide_unpack _); vm_compute; exact I).
  exact (proj2 (push_no_changes_iff_equal Sample.two Sample.two Sample.twoAB Sample.twoBA
                  H1 H2) eq_refl).
Defined.

(** X2. A pull reports no changes exactly when the local and the vault
    secrets are the same map, and then every key is in [unchanged]. *)
Theorem pull_no_changes_iff_equal (local vault : gmap string string)
    (ov ol : list (string * string)) :
  rangeOrder vault ov → rangeOrder local ol →
  (Pull.hasChanges (Pull.calculateDiff local vault ov ol) = false ↔ local = vault)
  ∧ (local = vault → Pull.unchanged (Pull.calculateDiff local vault ov ol) = ov.*1).
Proof.
  intros Hv Hl. split.
  - unfold Pull.hasChanges. rewrite !orb_false_iff, !length_pos_false. split.
    + intros [[Ha Hc] Hr]. apply map_eq. intros k.
      destruct (local !! k) as [lv|] eqn:Hk, (vault !! k) as [vv|] eqn:Hvk; [| | |done].
      * destruct (decide (lv = vv)) as [->|Hne]; [done|].
        assert (k ∈ Pull.changed (Pull.calculateDiff local vault ov ol)) as Hin
          by (apply pull_changed; eauto 10).
        rewrite Hc in Hin. by apply elem_of_nil in Hin.
      * assert (k ∈ Pull.localOnly (Pull.calculateDiff local vault ov ol)) as Hin.
        { apply pull_localOnly; [done|]. rewrite elem_of_dom, not_elem_of_dom. eauto. }
        rewrite Hr in Hin. by apply elem_of_nil in Hin.
      * assert (k ∈ Pull.added (Pull.calculateDiff local vault ov ol)) as Hin.
        { apply pull_added; [done|]. rewrite elem_of_dom, not_elem_of_dom. eauto. }
        rewrite Ha in Hin. by apply elem_of_nil in Hin.
    + intros <-. repeat apply conj; apply no_elements; intros k.
      * rewrite pull_added by done. intros [? ?]. done.
      * rewrite pull_changed by done. intros (lv & vv & ? & ? & ?). congruence.
      * rewrite pull_localOnly by done. intros [? ?]. done.
  - intros <-. rewrite calculateDiff_buckets. simpl.
    apply keysWhere_all. intros k v Hin.
    apply (rangeOrder_elem local) in Hin; [|done]. rewrite Hin.
    apply negb_true_iff, bool_decide_eq_false. by intros ?.
Qed.

Lemma pull_no_changes_iff_equal_witness :
  Pull.hasChanges (Pull.calculateDiff Sample.two Sample.two Sample.twoAB Sample.twoBA) = false
  ∧ Pull.unchanged (Pull.calculateDiff Sample.two Sample.two Sample.twoAB Sample.twoBA)
    = ["A"; "B"].
Proof.
  assert (rangeOrder Sample.two Sample.twoAB) as H1
    by (unfold rangeOrder; apply (bool_decide_unpack _); vm_compute; exact I).
  assert (rangeOrder Sample.two Sample.twoBA) as H2
    by (unfold rangeOrder; apply (bool_decide_unpack _); vm_compute; exact I).
  destruct (pull_no_changes_iff_equal Sample.two Sample.two Sample.twoAB Sample.twoBA H1 H2)
    as [Hiff Hun].
  split; [exact (proj2 Hiff eq_refl)|exact (Hun eq_refl)].
Defined.

(** X3. Against an empty side the diff is one bucket: a push to a vault
    without secrets adds every local key, in the order of the visit, and a
    pull onto no local secrets adds every vault key. *)
Theorem diff_against_empty_side :
  (∀ (local : gmap string string) ol ov,
     rangeOrder ∅ ov →
     Push.calculatePushDiff local ∅ ol ov
     = {| Push.added := ol.*1; Push.changed := []; Push.removed := [] |})
  ∧ (∀ (vault : gmap string string) ov ol,
       rangeOrder ∅ ol →
       Pull.calculateDiff ∅ vault ov ol
       = {| Pull.added := ov.*1; Pull.changed := []; Pull.localOnly := [];
            Pull.unchanged := [] |}).
Proof.
  split.
  - intros local ol ov Hov. unfold rangeOrder in Hov.
    rewrite map_to_list_empty in Hov. apply Permutation_nil_r in Hov as ->.
    rewrite calculatePushDiff_buckets. f_equal.
    + apply keysWhere_all. intros k v _. by rewrite lookup_empty.
    + apply keysWhere_none. intros k v _. by rewrite lookup_empty.
  - intros vault ov ol Hol. unfold rangeOrder in Hol.
    rewrite map_to_list_empty in Hol. apply Permutation_nil_r in Hol as ->.
    rewrite calculateDiff_buckets. f_equal.
    + apply keysWhere_all. intros k v _. by rewrite lookup_empty.
    + apply keysWhere_none. intros k v _. by rewrite lookup_empty.
    + apply keysWhere_none. intros k v _. by rewrite lookup_empty.
Qed.

Lemma diff_against_empty_side_witness :
  Push.added (Push.calculatePushDiff Sample.two ∅ Sample.twoBA []) = ["B"; "A"].
Proof.
  assert (rangeOrder ∅ []) as H by (unfold rangeOrder; by rewrite map_to_list_empty).
  rewrite (proj1 diff_against_empty_side Sample.two Sample.twoBA [] H). reflexivity.
Defined.

(** * Further properties of the parser *)

Lemma parseLine_key (line key value : string) :
  parseLine line = Some (key, value) →
  key ≠ ""
  ∧ Strings.TrimSpace line ≠ ""
  ∧ Strings.HasPrefix (Strings.TrimSpace line) "#" = false.
Proof.
  unfold parseLine. cbv zeta. intros H.
  destruct (bool_decide (Strings.TrimSpace line = "")) eqn:He; [done|].
  destruct (Strings.HasPrefix _ "#") eqn:Hc; [done|]. simpl in H.
  destruct (Strings.Index _ _) as [idx|]; [|done].
  case_bool_decide as Hk; [|done]. simplify_eq.
  by apply bool_decide_eq_false in He.
Qed.

Lemma parseStep_origin (lines : list string) (m : gmap string string) k v :
  foldl parseStep m lines !! k = Some v →
  m !! k = Some v ∨ ∃ line, line ∈ lines ∧ parseLine line = Some (k, v).
Proof.
  revert m. induction lines as [|l lines IH]; intros m; simpl; [auto|].
  intros [Hm | (line & Hin & Hline)]%IH.
  - unfold parseStep in Hm. destruct (parseLine l) as [[key value]|] eqn:Hl; [|auto].
    destruct (decide (key = k)) as [->|Hne].
    + rewrite lookup_insert_eq in Hm. simplify_eq. right. exists l. split; [left|done].
    + rewrite lookup_insert_ne in Hm by done. auto.
  - right. exists line. split; [by right|done].
Qed.

(** X4. Every entry of a parsed text comes from one of its lines, and no
    key is empty; a key that no line defines is absent from the map. *)
Theorem parse_entries_come_from_lines (content key : string) :
  (∀ value, parseEnvContent content !! key = Some value →
     key ≠ ""
     ∧ ∃ line, line ∈ Strings.Split content newline ∧ parseLine line = Some (key, value))
  ∧ ((∀ line value, line ∈ Strings.Split content newline →
        parseLine line ≠ Some (key, value)) →
     parseEnvContent content !! key = None).
Proof.
  assert (∀ value, parseEnvContent content !! key = Some value →
            ∃ line, line ∈ Strings.Split content newline
                    ∧ parseLine line = Some (key, value)) as Horigin.
  { intros value [Hm | ?]%parseStep_origin; [|done]. by rewrite lookup_empty in Hm. }
  split.
  - intros value Hv. destruct (Horigin value Hv) as (line & Hin & Hline).
    split; [|eauto]. by apply parseLine_key in Hline as [? _].
  - intros Hno. destruct (parseEnvContent content !! key) as [value|] eqn:Hv; [|done].
    destruct (Horigin value eq_refl) as (line & Hin & Hline). by destruct (Hno line value).
Qed.

Lemma parse_entries_come_from_lines_witness :
  parseEnvContent (Sample.line "# A=1" +:+ Sample.line "B") !! "A" = None.
Proof.
  apply (proj2 (parse_entries_come_from_lines _ "A")).
  intros line value Hin.
  assert (line ∈ ["# A=1"; "B"; ""]) as Hl by exact Hin.
  repeat (apply elem_of_cons in Hl as [-> | Hl]; [by vm_compute|]).
  by apply elem_of_nil in Hl.
Defined.

Lemma countEnvLines_fold (lines : list string) (m : gmap string string) (n : nat) :
  size (foldl parseStep m lines) + n
  ≤ size m
    + foldl (λ count line,
               if bool_decide (Strings.TrimSpace line ≠ "")
                  && negb (Strings.HasPrefix (Strings.TrimSpace line) "#")
               then S count else count) n lines.
Proof.
  revert m n. induction lines as [|l lines IH]; intros m n; [simpl; lia|].
  cbn [foldl]. cbv zeta. unfold parseStep at 2. destruct (parseLine l) as [[key value]|] eqn:Hl.
  - destruct (parseLine_key _ _ _ Hl) as (_ & Hne & Hc).
    rewrite bool_decide_true, Hc by done. cbn [andb negb].
    specialize (IH (<[key:=value]> m) (S n)).
    pose proof (map_size_insert key value m) as Hs.
    destruct (m !! key); simpl in Hs; lia.
  - destruct (_ && _); [specialize (IH m (S n))|specialize (IH m n)]; lia.
Qed.

(** X5. The number of variables a pull reports for a text (its lines that
    are neither blank nor comments) is never below the number of secrets
    the text parses to. *)
Theorem parsed_size_le_countEnvLines (content : string) :
  size (parseEnvContent content) ≤ Pull.countEnvLines content.
Proof.
  unfold parseEnvContent, Pull.countEnvLines. cbv zeta.
  pose proof (countEnvLines_fold (Strings.Split content newline) ∅ 0) as H.
  rewrite map_size_empty in H. lia.
Qed.

(** * Further properties of the push command *)

Lemma discover_fold (entries : list (string * bool)) (acc : list Push.envCandidate) :
  foldl (λ candidates '(name, isDir),
           if Strings.HasPrefix name ".env"
              && negb (bool_decide (name ∈ Push.excludeFiles)) && negb isDir
           then candidates ++ [{| Push.file := name; Push.env := deriveEnvFromFile name |}]
           else candidates)
        acc entries
  = acc ++ ((λ e, {| Push.file := e.1; Push.env := deriveEnvFromFile e.1 |})
              <$> filter (λ e, Strings.HasPrefix e.1 ".env" = true
                               ∧ (e.1 ∉ Push.excludeFiles) ∧ e.2 = false) entries).
Proof.
  revert acc. induction entries as [|[name isDir] entries IH]; intros acc.
  - simpl. by rewrite app_nil_r.
  - cbn [foldl]. rewrite IH, filter_cons. cbn [fst snd].
    destruct (Strings.HasPrefix name ".env") eqn:Hp; cbn [andb].
    + case_bool_decide as Hex; cbn [andb negb].
      * rewrite decide_False by (intros (_ & ? & _); done). done.
      * destruct isDir; cbn [andb negb].
        -- rewrite decide_False by (intros (_ & _ & ?); done). done.
        -- rewrite decide_True by done. rewrite fmap_cons. by rewrite <- app_assoc.
    + rewrite decide_False by (intros (? & _); done). done.
Qed.

Lemma excludeFiles_elem (name : string) :
  name ∈ Push.excludeFiles
  ↔ name ∈ [".env.local"; ".env.example"; ".env.sample"; ".env.template"].
Proof.
  unfold Push.excludeFiles.
  rewrite !elem_of_union, !elem_of_singleton, !elem_of_cons, elem_of_nil. tauto.
Qed.

Lemma discoverEnvFiles_outcome (w : World) :
  ∃ candidates,
    Push.discoverEnvFiles w = ([OsReadDir "."], Next candidates)
    ∧ Forall (λ c, Push.env c = deriveEnvFromFile (Push.file c)) candidates.
Proof.
  unfold Push.discoverEnvFiles, emit. rewrite bind_Next.
  destruct (ReadDir w ".") as [entries|err]; simpl.
  - eexists. split; [reflexivity|]. rewrite discover_fold. simpl.
    apply Forall_fmap, Forall_true. by intros e.
  - exists []. split; [reflexivity|]. apply Forall_nil_2.
Qed.

(** X6. The files [push] offers are the entries of the directory, in its
    order, that are not directories, whose name starts with [.env] and is
    none of [.env.local], [.env.example], [.env.sample], [.env.template];
    each comes with the environment name derived from it.  A directory
    that cannot be read gives no candidate. *)
Theorem discoverEnvFiles_candidates (w : World) :
  ∃ candidates,
    Push.discoverEnvFiles w = ([OsReadDir "."], Next candidates)
    ∧ Forall (λ c, Push.env c = deriveEnvFromFile (Push.file c)) candidates
    ∧ (∀ err, ReadDir w "." = Err err → candidates = [])
    ∧ (∀ entries, ReadDir w "." = Ok entries →
         Push.file <$> candidates `sublist_of` entries.*1
         ∧ ∀ name, name ∈ Push.file <$> candidates ↔
             (name, false) ∈ entries
             ∧ Strings.HasPrefix name ".env" = true
             ∧ name ∉ [".env.local"; ".env.example"; ".env.sample"; ".env.template"]).
Proof.
  unfold Push.discoverEnvFiles, emit. rewrite bind_Next.
  destruct (ReadDir w ".") as [entries|err] eqn:Hdir; simpl.
  - eexists. split; [reflexivity|]. rewrite discover_fold. simpl.
    split; [|split; [done|]].
    { apply Forall_fmap, Forall_true. by intros e. }
    intros ? [= <-]. rewrite <- list_fmap_compose. split.
    + apply fmap_sublist, sublist_filter.
    + intros name. rewrite list_elem_of_fmap. split.
      * intros ([n d] & -> & ((Hp & Hex & Hd) & Hin)%list_elem_of_filter).
        simpl in *. subst d. repeat split; [done..|].
        intros Hn. by apply Hex, excludeFiles_elem.
      * intros (Hin & Hp & Hex). exists (name, false). split; [done|].
        apply list_elem_of_filter. split; [|done]. simpl. repeat split; [done|].
        intros Hn. by apply Hex, excludeFiles_elem.
  - exists []. split; [done|]. split; [done|]. split; [done|]. intros ? [=].
Qed.

Lemma discoverEnvFiles_candidates_witness :
  ∃ candidates,
    Push.discoverEnvFiles Sample.dirWorld = ([OsReadDir "."], Next candidates)
    ∧ Push.file <$> candidates = [".env.production"; ".env"]
    ∧ ∀ name, name ∈ Push.file <$> candidates →
        name ∉ [".env.local"; ".env.example"; ".env.sample"; ".env.template"].
Proof.
  destruct (discoverEnvFiles_candidates Sample.dirWorld)
    as (candidates & Hrun & _ & _ & Hok).
  exists candidates. split; [exact Hrun|].
  destruct (Hok _ eq_refl) as [_ Hiff]. split.
  - vm_compute in Hrun. injection Hrun as <-. reflexivity.
  - intros name Hin. by apply Hiff in Hin as (_ & _ & ?).
Defined.

Ltac flow_inv_as H a Ha :=
  let t1 := fresh "t" in
  let t2 := fresh "t" in
  apply bind_Next_inv in H as (t1 & a & t2 & Ha & H & ->).

Lemma len_zero (s : string) : Strings.len s = 0 ↔ s = "".
Proof. by destruct s. Qed.

Lemma loadLocal_Next w file env t secrets :
  Push.loadLocal w file env = (t, Next secrets) →
  ∃ content,
    ReadFile w file = Ok content ∧ Strings.TrimSpace content ≠ ""
    ∧ secrets = parseEnvContent content ∧ secrets ≠ ∅ ∧ OsReadFile file ∈ t.
Proof.
  unfold Push.loadLocal. intros H. flow_inv H.
  injection Hstage as <- _.
  destruct (ReadFile w file) as [content|err]; [|done].
  case_bool_decide as Hblank; [done|]. cbv zeta in H.
  case_bool_decide as Hsize; [done|]. do 3 flow_inv H. injection H as _ <-.
  exists content. repeat apply conj; [done| |done| |left].
  - by rewrite <- len_zero.
  - intros Hempty. apply Hsize. rewrite Hempty. apply map_size_empty.
Qed.

Lemma preparePush_plan w t p :
  Push.preparePush w = (t, Next p) →
  ∃ t0 content,
    Push.chooseFile w = (t0, Next (Push.planFile p, Push.planEnv p))
    ∧ ReadFile w (Push.planFile p) = Ok content
    ∧ Strings.TrimSpace content ≠ ""
    ∧ Push.planSecrets p = parseEnvContent content
    ∧ Push.planSecrets p ≠ ∅
    ∧ DetectRepo w = Ok (Push.planRepo p)
    ∧ EnsureLogin w = Ok (Push.planToken p)
    ∧ OsReadFile (Push.planFile p) ∈ t.
Proof.
  unfold Push.preparePush. intros H. flow_inv_as H x Hbefore.
  destruct x as [[[[file env] secrets] repo] token].
  flow_inv_as H vaultSecrets Hfetch. flow_inv_as H u Hshow. injection H as _ <-. simpl.
  unfold Push.beforeFetch in Hbefore. flow_inv_as Hbefore fe Hchoose.
  destruct fe as [file' env']. flow_inv_as Hbefore secrets' Hload.
  flow_inv_as Hbefore rt Hconnect. destruct rt as [repo' token'].
  injection Hbefore as _ <- <- <- <- <-.
  apply connect_Next in Hconnect as [Hrepo Htoken].
  apply loadLocal_Next in Hload as (content & Hread & Hne & Hparse & Hsome & Hin).
  eexists _, content. repeat apply conj; try done.
  rewrite !elem_of_app. auto.
Qed.

Lemma confirmPush_Next w p tc u :
  Push.confirmPush w p = (tc, Next u) →
  flagYes w = true
  ∨ (IsInteractive w = true
     ∧ ∃ prompt, UiConfirm prompt ∈ tc ∧ Confirm w prompt = true).
Proof.
  unfold Push.confirmPush, confirm.
  destruct (flagYes w); [auto|]. destruct (IsInteractive w); simpl; [|done].
  destruct (Confirm w _) eqn:Hc; simpl; [|done].
  intros [= <- _]. right. split; [done|]. eexists. split; [left|exact Hc].
Qed.

Lemma upload_uploads w p token repo env secrets :
  ApiPushSecrets token repo env secrets ∈ (Push.upload w p).1 →
  token = Push.planToken p ∧ repo = Push.planRepo p ∧ env = Push.planEnv p
  ∧ secrets = Push.planSecrets p.
Proof.
  unfold Push.upload.
  intros [Hin | (? & _ & Hin)]%elem_of_bind;
    [apply list_elem_of_singleton in Hin; discriminate Hin|].
  apply elem_of_bind in Hin as [Hin | (? & _ & Hin)];
    [apply list_elem_of_singleton in Hin; discriminate Hin|].
  apply elem_of_bind in Hin as [Hin | (? & _ & Hin)].
  - apply list_elem_of_singleton in Hin. by simplify_eq.
  - match type of Hin with _ ∈ (?m).1 =>
      assert (onlyCalls [Display; Analytics] m) as Hc by only_calls end.
    apply (onlyCalls_elem _ _ _ Hc) in Hin. class_out Hin.
Qed.

(** X7. What a push uploads is what it read: an upload carries the parse
    of the local file the command read, which is not empty, to the
    repository git detected, with the token of the login; and it happens
    only with [--yes] or after the operator, at a terminal, answered yes
    to the question the command asked. *)
Theorem push_uploads_what_it_read (w : World) (token repo env : string)
    (secrets : gmap string string) :
  ApiPushSecrets token repo env secrets ∈ (Push.runPush w).1 →
  (flagYes w = true
   ∨ (IsInteractive w = true
      ∧ ∃ prompt, UiConfirm prompt ∈ (Push.runPush w).1 ∧ Confirm w prompt = true))
  ∧ DetectRepo w = Ok repo
  ∧ EnsureLogin w = Ok token
  ∧ ∃ file content,
      OsReadFile file ∈ (Push.runPush w).1
      ∧ ReadFile w file = Ok content
      ∧ secrets = parseEnvContent content
      ∧ secrets ≠ ∅.
Proof.
  unfold Push.runPush. rewrite finish_trace.
  intros [Hin | (p & Hp & Hin)]%elem_of_bind.
  { apply (onlyCalls_elem _ _ _ (preparePush_calls w)) in Hin. class_out Hin. }
  destruct (Push.preparePush w) as [t o] eqn:Hprep. simpl in Hp. subst o.
  apply elem_of_bind in Hin as [Hin | (u & Hu & Hin)].
  { apply (onlyCalls_elem _ _ _ (confirmPush_calls w p)) in Hin. class_out Hin. }
  destruct (Push.confirmPush w p) as [tc o] eqn:Hconfirm. simpl in Hu. subst o.
  apply upload_uploads in Hin as (-> & -> & -> & ->).
  destruct (preparePush_plan w t p Hprep)
    as (t0 & content & _ & Hread & _ & Hparse & Hsome & Hrepo & Htoken & Hfile).
  split; [|split; [done|split; [done|]]].
  - destruct (confirmPush_Next w p tc u Hconfirm) as [?|(? & prompt & Hask & ?)]; [auto|].
    right. split; [done|]. exists prompt. split; [|done].
    rewrite bind_Next. simpl. apply elem_of_app. right.
    apply elem_of_bind_l. by rewrite Hconfirm.
  - exists (Push.planFile p), content. repeat apply conj; try done.
    rewrite bind_Next. simpl. apply elem_of_app. by left.
Qed.

Lemma push_uploads_what_it_read_witness :
  ∃ file content,
    ReadFile Sample.yesPushWorld file = Ok content
    ∧ ({[ "FOO" := "1" ]} : gmap string string) = parseEnvContent content.
Proof.
  assert (ApiPushSecrets "token" "acme/app" "development" {[ "FOO" := "1" ]}
          ∈ (Push.runPush Sample.yesPushWorld).1) as Hin
    by (vm_compute; in_trace).
  destruct (push_uploads_what_it_read Sample.yesPushWorld _ _ _ _ Hin)
    as (_ & _ & _ & file & content & _ & Hread & Hparse & _).
  by exists file, content.
Defined.

Lemma loaded_before_connect w file env t0 t1 secrets :
  Push.chooseFile w = (t0, Next (file, env)) →
  Push.loadLocal w file env = (t1, Next secrets) →
  ∃ content,
    OsReadFile file ∈ (Push.runPush w).1
    ∧ ReadFile w file = Ok content
    ∧ Strings.TrimSpace content ≠ ""
    ∧ parseEnvContent content ≠ ∅.
Proof.
  intros Hchoose Hload.
  destruct (loadLocal_Next _ _ _ _ _ Hload) as (content & Hread & Hne & -> & Hsome & Hin).
  exists content. split; [|done].
  unfold Push.runPush. rewrite finish_trace. apply elem_of_bind_l.
  unfold Push.preparePush. apply elem_of_bind_l.
  unfold Push.beforeFetch. eapply elem_of_bind_r; [exact Hchoose|].
  apply elem_of_bind_l. by rewrite Hload.
Qed.

(** X8. A push goes over the network (login, fetch, upload, analytics)
    only after it has read a local file whose content is not blank and
    parses to at least one secret: a missing, blank or variable-free file
    ends the command before any such call. *)
Theorem push_network_needs_secrets (w : World) (e : event) :
  e ∈ (Push.runPush w).1 →
  classOf e ∈ networkClasses →
  ∃ file content,
    OsReadFile file ∈ (Push.runPush w).1
    ∧ ReadFile w file = Ok content
    ∧ Strings.TrimSpace content ≠ ""
    ∧ parseEnvContent content ≠ ∅.
Proof.
  intros Hin Hnet.
  assert (∃ t0 file env t1 secrets,
            Push.chooseFile w = (t0, Next (file, env))
            ∧ Push.loadLocal w file env = (t1, Next secrets))
    as (t0 & file & env & t1 & secrets & Hchoose & Hload).
  { unfold Push.runPush in Hin. rewrite finish_trace in Hin.
    assert (∀ t x, Push.beforeFetch w = (t, Next x) →
              ∃ t0 file env t1 secrets,
                Push.chooseFile w = (t0, Next (file, env))
                ∧ Push.loadLocal w file env = (t1, Next secrets)) as Hbefore.
    { intros t x Hb. unfold Push.beforeFetch in Hb.
      flow_inv_as Hb fe Hchoose. destruct fe as [file env].
      flow_inv_as Hb secrets Hload. eauto 10. }
    assert (∀ t p, Push.preparePush w = (t, Next p) →
              ∃ t0 file env t1 secrets,
                Push.chooseFile w = (t0, Next (file, env))
                ∧ Push.loadLocal w file env = (t1, Next secrets)) as Hprepare.
    { intros t p Hp. unfold Push.preparePush in Hp.
      flow_inv_as Hp x Hb. eauto. }
    apply elem_of_bind in Hin as [Hin | (p & Hp & _)].
    2:{ destruct (Push.preparePush w) as [t o] eqn:Hprep. simpl in Hp. subst o. eauto. }
    unfold Push.preparePush in Hin.
    apply elem_of_bind in Hin as [Hin | (x & Hx & _)].
    2:{ destruct (Push.beforeFetch w) as [t o] eqn:Hb. simpl in Hx. subst o. eauto. }
    unfold Push.beforeFetch in Hin.
    apply elem_of_bind in Hin as [Hin | ([file env] & Hc & Hin)].
    { apply (onlyCalls_elem _ _ _ (chooseFile_calls w)) in Hin.
      exfalso. revert Hin Hnet. generalize (classOf e). intros c Hc Hn.
      repeat (apply elem_of_cons in Hc as [-> | Hc]; [class_out Hn|]).
      by apply elem_of_nil in Hc. }
    destruct (Push.chooseFile w) as [t0 o] eqn:Hchoose. simpl in Hc. subst o.
    apply elem_of_bind in Hin as [Hin | (secrets & Hs & _)].
    { apply (onlyCalls_elem _ _ _ (loadLocal_calls w file env)) in Hin.
      exfalso. revert Hin Hnet. generalize (classOf e). intros c Hc Hn.
      repeat (apply elem_of_cons in Hc as [-> | Hc]; [class_out Hn|]).
      by apply elem_of_nil in Hc. }
    destruct (Push.loadLocal w file env) as [t1 o] eqn:Hload. simpl in Hs. subst o.
    eauto 10. }
  destruct (loaded_before_connect _ _ _ _ _ _ Hchoose Hload) as (content & ?).
  by exists file, content.
Qed.

Lemma push_network_needs_secrets_witness :
  ∃ file content,
    ReadFile Sample.yesPushWorld file = Ok content ∧ Strings.TrimSpace content ≠ "".
Proof.
  assert (CallEnsureLogin ∈ (Push.runPush Sample.yesPushWorld).1) as Hin
    by (vm_compute; in_trace).
  assert (classOf CallEnsureLogin ∈ networkClasses) as Hnet by class_in.
  destruct (push_network_needs_secrets Sample.yesPushWorld _ Hin Hnet)
    as (file & content & _ & Hread & Hne & _).
  by exists file, content.
Defined.

Lemma selectFile_writes w path content perm :
  OsWriteFile path content perm ∈ (Push.selectFile w).1 →
  path = ".env" ∧ content = Push.envTemplate ∧ perm = 384%N
  ∧ flagFile w = "" ∧ IsInteractive w = true
  ∧ Confirm w "No .env file found. Create one?" = true
  ∧ (Push.selectFile w).2 = Return (WriteFile w ".env" Push.envTemplate 384).
Proof.
  destruct (discoverEnvFiles_outcome w) as (candidates & Hdisc & _).
  unfold Push.selectFile. rewrite Hdisc, bind_Next. cbn [fst snd].
  intros [Hin | Hin]%elem_of_app.
  { apply list_elem_of_singleton in Hin. discriminate Hin. }
  destruct (bool_decide (length candidates = 0) && bool_decide (flagFile w = "")) eqn:Hnone.
  - apply andb_true_iff in Hnone as [_ Hfile%bool_decide_eq_true].
    unfold confirm, emit in *.
    destruct (IsInteractive w), (Confirm w "No .env file found. Create one?"),
      (WriteFile w ".env" Push.envTemplate 384) as [err|] eqn:Hw; simpl in *;
      repeat (apply elem_of_cons in Hin as [Hin | Hin]; [try discriminate Hin|]);
      try (by apply elem_of_nil in Hin); by simplify_eq.
  - exfalso. revert Hin.
    match goal with |- _ ∈ (?m).1 → _ =>
      assert (onlyCalls [Prompt] m) as Hc by only_calls end.
    intros Hin. apply (onlyCalls_elem _ _ _ Hc) in Hin. class_out Hin.
Qed.

Lemma checkGitignore_Next w : (checkGitignore w).2 = Next tt.
Proof.
  unfold checkGitignore, confirm, emit.
  destruct (CheckEnvGitignore w), (IsInteractive w), (Confirm w "Add .env* to .gitignore?"),
    (AddEnvToGitignore w); reflexivity.
Qed.

Lemma chooseFile_outcome w : (Push.chooseFile w).2 = (Push.selectFile w).2.
Proof.
  unfold Push.chooseFile, emit. rewrite bind_Next. cbn [snd].
  pose proof (checkGitignore_Next w) as Hg.
  destruct (checkGitignore w) as [tg o]. simpl in Hg. subst o.
  rewrite bind_Next. done.
Qed.

Lemma runPush_write_origin w path content perm :
  OsWriteFile path content perm ∈ (Push.runPush w).1 →
  OsWriteFile path content perm ∈ (Push.selectFile w).1.
Proof.
  intros Hin. unfold Push.runPush in Hin. rewrite finish_trace in Hin.
  apply elem_of_bind in Hin as [Hin | (p & _ & Hin)].
  2:{ assert (onlyCalls [Display; Prompt; Upload; Analytics]
                (Push.confirmPush w p ;; Push.upload w p)) as Hc
        by (unfold Push.confirmPush, confirm; only_calls).
      apply (onlyCalls_elem _ _ _ Hc) in Hin. class_out Hin. }
  unfold Push.preparePush in Hin.
  apply elem_of_bind in Hin as [Hin | (x & _ & Hin)].
  2:{ destruct x as [[[[file env] secrets] repo] token].
      match type of Hin with _ ∈ (?m).1 =>
        assert (onlyCalls [Display; Fetch] m) as Hc
          by (only_calls; eapply onlyCalls_mono, push_showDiff_calls; classes_in) end.
      apply (onlyCalls_elem _ _ _ Hc) in Hin. class_out Hin. }
  unfold Push.beforeFetch in Hin.
  apply elem_of_bind in Hin as [Hin | ([file env] & _ & Hin)].
  2:{ match type of Hin with _ ∈ (?m).1 =>
        assert (onlyCalls [Display; FileRead; Git; Login] m) as Hc by only_calls end.
      apply (onlyCalls_elem _ _ _ Hc) in Hin. class_out Hin. }
  unfold Push.chooseFile in Hin.
  apply elem_of_bind in Hin as [Hin | (? & _ & Hin)].
  { apply list_elem_of_singleton in Hin. discriminate Hin. }
  apply elem_of_bind in Hin as [Hin | (? & _ & Hin)]; [|done].
  apply (onlyCalls_elem _ _ _ (checkGitignore_calls w)) in Hin. class_out Hin.
Qed.

Lemma checkGitignore_no_detect w : GitDetectRepo ∉ (checkGitignore w).1.
Proof.
  unfold checkGitignore, confirm, emit. intros H.
  destruct (CheckEnvGitignore w), (IsInteractive w),
    (Confirm w "Add .env* to .gitignore?"), (AddEnvToGitignore w);
    simpl in H; not_in_trace H.
Qed.

Lemma chooseFile_no_detect w : GitDetectRepo ∉ (Push.chooseFile w).1.
Proof.
  unfold Push.chooseFile. intros Hin.
  apply elem_of_bind in Hin as [Hin | (? & _ & Hin)].
  { apply list_elem_of_singleton in Hin. discriminate Hin. }
  apply elem_of_bind in Hin as [Hin | (? & _ & Hin)].
  - by apply checkGitignore_no_detect in Hin.
  - apply (onlyCalls_elem _ _ _ (selectFile_calls w)) in Hin. class_out Hin.
Qed.

(** X9. Two calls of a push are made to change a file: [os.WriteFile] and
    [git.AddEnvToGitignore].  [os.WriteFile] is called only to create
    [.env] with the two-line template and mode 0600, at a terminal, with
    no [--file], after the operator agreed to create it; the command then
    ends, returning what the write returned, having made no
    [os.ReadFile], [git.DetectRepo], login, vault or analytics call.
    [git.AddEnvToGitignore], which appends to [.gitignore], is called
    exactly when the gitignore check failed at a terminal and the
    operator agreed to that question.  What the collaborators do on disk
    themselves lies outside the command. *)
Theorem push_file_changing_calls (w : World) :
  (∀ path content perm,
     OsWriteFile path content perm ∈ (Push.runPush w).1 →
     path = ".env" ∧ content = Push.envTemplate ∧ perm = 384%N
     ∧ flagFile w = "" ∧ IsInteractive w = true
     ∧ Confirm w "No .env file found. Create one?" = true
     ∧ (Push.runPush w).2 = WriteFile w ".env" Push.envTemplate 384
     ∧ Forall (λ e, classOf e ≠ FileRead ∧ (classOf e ∉ networkClasses)
                    ∧ e ≠ GitDetectRepo) (Push.runPush w).1)
  ∧ (GitAddEnvToGitignore ∈ (Push.runPush w).1
     ↔ CheckEnvGitignore w = false ∧ IsInteractive w = true
       ∧ Confirm w "Add .env* to .gitignore?" = true).
Proof.
  split; [|apply runPush_adds].
  intros path content perm Hin. apply runPush_write_origin in Hin.
  destruct (selectFile_writes w path content perm Hin)
    as (-> & -> & -> & Hfile & Hint & Hcreate & Hret).
  repeat apply conj; try done.
  - pose proof (chooseFile_outcome w) as Hch. rewrite Hret in Hch.
    unfold Push.runPush, Push.preparePush, Push.beforeFetch.
    destruct (Push.chooseFile w) as [tc o]. simpl in Hch. subst o. done.
  - pose proof (chooseFile_outcome w) as Hch. rewrite Hret in Hch.
    pose proof (chooseFile_calls w) as Hc.
    pose proof (chooseFile_no_detect w) as Hd.
    unfold Push.runPush. rewrite finish_trace.
    unfold Push.preparePush, Push.beforeFetch.
    destruct (Push.chooseFile w) as [tc o]. simpl in Hch. subst o.
    rewrite !bind_Return. simpl in *.
    apply Forall_forall. intros e He.
    split; [|split]; [| |by intros ->].
    + intros Hcl. apply (proj1 (Forall_forall _ _) Hc) in He. cbv beta in He.
      rewrite Hcl in He. class_out He.
    + intros Hn. apply (proj1 (Forall_forall _ _) Hc) in He. cbv beta in He.
      revert He Hn. generalize (classOf e). intros c Hcl Hn.
      repeat (apply elem_of_cons in Hcl as [-> | Hcl]; [class_out Hn|]).
      by apply elem_of_nil in Hcl.
Qed.

Lemma push_file_changing_calls_witness :
  (Push.runPush (Sample.terminalWorld false (λ _, true) "" None (Ok ""))).2 = None
  ∧ GitAddEnvToGitignore
    ∈ (Push.runPush (Sample.terminalWorld false (λ _, true) "" None (Ok ""))).1.
Proof.
  assert (OsWriteFile ".env" Push.envTemplate 384
          ∈ (Push.runPush (Sample.terminalWorld false (λ _, true) "" None (Ok ""))).1) as Hin
    by (vm_compute; in_trace).
  destruct (push_file_changing_calls
              (Sample.terminalWorld false (λ _, true) "" None (Ok ""))) as [Hwrite Hadd].
  destruct (Hwrite _ _ _ Hin) as (_ & _ & _ & _ & _ & _ & Hret & _).
  split.
  - rewrite Hret. reflexivity.
  - apply Hadd. repeat split.
Defined.

(** * Further properties of the pull command *)

Lemma writeResult_perm w p path content perm :
  OsWriteFile path content perm ∈ (Pull.writeResult w p).1 → perm = 384%N.
Proof.
  unfold Pull.writeResult. cbv zeta. intros [Hin | (? & _ & Hin)]%elem_of_bind.
  - simpl in Hin. apply list_elem_of_singleton in Hin. by simplify_eq.
  - match type of Hin with _ ∈ (?m).1 => assert (onlyCalls [Display] m) as Hc by only_calls end.
    apply (onlyCalls_elem _ _ _ Hc) in Hin. class_out Hin.
Qed.

Lemma confirmPull_Next w p tc u :
  Pull.confirmPull w p = (tc, Next u) →
  Pull.planLocalExists p = false
  ∨ flagYes w = true
  ∨ (IsInteractive w = true
     ∧ ∃ prompt,
         prompt = (if flagForce w
                   then "Replace " +:+ Pull.planFile p +:+ " with secrets from vault?"
                   else "Merge secrets from vault into " +:+ Pull.planFile p +:+ "?")
         ∧ UiConfirm prompt ∈ tc ∧ Confirm w prompt = true).
Proof.
  unfold Pull.confirmPull, confirm.
  destruct (Pull.planLocalExists p); [|auto].
  destruct (flagYes w); [auto|]. destruct (IsInteractive w); simpl; [|done].
  match goal with |- context [Confirm w ?q] => destruct (Confirm w q) eqn:Hc end;
    simpl; [|done].
  intros [= <- _]. do 2 right. split; [done|]. eexists.
  split; [reflexivity|]. split; [left|exact Hc].
Qed.

(** X10. Two calls of a pull are made to change a file: [os.WriteFile]
    and [git.AddEnvToGitignore].  [os.WriteFile] is called only for the
    path joined from [--file], with mode 0600, after
    [git.DetectRepo], the login and the download succeeded; and when
    [os.ReadFile] of that path gave no error, only with [--yes] or after
    the operator, at a terminal, answered yes to the Replace or Merge
    question: the guard is on [os.ReadFile] succeeding, not on the file
    being there.  [git.AddEnvToGitignore] is called exactly when the
    gitignore check failed at a terminal and the operator agreed to that
    question. *)
Theorem pull_file_changing_calls (w : World) :
  (∀ path content perm,
     OsWriteFile path content perm ∈ (Pull.runPull w).1 →
     path = Join w "." (flagFile w)
     ∧ perm = 384%N
     ∧ (∃ repo token remote,
          DetectRepo w = Ok repo ∧ EnsureLogin w = Ok token
          ∧ PullSecrets w token repo (flagEnv w) = Ok remote)
     ∧ ((∃ err, ReadFile w path = Err err)
        ∨ flagYes w = true
        ∨ (IsInteractive w = true
           ∧ ∃ prompt,
               prompt = (if flagForce w
                         then "Replace " +:+ flagFile w +:+ " with secrets from vault?"
                         else "Merge secrets from vault into " +:+ flagFile w +:+ "?")
               ∧ UiConfirm prompt ∈ (Pull.runPull w).1 ∧ Confirm w prompt = true)))
  ∧ (GitAddEnvToGitignore ∈ (Pull.runPull w).1
     ↔ CheckEnvGitignore w = false ∧ IsInteractive w = true
       ∧ Confirm w "Add .env* to .gitignore?" = true).
Proof.
  split; [|apply runPull_adds].
  intros path content perm.
  unfold Pull.runPull. rewrite finish_trace.
  intros [Hin | (p & Hp & Hin)]%elem_of_bind.
  { apply (onlyCalls_elem _ _ _ (preparePull_calls w)) in Hin. class_out Hin. }
  destruct (Pull.preparePull w) as [t o] eqn:Hprep. simpl in Hp. subst o.
  apply elem_of_bind in Hin as [Hin | (u & Hu & Hin)].
  { apply (onlyCalls_elem _ _ _ (confirmPull_calls w p)) in Hin. class_out Hin. }
  destruct (Pull.confirmPull w p) as [tc o] eqn:Hconfirm. simpl in Hu. subst o.
  pose proof (writeResult_perm _ _ _ _ _ Hin) as ->.
  apply writeResult_writes in Hin as [-> ->].
  destruct (preparePull_plan w t p Hprep)
    as (repo & token & Hrepo & Htoken & Hpull & Hname & _ & Hpath & Hlocal & _).
  rewrite Hpath. split; [done|]. split; [done|]. split; [eauto 10|].
  destruct (confirmPull_Next w p tc u Hconfirm)
    as [Hno|[?|(? & prompt & Hq & Hask & ?)]]; [left|auto|].
  - rewrite Hno in Hlocal. destruct (ReadFile w _) as [data|err]; [done|eauto].
  - do 2 right. split; [done|]. exists prompt. rewrite <- Hname.
    split; [done|]. split; [|done].
    rewrite bind_Next. simpl. apply elem_of_app. right.
    apply elem_of_bind_l. by rewrite Hconfirm.
Qed.

Lemma pull_file_changing_calls_witness :
  (∃ err, ReadFile Sample.mergeWorld ".env" = Err err)
  ∨ flagYes Sample.mergeWorld = true
  ∨ (IsInteractive Sample.mergeWorld = true
     ∧ ∃ prompt,
         prompt = (if flagForce Sample.mergeWorld
                   then "Replace " +:+ flagFile Sample.mergeWorld
                        +:+ " with secrets from vault?"
                   else "Merge secrets from vault into " +:+ flagFile Sample.mergeWorld
                        +:+ "?")
         ∧ UiConfirm prompt ∈ (Pull.runPull Sample.mergeWorld).1
         ∧ Confirm Sample.mergeWorld prompt = true).
Proof.
  eassert (OsWriteFile ".env" _ 384 ∈ (Pull.runPull Sample.mergeWorld).1) as Hin
    by (vm_compute; in_trace).
  exact (proj2 (proj2 (proj2
           (proj1 (pull_file_changing_calls Sample.mergeWorld) _ _ _ Hin)))).
Defined.

Lemma preparePush_no_write w t p :
  Push.preparePush w = (t, Next p) → Forall (λ e, classOf e ≠ FileWrite) t.
Proof.
  intros Hprep. apply Forall_forall. intros e He Hcl.
  destruct e; try discriminate Hcl.
  assert (OsWriteFile path content perm ∈ (Push.runPush w).1) as Hin.
  { unfold Push.runPush. rewrite finish_trace. apply elem_of_bind_l. by rewrite Hprep. }
  apply runPush_write_origin, selectFile_writes in Hin as (_ & _ & _ & _ & _ & _ & Hret).
  destruct (preparePush_plan w t p Hprep) as (t0 & content' & Hchoose & _).
  pose proof (chooseFile_outcome w) as Hch. rewrite Hchoose, Hret in Hch. discriminate Hch.
Qed.

(** X11. At a terminal and without [--yes], an operator who answers no to
    the confirmation ends the command with [nil]: the question and the
    abort warning are its last two calls.  Up to the question a push, and
    a pull onto a file [os.ReadFile] could read, have made no upload and
    no [os.WriteFile] call; [git.AddEnvToGitignore] is among its calls
    exactly when the gitignore check failed and the operator agreed to
    that earlier question. *)
Theorem declined_confirmation_ends_the_run :
  (∀ w t p,
     IsInteractive w = true → flagYes w = false →
     Push.preparePush w = (t, Next p) →
     Confirm w ("Push " +:+ pretty (size (Push.planSecrets p)) +:+ " secrets from "
                +:+ Push.planFile p +:+ " to " +:+ Push.planRepo p +:+ "?") = false →
     Push.runPush w
     = (t ++ [UiConfirm ("Push " +:+ pretty (size (Push.planSecrets p))
                         +:+ " secrets from " +:+ Push.planFile p +:+ " to "
                         +:+ Push.planRepo p +:+ "?");
              Ui Warn "Push aborted."], None)
     ∧ Forall (λ e, classOf e ≠ Upload ∧ classOf e ≠ FileWrite) t
     ∧ (GitAddEnvToGitignore ∈ t
        ↔ CheckEnvGitignore w = false ∧ Confirm w "Add .env* to .gitignore?" = true))
  ∧ (∀ w t p data,
       IsInteractive w = true → flagYes w = false →
       Pull.preparePull w = (t, Next p) →
       ReadFile w (Join w "." (flagFile w)) = Ok data →
       Confirm w (if flagForce w
                  then "Replace " +:+ flagFile w +:+ " with secrets from vault?"
                  else "Merge secrets from vault into " +:+ flagFile w +:+ "?") = false →
       Pull.runPull w
       = (t ++ [UiConfirm (if flagForce w
                           then "Replace " +:+ flagFile w +:+ " with secrets from vault?"
                           else "Merge secrets from vault into " +:+ flagFile w +:+ "?");
                Ui Warn "Pull aborted."], None)
       ∧ Forall (λ e, classOf e ≠ Upload ∧ classOf e ≠ FileWrite) t
       ∧ (GitAddEnvToGitignore ∈ t
          ↔ CheckEnvGitignore w = false ∧ Confirm w "Add .env* to .gitignore?" = true)).
Proof.
  split.
  - intros w t p Hint Hyes Hprep Hno. split; [|split].
    + unfold Push.runPush. rewrite Hprep, bind_Next.
      unfold Push.confirmPush, confirm. rewrite Hint, Hyes, Hno. done.
    + pose proof (preparePush_calls w) as Hc. rewrite Hprep in Hc.
      pose proof (preparePush_no_write w t p Hprep) as Hw.
      apply Forall_forall. intros e He. split.
      * intros Hup. apply (proj1 (Forall_forall _ _) Hc) in He. cbv beta in He.
        rewrite Hup in He. class_out He.
      * by apply (proj1 (Forall_forall _ _) Hw).
    + pose proof (preparePush_adds w) as Ha. rewrite Hprep in Ha. cbn [fst] in Ha.
      rewrite Ha, checkGitignore_adds. intuition.
  - intros w t p data Hint Hyes Hprep Hfile Hno.
    destruct (preparePull_plan w t p Hprep)
      as (repo & token & _ & _ & _ & Hname & _ & _ & Hlocal & _).
    rewrite Hfile in Hlocal. injection Hlocal as Hexists _. split; [|split].
    + unfold Pull.runPull. rewrite Hprep, bind_Next.
      unfold Pull.confirmPull, confirm. rewrite Hexists, Hint, Hyes, Hname.
      cbn [negb andb]. destruct (flagForce w); rewrite Hno; done.
    + pose proof (preparePull_calls w) as Hc. rewrite Hprep in Hc.
      eapply Forall_impl; [exact Hc|]. intros e He. cbv beta in He.
      split; intros Hup; rewrite Hup in He; class_out He.
    + pose proof (preparePull_adds w) as Ha. rewrite Hprep in Ha. cbn [fst] in Ha.
      rewrite Ha, checkGitignore_adds. intuition.
Qed.

Lemma declined_confirmation_ends_the_run_witness :
  (Pull.runPull (Sample.terminalWorld false Sample.onlyGitignore ".env"
                   (Some (Sample.line "FOO=0")) (Ok (Sample.line "FOO=1")))).2 = None
  ∧ ∃ t p,
      Pull.preparePull (Sample.terminalWorld false Sample.onlyGitignore ".env"
                          (Some (Sample.line "FOO=0")) (Ok (Sample.line "FOO=1")))
      = (t, Next p)
      ∧ GitAddEnvToGitignore ∈ t
      ∧ Forall (λ e, classOf e ≠ Upload ∧ classOf e ≠ FileWrite) t.
Proof.
  destruct declined_confirmation_ends_the_run as [_ Hpull].
  eassert (Pull.preparePull (Sample.terminalWorld false Sample.onlyGitignore ".env"
                               (Some (Sample.line "FOO=0")) (Ok (Sample.line "FOO=1")))
           = (_, Next _)) as Hp
    by (vm_compute; reflexivity).
  destruct (Hpull (Sample.terminalWorld false Sample.onlyGitignore ".env"
                     (Some (Sample.line "FOO=0")) (Ok (Sample.line "FOO=1")))
              _ _ (Sample.line "FOO=0") eq_refl eq_refl Hp eq_refl eq_refl)
    as (Hrun & Hquiet & Hadd).
  split.
  - rewrite Hrun. reflexivity.
  - eexists _, _. split; [exact Hp|]. split; [|exact Hquiet].
    apply Hadd. split; reflexivity.
Defined.

Lemma writeResult_calls w p : onlyCalls [Display; FileWrite] (Pull.writeResult w p).
Proof. unfold Pull.writeResult. only_calls. Qed.

Lemma bind_trace {A B} (m : Flow A) (f : A → Flow B) :
  (m ≫= f).1 = m.1 ++ match m.2 with Next a => (f a).1 | Return _ => [] end.
Proof.
  destruct m as [t [a|err]].
  - by rewrite bind_Next.
  - rewrite bind_Return. simpl. by rewrite app_nil_r.
Qed.

Lemma pull_showDiff_Next force localExists diff :
  (Pull.showDiff force localExists diff).2 = Next tt.
Proof.
  unfold Pull.showDiff, emit, emitAll.
  destruct (localExists && Pull.hasChanges diff); [|reflexivity].
  destruct (bool_decide (0 < length (Pull.added diff))
            || bool_decide (0 < length (Pull.changed diff)));
    destruct (bool_decide (0 < length (Pull.localOnly diff)));
    destruct (negb force); reflexivity.
Qed.

(** X12. The calls of a pull, in order.  A pull makes no upload call and
    does not list the directory.  It calls [os.ReadFile] at most once, on
    the path joined from [--file], after [git.DetectRepo], the login and
    the download succeeded.  Every call before that read is a display, a
    prompt, a call of package [git] ([CheckEnvGitignore],
    [AddEnvToGitignore], [DetectRepo]), the login, analytics or the
    download; every call after it is a display, a prompt or
    [os.WriteFile].  What the git, login and analytics collaborators read
    or write themselves lies outside the command. *)
Theorem pull_calls_in_order (w : World) :
  Forall (λ e, classOf e ≠ Upload ∧ classOf e ≠ DirRead) (Pull.runPull w).1
  ∧ (∀ f, OsReadFile f ∈ (Pull.runPull w).1 →
       f = Join w "." (flagFile w)
       ∧ ∃ repo token remote,
           DetectRepo w = Ok repo ∧ EnsureLogin w = Ok token
           ∧ PullSecrets w token repo (flagEnv w) = Ok remote)
  ∧ ∃ t1 t2,
      (Pull.runPull w).1 = t1 ++ t2
      ∧ Forall (λ e, classOf e ∈ [Display; Prompt; Git; Login; Analytics; Fetch]) t1
      ∧ (t2 = []
         ∨ ∃ t3, t2 = OsReadFile (Join w "." (flagFile w)) :: t3
                 ∧ Forall (λ e, classOf e ∈ [Display; Prompt; FileWrite]) t3).
Proof.
  split; [|split].
  - assert (onlyCalls [Display; Prompt; Git; Login; Analytics; Fetch; FileRead; FileWrite]
              (p ← Pull.preparePull w; Pull.confirmPull w p ;; Pull.writeResult w p)) as Hc.
    { apply onlyCalls_bind; [eapply onlyCalls_mono, preparePull_calls; classes_in|].
      intros p. apply onlyCalls_bind; [eapply onlyCalls_mono, confirmPull_calls; classes_in|].
      intros _. eapply onlyCalls_mono, writeResult_calls. classes_in. }
    unfold Pull.runPull. rewrite finish_trace.
    eapply Forall_impl; [exact Hc|]. intros e He. cbv beta in He.
    split; intros Hcl; rewrite Hcl in He; class_out He.
  - intros f. unfold Pull.runPull. rewrite finish_trace.
    intros [Hin | (p & _ & Hin)]%elem_of_bind.
    2:{ assert (onlyCalls [Display; Prompt; FileWrite]
                  (Pull.confirmPull w p ;; Pull.writeResult w p)) as Hc.
        { apply onlyCalls_bind; [eapply onlyCalls_mono, confirmPull_calls; classes_in|].
          intros _. eapply onlyCalls_mono, writeResult_calls. classes_in. }
        apply (onlyCalls_elem _ _ _ Hc) in Hin. class_out Hin. }
    unfold Pull.preparePull in Hin.
    apply elem_of_bind in Hin as [Hin | ([repo token] & Hb & Hin)].
    { apply (onlyCalls_elem _ _ _ (beforeDownload_calls w)) in Hin. class_out Hin. }
    destruct (Pull.beforeDownload w) as [tb o] eqn:Hbefore. simpl in Hb. subst o.
    apply beforeDownload_Next in Hbefore as [Hrepo Htoken].
    cbv zeta in Hin.
    apply elem_of_bind in Hin as [Hin | (remote & Hd & Hin)].
    { apply (onlyCalls_elem _ _ _ (download_calls w token repo (flagEnv w))) in Hin.
      class_out Hin. }
    destruct (Pull.download w token repo (flagEnv w)) as [td o] eqn:Hdown.
    simpl in Hd. subst o. apply download_Next in Hdown.
    apply elem_of_bind in Hin as [Hin | (? & _ & Hin)].
    + apply list_elem_of_singleton in Hin. injection Hin as ->. eauto 10.
    + match type of Hin with _ ∈ (?m).1 =>
        assert (onlyCalls [Display] m) as Hc
          by (only_calls; eapply onlyCalls_mono, pull_showDiff_calls; classes_in) end.
      apply (onlyCalls_elem _ _ _ Hc) in Hin. class_out Hin.
  - unfold Pull.runPull. rewrite finish_trace, bind_trace.
    unfold Pull.preparePull. rewrite bind_trace.
    pose proof (beforeDownload_calls w) as Hcb.
    destruct (Pull.beforeDownload w) as [tb [[repo token]|err]]; cbn [fst snd].
    2:{ rewrite bind_Return. cbn [snd]. exists tb, []. rewrite !app_nil_r.
        split; [done|]. split; [|by left].
        eapply Forall_impl; [exact Hcb|]. intros e He. cbv beta in He.
        revert He. generalize (classOf e). classes_in. }
    rewrite bind_Next. cbn [snd]. cbv zeta. rewrite bind_trace.
    pose proof (download_calls w token repo (flagEnv w)) as Hcd.
    destruct (Pull.download w token repo (flagEnv w)) as [td [content|err]]; cbn [fst snd].
    2:{ rewrite bind_Return. cbn [snd]. exists (tb ++ td), []. rewrite !app_nil_r.
        split; [done|]. split; [|by left]. apply Forall_app. split.
        - eapply Forall_impl; [exact Hcb|]. intros e He. cbv beta in He.
          revert He. generalize (classOf e). classes_in.
        - eapply Forall_impl; [exact Hcd|]. intros e He. cbv beta in He.
          revert He. generalize (classOf e). classes_in. }
    rewrite bind_Next. cbn [snd].
    match goal with
    | |- context [emit (OsReadFile ?path) ≫= ?k] =>
        assert (∃ ts p, emit (OsReadFile path) ≫= k = (OsReadFile path :: ts, Next p)
                        ∧ Forall (λ e, classOf e = Display) ts) as (ts & p & -> & Hts)
    end.
    { unfold emit. rewrite bind_Next.
      destruct (ReadFile w _) as [data|err]; cbn [fst snd].
      all: match goal with
           | |- context [Pull.showDiff ?a ?b ?c] =>
               pose proof (pull_showDiff_Next a b c) as Hn;
               pose proof (pull_showDiff_calls a b c) as Hcs;
               destruct (Pull.showDiff a b c) as [tsd o]
           end; simpl in Hn; subst o; rewrite bind_Next; simpl;
           (eexists _, _; split; [reflexivity|]); rewrite app_nil_r;
           (eapply Forall_impl; [exact Hcs|]); intros e He; cbv beta in He;
           by apply list_elem_of_singleton in He. }
    cbn [fst snd].
    exists (tb ++ td), (OsReadFile (Join w "." (flagFile w)) :: ts
                        ++ (Pull.confirmPull w p ;; Pull.writeResult w p).1).
    split; [by rewrite <- !app_assoc|]. split.
    { apply Forall_app. split.
      - eapply Forall_impl; [exact Hcb|]. intros e He. cbv beta in He.
        revert He. generalize (classOf e). classes_in.
      - eapply Forall_impl; [exact Hcd|]. intros e He. cbv beta in He.
        revert He. generalize (classOf e). classes_in. }
    right. eexists. split; [reflexivity|]. apply Forall_app. split.
    + eapply Forall_impl; [exact Hts|]. intros e He. cbv beta in He. rewrite He. class_in.
    + assert (onlyCalls [Display; Prompt; FileWrite]
                (Pull.confirmPull w p ;; Pull.writeResult w p)) as Hc.
      { apply onlyCalls_bind; [eapply onlyCalls_mono, confirmPull_calls; classes_in|].
        intros _. eapply onlyCalls_mono, writeResult_calls. classes_in. }
      exact Hc.
Qed.

Lemma pull_calls_in_order_witness :
  ∃ repo token remote,
    DetectRepo Sample.mergeWorld = Ok repo ∧ EnsureLogin Sample.mergeWorld = Ok token
    ∧ PullSecrets Sample.mergeWorld token repo (flagEnv Sample.mergeWorld) = Ok remote.
Proof.
  assert (OsReadFile ".env" ∈ (Pull.runPull Sample.mergeWorld).1) as Hin
    by (vm_compute; in_trace).
  exact (proj2 (proj1 (proj2 (pull_calls_in_order Sample.mergeWorld)) _ Hin)).
Defined.

(** * Further properties of the merge *)

Lemma Split_nonempty (s : string) (sep : ascii) : Strings.Split s sep ≠ [].
Proof.
  destruct s as [|c s]; simpl; [done|].
  destruct (Ascii.eqb c sep); [done|]. by destruct (Strings.Split s sep).
Qed.

Lemma Split_app (a b : string) (sep : ascii) :
  Strings.Split (a +:+ String sep b) sep = Strings.Split a sep ++ Strings.Split b sep.
Proof.
  induction a as [|c a IH].
  - rewrite app_nil_s. simpl. by rewrite Ascii.eqb_refl.
  - rewrite app_cons_s. simpl. rewrite IH.
    destruct (Ascii.eqb c sep); [done|].
    pose proof (Split_nonempty a sep). by destruct (Strings.Split a sep).
Qed.

Lemma TrimRight_repeat (s : string) (c : ascii) :
  ∃ n, s = Strings.TrimRight s c +:+ repeatByte n c.
Proof.
  induction s as [|a s [n IH]]; [by exists 0|]. simpl.
  destruct (Strings.TrimRight s c) as [|b r] eqn:Ht.
  - destruct (Ascii.eqb_spec a c) as [->|].
    + exists (S n). rewrite app_nil_s in *. simpl. by f_equal.
    + exists n. rewrite app_cons_s. by f_equal.
  - exists n. rewrite app_cons_s. by f_equal.
Qed.

Lemma TrimRight_snoc (s : string) (c : ascii) :
  Strings.TrimRight (s +:+ String c "") c = Strings.TrimRight s c.
Proof.
  induction s as [|a s IH].
  - rewrite app_nil_s. simpl. by rewrite Ascii.eqb_refl.
  - rewrite app_cons_s. simpl. by rewrite IH.
Qed.

Lemma TrimRight_idemp (s : string) (c : ascii) :
  Strings.TrimRight (Strings.TrimRight s c) c = Strings.TrimRight s c.
Proof.
  induction s as [|a s IH]; [done|]. simpl.
  destruct (Strings.TrimRight s c) as [|b r] eqn:Ht.
  - destruct (Ascii.eqb a c) eqn:Hac; [done|]. simpl. by rewrite Hac.
  - simpl. simpl in IH. by rewrite IH.
Qed.

(** X13. When every local key is in the vault, the merge gives the vault
    text with its trailing newlines replaced by a single one, and merging
    that result again changes nothing. *)
Theorem merge_without_local_only (text : string) (local vault : gmap string string)
    (ol ol' : list (string * string)) :
  rangeOrder local ol → rangeOrder local ol' →
  dom local ⊆ dom vault →
  Pull.mergeSecrets text local vault ol = Strings.TrimRight text newline +:+ String newline ""
  ∧ Pull.mergeSecrets (Pull.mergeSecrets text local vault ol) local vault ol'
    = Pull.mergeSecrets text local vault ol.
Proof.
  intros Hl Hl' Hsub.
  assert (∀ o, rangeOrder local o →
            keysWhere (λ k _, bool_decide (vault !! k = None)) o = []) as Hnone.
  { intros o Ho. apply keysWhere_none. intros k v Hin%(rangeOrder_elem local); [|done].
    apply bool_decide_eq_false. rewrite <- not_elem_of_dom. intros Hn. apply Hn, Hsub.
    apply elem_of_dom. eauto. }
  assert (∀ s o, rangeOrder local o →
            Pull.mergeSecrets s local vault o
            = Strings.TrimRight s newline +:+ String newline "") as Hmerge.
  { intros s o Ho. rewrite mergeSecrets_spec, Hnone by done. done. }
  rewrite !Hmerge by done. split; [done|].
  by rewrite TrimRight_snoc, TrimRight_idemp.
Qed.

Lemma merge_without_local_only_witness :
  Pull.mergeSecrets (Sample.line "A=0" +:+ Sample.line "B=0" +:+ Sample.line "")
    Sample.two Sample.two Sample.twoBA
  = Sample.line "A=0" +:+ Sample.line "B=0".
Proof.
  assert (rangeOrder Sample.two Sample.twoBA) as H
    by (unfold rangeOrder; apply (bool_decide_unpack _); vm_compute; exact I).
  rewrite (proj1 (merge_without_local_only _ Sample.two Sample.two _ _ H H
                    (reflexivity _))).
  vm_compute. reflexivity.
Defined.

(** * Further properties of the environment name *)

Lemma TrimRight_without (s : string) (c : ascii) :
  Strings.Index s c = None → Strings.TrimRight s c = s.
Proof.
  induction s as [|a s IH]; [done|]. simpl.
  destruct (Ascii.eqb a c) eqn:Hac; [done|].
  destruct (Strings.Index s c) as [i|]; [done|]. intros _. rewrite IH by done.
  by destruct s.
Qed.

Lemma TrimRight_app_keep (x y : string) (c : ascii) :
  y ≠ "" → Strings.TrimRight y c = y → Strings.TrimRight (x +:+ y) c = x +:+ y.
Proof.
  intros Hy Ht. induction x as [|a x IH]; [done|].
  rewrite app_cons_s. simpl. rewrite IH.
  destruct (x +:+ y) eqn:Hxy; [|done]. by destruct x, y.
Qed.

Lemma Index_app_sep (x y : string) (c : ascii) :
  is_Some (Strings.Index (x +:+ String c y) c).
Proof.
  induction x as [|a x [i IH]].
  - rewrite app_nil_s. simpl. rewrite Ascii.eqb_refl. eauto.
  - rewrite app_cons_s. simpl. destruct (Ascii.eqb a c); [eauto|]. rewrite IH. eauto.
Qed.

Lemma lastElement_without (name : string) :
  Strings.Index name "/"%char = None → Filepath.lastElement name = name.
Proof.
  destruct name as [|a r]; [done|]. simpl.
  destruct (Ascii.eqb a "/") eqn:Ha; [done|].
  destruct (Strings.Index r "/") as [i|]; done.
Qed.

Lemma lastElement_app (dir name : string) :
  Strings.Index name "/"%char = None →
  Filepath.lastElement (dir +:+ String "/" name) = name.
Proof.
  intros Hname. induction dir as [|a dir IH].
  - rewrite app_nil_s. simpl. by rewrite Hname.
  - rewrite app_cons_s. simpl.
    destruct (Index_app_sep dir name "/") as [i ->]. done.
Qed.

(** X14. The environment name depends on the last element of the path
    only: a directory prefix changes nothing. *)
Theorem deriveEnvFromFile_ignores_directory (dir name : string) :
  name ≠ "" → Strings.Index name "/"%char = None →
  Filepath.Base (dir +:+ "/" +:+ name) = name
  ∧ deriveEnvFromFile (dir +:+ "/" +:+ name) = deriveEnvFromFile name.
Proof.
  intros Hne Hname.
  assert (∀ path, path ≠ "" → Filepath.lastElement (Strings.TrimRight path "/") = name →
            Filepath.Base path = name) as Hbase.
  { intros path Hp Hl. unfold Filepath.Base. rewrite decide_False by done.
    cbv zeta. rewrite Hl. by rewrite decide_False. }
  assert (Filepath.Base (dir +:+ "/" +:+ name) = name) as H1.
  { apply Hbase; [by destruct dir|].
    change ("/" +:+ name) with (String "/" name).
    rewrite (TrimRight_app_keep dir (String "/" name)); [by apply lastElement_app|done|].
    change (String "/" name) with ("/" +:+ name).
    apply (TrimRight_app_keep "/" name); [done|]. by apply TrimRight_without. }
  assert (Filepath.Base name = name) as H2.
  { apply Hbase; [done|]. rewrite TrimRight_without by done. by apply lastElement_without. }
  split; [done|]. unfold deriveEnvFromFile. by rewrite H1, H2.
Qed.

Lemma deriveEnvFromFile_ignores_directory_witness :
  deriveEnvFromFile ("deploy/envs" +:+ "/" +:+ ".env.staging") = "staging".
Proof.
  rewrite (proj2 (deriveEnvFromFile_ignores_directory "deploy/envs" ".env.staging"
                    ltac:(discriminate) eq_refl)).
  reflexivity.
Defined.

(** * The merged text, parsed again *)

Lemma parse_app (a b : string) :
  parseEnvContent (a +:+ String newline b)
  = foldl parseStep (parseEnvContent a) (Strings.Split b newline).
Proof. unfold parseEnvContent. by rewrite Split_app, foldl_app. Qed.

Lemma parseStep_blank (m : gmap string string) : parseStep m "" = m.
Proof. reflexivity. Qed.

Lemma parseStep_newlines (n : nat) (m : gmap string string) :
  foldl parseStep m (Strings.Split (repeatByte n newline) newline) = m.
Proof.
  revert m. induction n as [|n IH]; intros m; [done|].
  change (repeatByte (S n) newline) with ("" +:+ String newline (repeatByte n newline)).
  rewrite Split_app, foldl_app. change (Strings.Split "" newline) with [""].
  cbn [foldl]. rewrite parseStep_blank. apply IH.
Qed.

Lemma parse_TrimRight (text : string) :
  parseEnvContent (Strings.TrimRight text newline) = parseEnvContent text.
Proof.
  destruct (TrimRight_repeat text newline) as [n Hn].
  rewrite Hn at 2. destruct n as [|n]; [by rewrite app_empty_r|].
  simpl. by rewrite parse_app, parseStep_newlines.
Qed.

Lemma keyValueLines_Split (local : gmap string string) (keys : list string) :
  (∀ k, k ∈ keys → ∃ v, local !! k = Some v ∧ survivesRewrite k v) →
  Strings.Split (keyValueLines local keys) newline
  = ((λ k, k +:+ "=" +:+ default "" (local !! k)) <$> keys) ++ [""].
Proof.
  induction keys as [|k keys IH]; intros Hkeys; [done|].
  cbn [keyValueLines foldr]. fold (keyValueLines local keys).
  destruct (Hkeys k) as (v & Hv & Hsplit & _); [left|]. rewrite Hv. cbn [default from_option id].
  replace (k +:+ "=" +:+ v +:+ String newline "" +:+ keyValueLines local keys)
    with ((k +:+ "=" +:+ v) +:+ String newline (keyValueLines local keys))
    by (by rewrite !app_assoc_s).
  rewrite Split_app, Hsplit, IH by (intros ??; apply Hkeys; by right).
  rewrite fmap_cons, Hv. done.
Qed.

Lemma parseStep_lines (local : gmap string string) (keys : list string)
    (m : gmap string string) (k : string) :
  (∀ k, k ∈ keys → ∃ v, local !! k = Some v ∧ survivesRewrite k v) →
  foldl parseStep m ((λ k, k +:+ "=" +:+ default "" (local !! k)) <$> keys) !! k
  = if decide (k ∈ keys) then local !! k else m !! k.
Proof.
  revert m. induction keys as [|k0 keys IH]; intros m Hkeys.
  - rewrite decide_False by apply not_elem_of_nil. done.
  - destruct (Hkeys k0) as (v0 & Hv0 & _ & Hparse); [left|].
    rewrite fmap_cons. cbn [foldl]. rewrite IH by (intros ??; apply Hkeys; by right).
    rewrite Hv0. cbn [default from_option id].
    unfold parseStep. rewrite Hparse.
    destruct (decide (k ∈ keys)) as [Hin|Hout].
    + rewrite decide_True by (by right). done.
    + destruct (decide (k = k0)) as [->|Hne].
      * rewrite lookup_insert_eq, decide_True by left. done.
      * rewrite lookup_insert_ne by done. rewrite decide_False; [done|].
        intros [?|?]%elem_of_cons; done.
Qed.

(** X15. Parsing what the merge wrote.  When every local-only entry can be
    written back as a line (see [survivesRewrite]), the merged text parses
    to the secrets of the vault text, plus the local-only secrets with
    their local values.  In a pull, where the vault secrets are the parse
    of the vault text, this is the union of the vault and the local
    secrets, vault first. *)
Theorem merged_text_parses_to_union (text : string) (local vault : gmap string string)
    (ol : list (string * string)) :
  rangeOrder local ol →
  (∀ k v, local !! k = Some v → vault !! k = None → survivesRewrite k v) →
  (∀ k, parseEnvContent (Pull.mergeSecrets text local vault ol) !! k
        = match vault !! k, local !! k with
          | None, Some v => Some v
          | _, _ => parseEnvContent text !! k
          end)
  ∧ (vault = parseEnvContent text →
     parseEnvContent (Pull.mergeSecrets text local vault ol) = vault ∪ local).
Proof.
  intros Hol Hstable.
  set (keys := keysWhere (λ k _, bool_decide (vault !! k = None)) ol).
  assert (∀ k, k ∈ keys ↔ ∃ v, local !! k = Some v ∧ vault !! k = None) as Hkeys.
  { intros k. unfold keys. rewrite elem_of_keysWhere. split.
    - intros (v & Hin%(rangeOrder_elem local) & Hb%bool_decide_eq_true); eauto.
    - intros (v & Hk & Hn). exists v. split; [by apply (rangeOrder_elem local)|].
      by apply bool_decide_eq_true. }
  assert (∀ k, k ∈ keys → ∃ v, local !! k = Some v ∧ survivesRewrite k v) as Hsurv.
  { intros k (v & Hk & Hn)%Hkeys. eauto. }
  assert (∀ k, parseEnvContent (Pull.mergeSecrets text local vault ol) !! k
               = if decide (k ∈ keys) then local !! k else parseEnvContent text !! k)
    as Hlookup.
  { intros k. rewrite mergeSecrets_spec by done. fold keys. unfold specFinalText.
    cbn [orb negb]. rewrite <- (parse_TrimRight text).
    destruct keys as [|k0 keys'] eqn:Hk.
    - rewrite parse_app, decide_False by apply not_elem_of_nil. done.
    - rewrite <- Hk in *.
      replace (String newline "" +:+ String newline ""
               +:+ "# Local variables (not in vault)" +:+ String newline ""
               +:+ keyValueLines local keys)
        with (String newline ("" +:+ String newline
                ("# Local variables (not in vault)"
                 +:+ String newline (keyValueLines local keys))))
        by reflexivity.
      rewrite parse_app, Split_app, Split_app, keyValueLines_Split by done.
      rewrite !foldl_app. simpl.
      change (parseStep (parseStep (parseEnvContent (Strings.TrimRight text newline)) "")
                "# Local variables (not in vault)")
        with (parseEnvContent (Strings.TrimRight text newline)).
      rewrite parseStep_blank. by apply parseStep_lines. }
  assert (∀ k, parseEnvContent (Pull.mergeSecrets text local vault ol) !! k
               = match vault !! k, local !! k with
                 | None, Some v => Some v
                 | _, _ => parseEnvContent text !! k
                 end) as Hfirst.
  { intros k. rewrite Hlookup. destruct (decide (k ∈ keys)) as [Hin|Hout].
    - apply Hkeys in Hin as (v & -> & ->). done.
    - destruct (vault !! k) as [vv|] eqn:Hv; [done|].
      destruct (local !! k) as [lv|] eqn:Hl; [|done].
      destruct Hout. apply Hkeys. eauto. }
  split; [done|].
  intros ->. apply map_eq. intros k. rewrite Hfirst, lookup_union.
  destruct (parseEnvContent text !! k), (local !! k); done.
Qed.

Lemma merged_text_parses_to_union_witness :
  parseEnvContent
    (Pull.mergeSecrets (Sample.line "B=9") Sample.two {[ "B" := "9" ]} Sample.twoBA)
  = {[ "B" := "9" ]} ∪ Sample.two.
Proof.
  assert (rangeOrder Sample.two Sample.twoBA) as H
    by (unfold rangeOrder; apply (bool_decide_unpack _); vm_compute; exact I).
  assert (∀ k v, Sample.two !! k = Some v →
            ({[ "B" := "9" ]} : gmap string string) !! k = None → survivesRewrite k v)
    as Hstable.
  { intros k v Hk Hv.
    assert ((k, v) ∈ Sample.twoBA) as Hin by (by apply (rangeOrder_elem Sample.two)).
    unfold Sample.twoBA in Hin.
    apply elem_of_cons in Hin as [[= -> ->] | Hin]; [by vm_compute in Hv|].
    apply list_elem_of_singleton in Hin as [= -> ->]. split; vm_compute; reflexivity. }
  apply (proj2 (merged_text_parses_to_union (Sample.line "B=9") Sample.two
                  {[ "B" := "9" ]} Sample.twoBA H Hstable)).
  vm_compute. reflexivity.
Defined.

(** * Entries that can be written back *)

Lemma stripLeadingSpace_visible (a : ascii) (r : string) :
  visibleByte a = true → Strings.stripLeadingSpace (String a r) = None.
Proof.
  destruct a as [[] [] [] [] [] [] [] []]; intros H;
    first [ by vm_compute in H | by vm_compute ].
Qed.

Lemma rev_app_app (p q acc : string) :
  String.rev_app (p +:+ q) acc = String.rev_app q (String.rev_app p acc).
Proof.
  revert acc. induction p as [|c p IH]; intros acc; [done|].
  rewrite app_cons_s. simpl. apply IH.
Qed.

Lemma rev_snoc (p : string) (b : ascii) :
  String.rev (p +:+ String b "") = String b (String.rev p).
Proof. unfold String.rev. by rewrite rev_app_app. Qed.

Lemma stripTrailingSpace_visible (p : string) (b : ascii) :
  visibleByte b = true → Strings.stripTrailingSpace (p +:+ String b "") = None.
Proof.
  intros H. unfold Strings.stripTrailingSpace, Strings.HasSuffix.
  rewrite rev_snoc. generalize (String.rev p). intros r.
  match goal with |- _ <$> ?f = None => assert (f = None) as ->; [|done] end.
  destruct b as [[] [] [] [] [] [] [] []];
    first [ by vm_compute in H | by vm_compute ].
Qed.

Lemma visible_snoc (s : string) :
  s ≠ "" → visible s = true →
  ∃ p b, s = p +:+ String b "" ∧ visibleByte b = true.
Proof.
  induction s as [|a s IH]; [done|]. intros _ [Ha Hs]%andb_true_iff.
  destruct s as [|a' s'].
  - exists "", a. done.
  - destruct IH as (p & b & Hp & Hb); [done..|].
    exists (String a p), b. rewrite app_cons_s, <- Hp. done.
Qed.

Lemma TrimSpace_visible (s : string) : visible s = true → Strings.TrimSpace s = s.
Proof.
  intros Hs. destruct s as [|a r]; [done|].
  unfold Strings.TrimSpace. cbv zeta.
  assert (Strings.trimLeftSpace (Strings.len (String a r)) (String a r) = String a r) as ->.
  { apply andb_true_iff in Hs as [Ha _]. simpl.
    by rewrite stripLeadingSpace_visible. }
  destruct (visible_snoc (String a r)) as (p & b & -> & Hb); [done..|].
  destruct (Strings.len (p +:+ String b "")); [done|]. simpl.
  by rewrite stripTrailingSpace_visible.
Qed.

Lemma visible_app (a b : string) : visible (a +:+ b) = visible a && visible b.
Proof.
  induction a as [|c a IH]; [done|]. rewrite app_cons_s. simpl.
  by rewrite IH, andb_assoc.
Qed.

Lemma Split_visible (s : string) : visible s = true → Strings.Split s newline = [s].
Proof.
  induction s as [|a s IH]; [done|]. intros [Ha Hs]%andb_true_iff. simpl.
  rewrite IH by done.
  destruct (Ascii.eqb_spec a newline) as [->|]; [by vm_compute in Ha|done].
Qed.

Lemma Index_app_first (k v : string) (c : ascii) :
  Strings.Index k c = None → Strings.Index (k +:+ String c v) c = Some (Strings.len k).
Proof.
  induction k as [|a k IH].
  - intros _. rewrite app_nil_s. simpl. by rewrite Ascii.eqb_refl.
  - rewrite app_cons_s. simpl. destruct (Ascii.eqb a c); [done|].
    destruct (Strings.Index k c) as [i|] eqn:Hi; [done|]. intros _.
    rewrite IH by done. done.
Qed.

Lemma sliceFrom_after (k v : string) (c : ascii) :
  Strings.sliceFrom (k +:+ String c v) (Strings.len k + 1) = v.
Proof.
  induction k as [|a k IH]; [done|]. rewrite app_cons_s. apply IH.
Qed.

Lemma HasPrefix_app_l (k r p : string) :
  k ≠ "" → Strings.HasPrefix (k +:+ r) (String "#" "") = Strings.HasPrefix k (String "#" "").
Proof. destruct k as [|a k]; [done|]. intros _. rewrite app_cons_s. done. Qed.

(** X16. A local-only entry can be written back as a line whenever its
    key is not empty, key and value are made of printable ASCII bytes
    without spaces, the key holds no [=] and does not start with [#], and
    the value is not wrapped in quotes. *)
Theorem plain_entries_survive (key value : string) :
  key ≠ "" → visible key = true →
  Strings.Index key "="%char = None → Strings.HasPrefix key "#" = false →
  visible value = true → unquote value = value →
  survivesRewrite key value.
Proof.
  intros Hne Hk Heq Hhash Hv Hq.
  assert (visible (key +:+ "=" +:+ value) = true) as Hline.
  { rewrite !visible_app, Hk, Hv. done. }
  split; [by apply Split_visible|].
  unfold parseLine. cbv zeta. rewrite TrimSpace_visible by done.
  rewrite bool_decide_false by (by destruct key).
  rewrite (HasPrefix_app_l key ("=" +:+ value) "") by done. rewrite Hhash. cbn [orb].
  change ("=" +:+ value) with (String "=" value).
  rewrite Index_app_first by done.
  rewrite sliceTo_app, sliceFrom_after, TrimSpace_visible, Hq by done.
  by rewrite bool_decide_true.
Qed.

Lemma plain_entries_survive_witness : survivesRewrite "LOCAL_ONLY" "x".
Proof.
  apply plain_entries_survive; try reflexivity. discriminate.
Defined.

(** * Further properties of the two commands *)

(** X17. How a push picks its file without asking.  With [--file] the
    directory listing is ignored; without it and without a terminal the
    first candidate is taken, and no candidate is an error.  The
    environment is [--env] when given, else the one derived from the
    file name. *)
Theorem file_selection_without_prompt (w : World) :
  (flagFile w ≠ "" →
   Push.selectFile w
   = ([OsReadDir "."],
      Next (flagFile w,
            if bool_decide (flagEnv w = "") then deriveEnvFromFile (flagFile w)
            else flagEnv w)))
  ∧ (flagFile w = "" → IsInteractive w = false →
     ∀ t candidates, Push.discoverEnvFiles w = (t, Next candidates) →
       Push.selectFile w
       = match candidates with
         | [] => ([OsReadDir "."; Ui ErrorMsg "No .env file found"],
                  Return (Some (Errorf "no .env file found")))
         | c :: _ =>
             ([OsReadDir "."],
              Next (Push.file c,
                    if bool_decide (flagEnv w = "") then deriveEnvFromFile (Push.file c)
                    else flagEnv w))
         end).
Proof.
  destruct (discoverEnvFiles_outcome w) as (candidates & Hdisc & Henv).
  split.
  - intros Hfile. unfold Push.selectFile. rewrite Hdisc, bind_Next.
    rewrite !(bool_decide_false (flagFile w = "")) by done.
    rewrite andb_false_r. cbn [andb]. simpl.
    rewrite (bool_decide_false (flagFile w = "")) by done. reflexivity.
  - intros Hfile Hint t cs Hcs. rewrite Hdisc in Hcs. injection Hcs as _ <-.
    unfold Push.selectFile. rewrite Hdisc, bind_Next, Hfile, Hint.
    destruct candidates as [|c cs].
    { simpl. reflexivity. }
    apply Forall_cons in Henv as [Hc _].
    cbn [length andb negb]. rewrite (bool_decide_false (S (length cs) = 0)) by lia.
    cbn [andb]. simpl. rewrite Hc.
    repeat case_bool_decide; first [reflexivity | congruence].
Qed.

Lemma file_selection_without_prompt_witness :
  Push.selectFile Sample.dirWorld = ([OsReadDir "."], Next (".env.production", "production")).
Proof.
  eassert (Push.discoverEnvFiles Sample.dirWorld = (_, Next _)) as Hd
    by (vm_compute; reflexivity).
  rewrite (proj2 (file_selection_without_prompt Sample.dirWorld) eq_refl eq_refl _ _ Hd).
  reflexivity.
Defined.

Lemma upload_outcome w p :
  (Push.upload w p).2
  = match PushSecrets w (Push.planToken p) (Push.planRepo p) (Push.planEnv p)
            (Push.planSecrets p) with
    | Ok _ => Next tt
    | Err err => Return (Some err)
    end.
Proof.
  unfold Push.upload, emit. rewrite !bind_Next. cbn [snd].
  destruct (PushSecrets w _ _ _ _) as [resp|err].
  - rewrite bind_Next. cbn [snd]. destruct (Stats resp) as [st|];
      [destruct (bool_decide _)|]; rewrite ?bind_Next; reflexivity.
  - rewrite bind_Next. cbn [snd]. destruct err as [st text url|text];
      [destruct (bool_decide (url ≠ ""))|]; rewrite ?bind_Next; reflexivity.
Qed.

Lemma writeResult_outcome w p :
  (Pull.writeResult w p).2
  = match WriteFile w (Pull.planEnvFilePath p) (Pull.finalContent w p) 384 with
    | None => Next tt
    | Some err => Return (Some err)
    end.
Proof.
  unfold Pull.writeResult, emit. cbv zeta. rewrite bind_Next. cbn [snd].
  destruct (WriteFile w _ _ _) as [err|]; rewrite ?bind_Next; [reflexivity|].
  cbn [snd]. destruct (_ && _); rewrite ?bind_Next; reflexivity.
Qed.

(** X18. Once confirmed with [--yes], a command returns what its last
    step returns: a push uploads the secrets of its plan and returns the
    error of the upload, or [nil]; a pull writes its final text and
    returns the error of the write, or [nil]. *)
Theorem confirmed_run_returns_apply_error :
  (∀ w t p,
     Push.preparePush w = (t, Next p) → flagYes w = true →
     (Push.runPush w).2
     = match PushSecrets w (Push.planToken p) (Push.planRepo p) (Push.planEnv p)
               (Push.planSecrets p) with
       | Ok _ => None
       | Err err => Some err
       end
     ∧ ApiPushSecrets (Push.planToken p) (Push.planRepo p) (Push.planEnv p)
         (Push.planSecrets p) ∈ (Push.runPush w).1)
  ∧ (∀ w t p,
       Pull.preparePull w = (t, Next p) → flagYes w = true →
       (Pull.runPull w).2
       = WriteFile w (Pull.planEnvFilePath p) (Pull.finalContent w p) 384
       ∧ OsWriteFile (Pull.planEnvFilePath p) (Pull.finalContent w p) 384
         ∈ (Pull.runPull w).1).
Proof.
  split.
  - intros w t p Hprep Hyes.
    assert (Push.confirmPush w p = ([], Next tt)) as Hconfirm
      by (unfold Push.confirmPush; rewrite Hyes; reflexivity).
    pose proof (upload_outcome w p) as Hout.
    assert (ApiPushSecrets (Push.planToken p) (Push.planRepo p) (Push.planEnv p)
              (Push.planSecrets p) ∈ (Push.upload w p).1) as Hin.
    { unfold Push.upload, emit. rewrite !bind_Next. cbn [fst]. in_trace. }
    unfold Push.runPush. rewrite Hprep, bind_Next, Hconfirm, bind_Next.
    destruct (Push.upload w p) as [tu o]. simpl in *. subst o. split.
    + destruct (PushSecrets w _ _ _ _); reflexivity.
    + destruct (PushSecrets w _ _ _ _); simpl; apply elem_of_app; by right.
  - intros w t p Hprep Hyes.
    assert (Pull.confirmPull w p = ([], Next tt)) as Hconfirm.
    { unfold Pull.confirmPull. rewrite Hyes. by destruct (Pull.planLocalExists p). }
    pose proof (writeResult_outcome w p) as Hout.
    pose proof (writeResult_first w p) as Hin.
    unfold Pull.runPull. rewrite Hprep, bind_Next, Hconfirm, bind_Next.
    destruct (Pull.writeResult w p) as [tw o]. simpl in *. subst o. split.
    + destruct (WriteFile w _ _ _); reflexivity.
    + destruct (WriteFile w _ _ _); simpl; apply elem_of_app; by right.
Qed.

Lemma confirmed_run_returns_apply_error_witness :
  (Push.runPush Sample.yesPushWorld).2 = None
  ∧ (Pull.runPull Sample.mergeWorld).2 = None.
Proof.
  destruct confirmed_run_returns_apply_error as [Hpush Hpull].
  eassert (Push.preparePush Sample.yesPushWorld = (_, Next _)) as Hp1
    by (vm_compute; reflexivity).
  eassert (Pull.preparePull Sample.mergeWorld = (_, Next _)) as Hp2
    by (vm_compute; reflexivity).
  split.
  - destruct (Hpush Sample.yesPushWorld _ _ Hp1 eq_refl) as [Hrun _].
    rewrite Hrun. reflexivity.
  - destruct (Hpull Sample.mergeWorld _ _ Hp2 eq_refl) as [Hrun _].
    rewrite Hrun. reflexivity.
Defined.
